(** * Contextual retrieval: the fact memory store and the hybrid retriever

  A shallow embedding of
  - [long-term-memory-redis/main.py]: [RedisMemoryStore] (keyword
    extraction, query escaping, save with deduplication, search, list,
    clear), and
  - [rag-pgvector/main.py]: [HYBRID_SEARCH_SQL] (Reciprocal Rank Fusion)
    and [PostgresHybridRetriever._get_relevant_documents].

  Python [str] values are sequences of Unicode code points.  The Redis
  server, the RediSearch engine and PostgreSQL are collaborators of the
  program, not part of it: the client code is written against an
  interface, and a small in-memory server is given for the properties
  that depend on what is stored. *)

From Stdlib Require Import String Ascii List Bool Arith ZArith NArith QArith.
From Stdlib Require Import Lia Permutation Sorting.Sorted.
Import ListNotations.

Local Open Scope list_scope.

(* ===================================================================== *)
(** * Text *)
(* ===================================================================== *)

Module Text.

(** A character is a code point, a [str] a sequence of them. *)
Definition char := N.
Definition str := list char.

(** A literal of the source (ASCII only) as a [str]. *)
Definition str_of (s : string) : str :=
  map N_of_ascii (list_ascii_of_string s).

Definition char_eqb (a b : char) : bool := N.eqb a b.

Fixpoint str_eqb (a b : str) : bool :=
  match a, b with
  | [], [] => true
  | x :: a', y :: b' => char_eqb x y && str_eqb a' b'
  | _, _ => false
  end.

(** [c in s] for a one-character [c]. *)
Definition char_in (c : char) (s : str) : bool := existsb (char_eqb c) s.

(** [w in S] for a set of strings [S]. *)
Definition str_in (w : str) (S : list str) : bool := existsb (str_eqb w) S.

(** [sep.join(parts)]. *)
Fixpoint join (sep : str) (parts : list str) : str :=
  match parts with
  | [] => []
  | [p] => p
  | p :: ps => p ++ sep ++ join sep ps
  end.

(** [s.startswith(p)]. *)
Fixpoint startswith (p s : str) : bool :=
  match p, s with
  | [], _ => true
  | x :: p', y :: s' => char_eqb x y && startswith p' s'
  | _ :: _, [] => false
  end.

(** [s.replace(old, new)] for a one-character [old]. *)
Definition replace_char (old : char) (new : str) (s : str) : str :=
  flat_map (fun c => if char_eqb c old then new else [c]) s.

(** [l[:n]]: a negative bound counts from the end. *)
Definition slice_upto {A : Type} (n : Z) (l : list A) : list A :=
  if (0 <=? n)%Z then firstn (Z.to_nat n) l
  else firstn (length l - Z.to_nat (- n)) l.

End Text.

Import Text.

(* ===================================================================== *)
(** * The Unicode character database *)
(* ===================================================================== *)

(** What the program asks of [unicodedata] and of [str]: the tables are
  CPython's, so they are an interface here. *)
Class UnicodeData : Type := {
(** [unicodedata.normalize("NFKD", text)] *)
normalize_NFKD : str -> str;
(** [unicodedata.combining(c)]: the canonical combining class *)
combining : char -> N;
(** [c.isalnum()] *)
isalnum : char -> bool;
(** the whitespace of [str.split()] and [str.strip()] *)
isspace : char -> bool;
(** [s.lower()] *)
lower : str -> str
}.

Section StrMethods.
Context {U : UnicodeData}.

(** [s.split()]: the maximal runs of characters that are not whitespace.
    [w] holds the run being read, last character first. *)
Fixpoint split_from (w : str) (s : str) : list str :=
  match s with
  | [] => match w with [] => [] | _ :: _ => [rev w] end
  | c :: s' =>
      if isspace c
      then match w with
           | [] => split_from [] s'
           | _ :: _ => rev w :: split_from [] s'
           end
      else split_from (c :: w) s'
  end.

Definition split (s : str) : list str := split_from [] s.

(** [s.lstrip()], [s.rstrip()], [s.strip()]. *)
Fixpoint lstrip (s : str) : str :=
  match s with
  | [] => []
  | c :: s' => if isspace c then lstrip s' else s
  end.

Definition rstrip (s : str) : str := rev (lstrip (rev s)).

Definition strip (s : str) : str := rstrip (lstrip s).

End StrMethods.

(* ===================================================================== *)
(** * Keyword extraction and query escaping *)
(* ===================================================================== *)

(** [RedisMemoryStore._STOP_WORDS]: Spanish, then English (a frozenset:
    the words listed twice count once). *)
Definition _STOP_WORDS : list str :=
  map str_of
    [ "a"; "al"; "algo"; "como"; "con"; "cual"; "de"; "del"; "el";
      "en"; "es"; "eso"; "esta"; "esto"; "fue"; "ha"; "hay"; "la";
      "las"; "le"; "lo"; "los"; "me"; "mi"; "muy"; "no"; "nos"; "o";
      "para"; "pero"; "por"; "que"; "se"; "si"; "sin"; "so"; "son";
      "su"; "te"; "tu"; "un"; "una"; "uno"; "y"; "ya";
      "a"; "an"; "and"; "are"; "as"; "at"; "be"; "but"; "by"; "do";
      "for"; "from"; "has"; "have"; "he"; "her"; "his"; "how"; "i";
      "if"; "in"; "is"; "it"; "its"; "my"; "not"; "of"; "on"; "or";
      "our"; "she"; "so"; "that"; "the"; "their"; "them"; "they";
      "this"; "to"; "was"; "we"; "what"; "when"; "which"; "who";
      "will"; "with"; "you"; "your" ]%string.

Section Keywords.
Context {U : UnicodeData}.

(** [ascii_text]: the characters [c] of [normalized] with
    [not unicodedata.combining(c)], joined. *)
Definition drop_combining (normalized : str) : str :=
  filter (fun c => N.eqb (combining c) 0) normalized.

(** [clean]: the characters [c] of [word] with [c.isalnum()], joined. *)
Definition alnum_only (word : str) : str := filter isalnum word.

(** The test of the loop body:
    [clean and clean.lower() not in self._STOP_WORDS and len(clean) > 1]. *)
Definition is_keyword (clean : str) : bool :=
  match clean with
  | [] => false
  | _ :: _ => negb (str_in (lower clean) _STOP_WORDS) && (1 <? length clean)
  end.

(** One turn of [for word in ascii_text.split()]. *)
Definition keywords_step (words : list str) (word : str) : list str :=
  let clean := alnum_only word in
  if is_keyword clean then words ++ [clean] else words.

(** [RedisMemoryStore._extract_keywords]. *)
Definition _extract_keywords (text : str) : list str :=
  let normalized := normalize_NFKD text in
  let ascii_text := drop_combining normalized in
  fold_left keywords_step (split ascii_text) [].

(** ** The normalizer as the specification words it

    Step 1, the diacritic-stripped input: the text decomposed into base
    characters and marks, the marks discarded. *)
Definition diacritic_stripped (text : str) : str :=
  filter (fun c => N.eqb (combining c) 0) (normalize_NFKD text).

(** Step 2, the whitespace-delimited units of a text.  A text without a
    unit is blank; otherwise it is blanks, the first unit, and a rest that
    is empty or starts with a blank and holds the other units.  A unit is
    not empty and holds no blank: with the blank after it, it cannot be
    longer. *)
Inductive whitespace_units : str -> list str -> Prop :=
| units_none (blanks : str) :
    Forall (fun c => isspace c = true) blanks ->
    whitespace_units blanks []
| units_next (blanks unit_ rest : str) (units : list str) :
    Forall (fun c => isspace c = true) blanks ->
    unit_ <> [] ->
    Forall (fun c => isspace c = false) unit_ ->
    match rest with [] => True | c :: _ => isspace c = true end ->
    whitespace_units rest units ->
    whitespace_units (blanks ++ unit_ ++ rest) (unit_ :: units).

(** A unit with its non-alphanumeric characters removed. *)
Definition without_non_alnum (unit_ : str) : str :=
  filter (fun c => isalnum c) unit_.

(** Step 3, the rule that keeps a token: it is non-empty, longer than one
    character, and its lowercased form is no stop word. *)
Definition kept_by_spec (unit_ : str) : bool :=
  negb (str_eqb unit_ []) && (1 <? length unit_)
  && negb (str_in (lower unit_) _STOP_WORDS).

(** Steps 2 to 4 on the units: each stripped, the kept ones in their
    order, with repetitions. *)
Definition normalize_spec (units : list str) : list str :=
  filter kept_by_spec (map without_non_alnum units).

End Keywords.

(** The backslash and the characters of [special_chars], the raw string
    [@.{}()[]!|&~*^$\-:+=><%#\] followed by a double quote, a single quote
    and a slash. *)
Definition backslash : char := 92%N.
Definition double_quote : char := 34%N.

Definition special_chars : str :=
  str_of "@.{}()[]!|&~*^$" ++ [backslash] ++ str_of "-:+=><%#"
  ++ [backslash; double_quote] ++ str_of "'/".

(** One turn of [for char in text] in [_escape_query]. *)
Definition escape_step (escaped : list str) (c : char) : list str :=
  if char_in c special_chars
  then escaped ++ [[backslash; c]]
  else escaped ++ [[c]].

(** [RedisMemoryStore._escape_query]. *)
Definition _escape_query (text : str) : str :=
  concat (fold_left escape_step text []).

(** A text in which every character of [special_chars] stands right after
    a backslash that escapes it. *)
Inductive escaped_text : str -> Prop :=
| escaped_nil : escaped_text []
| escaped_plain c s :
    char_in c special_chars = false -> escaped_text s ->
    escaped_text (c :: s)
| escaped_pair c s :
    escaped_text s -> escaped_text (backslash :: c :: s).

(** Reading an escaped text back: a backslash is dropped and the character
    after it is taken as it is. *)
Fixpoint unescape_from (after_backslash : bool) (s : str) : str :=
  match s with
  | [] => []
  | c :: s' =>
      if after_backslash then c :: unescape_from false s'
      else if char_eqb c backslash then unescape_from true s'
      else c :: unescape_from false s'
  end.

Definition unescape (s : str) : str := unescape_from false s.


(* ===================================================================== *)
(** * The Redis client: errors, state, and the server's commands *)
(* ===================================================================== *)

Module Redis.

(** The exceptions of [redis.exceptions] that a command can raise.  They
    are siblings under [RedisError]: [except redis.ResponseError] catches
    the first one only. *)
Inductive exn : Type :=
| ResponseError
| ConnectionError
| TimeoutError.

Inductive res (A : Type) : Type :=
| Ok (a : A)
| Raise (e : exn).
Arguments Ok {A} a.
Arguments Raise {A} e.

(** A computation against a server in state [St]: what the server has
    done before an exception stays done. *)
Definition M (St A : Type) : Type := St -> res A * St.

Definition ret {St A : Type} (a : A) : M St A := fun s => (Ok a, s).

Definition bind {St A B : Type} (m : M St A) (k : A -> M St B) : M St B :=
  fun s =>
    match m s with
    | (Ok a, s') => k a s'
    | (Raise e, s') => (Raise e, s')
    end.

(** [try: body except redis.ResponseError: handler]. *)
Definition try_except_ResponseError {St A : Type}
    (body handler : M St A) : M St A :=
  fun s =>
    match body s with
    | (Raise ResponseError, s') => handler s'
    | other => other
    end.

Declare Scope redis_scope.
Delimit Scope redis_scope with redis.
Notation "x <- m ;; k" := (bind m (fun x => k))
  (at level 61, m at next level, right associativity) : redis_scope.
Notation "m ;;; k" := (bind m (fun _ => k))
  (at level 61, right associativity) : redis_scope.

(** The hash that [save_memory] writes with [hset(memory_id, mapping=...)]. *)
Record hash : Type := {
  h_content : str;
  h_user_id : str;
  h_timestamp : str
}.

(** [Query(s).return_fields(...).paging(offset, num)]. *)
Record Query : Type := {
  query_string : str;
  return_fields : list str;
  paging_offset : Z;
  paging_num : Z
}.

(** An entry of [results.docs]; [doc_content] is its [content] attribute. *)
Record Document : Type := {
  doc_id : str;
  doc_content : str
}.

(** The commands the store sends.  [scan_iter] is taken as the listing
    it yields. *)
Class Server (St : Type) : Type := {
  ft_search : str -> Query -> M St (list Document);
  hset : str -> hash -> M St Z;
  scan_iter : str -> M St (list str);
  hget : str -> str -> M St (option str);
  delete : str -> M St Z
}.

End Redis.

Import Redis.
Local Open Scope redis_scope.

(* ===================================================================== *)
(** * RedisMemoryStore *)
(* ===================================================================== *)

Definition INDEX_NAME : str := str_of "idx:memories".
Definition PREFIX : str := str_of "memory:".
Definition hyphen : char := 45%N.

(** The attributes that [__init__] sets ([self.r] is the server). *)
Record RedisMemoryStore : Type := {
  user_id : str;
  _escaped_user_id : str
}.

(** [__init__]: [user_id.replace("-", "\\-")]; the index is taken as
    there ([_ensure_index] creates it when it is missing). *)
Definition new_store (uid : str) : RedisMemoryStore :=
  {| user_id := uid;
     _escaped_user_id := replace_char hyphen [backslash; hyphen] uid |}.

(** [f"@user_id:{{{self._escaped_user_id}}}"] *)
Definition owner_clause (self : RedisMemoryStore) : str :=
  str_of "@user_id:{" ++ _escaped_user_id self ++ str_of "}".

Section Store.
Context {U : UnicodeData} {St : Type} {R : Server St}.

(** [RedisMemoryStore.get_all_memories]. *)
Definition get_all_memories (self : RedisMemoryStore) : M St (list str) :=
  try_except_ResponseError
    (let q := {| query_string := owner_clause self;
                 return_fields := [str_of "content"; str_of "timestamp"];
                 paging_offset := 0;
                 paging_num := 100 |} in
     results <- ft_search INDEX_NAME q ;;
     ret (map doc_content results))
    (ret []).

(** The loop of [save_memory]: does some [mem] of [existing] equal
    [normalized] once stripped and lowercased? *)
Fixpoint is_duplicate (normalized : str) (existing : list str) : bool :=
  match existing with
  | [] => false
  | mem :: rest =>
      if str_eqb (lower (strip mem)) normalized then true
      else is_duplicate normalized rest
  end.

(** [RedisMemoryStore.save_memory].  [hex12] is [uuid.uuid4().hex[:12]] and
    [now] is [str(int(time.time()))], both read from the environment. *)
Definition save_memory (self : RedisMemoryStore) (hex12 now : str)
    (content : str) : M St str :=
  existing <- get_all_memories self ;;
  let normalized := lower (strip content) in
  if is_duplicate normalized existing then ret []
  else
    let memory_id := PREFIX ++ hex12 in
    hset memory_id {| h_content := content;
                      h_user_id := user_id self;
                      h_timestamp := now |} ;;;
    ret memory_id.

(** The query that [search_memories] composes from the keywords. *)
Definition full_query (self : RedisMemoryStore) (keywords : list str) : str :=
  let escaped_terms := map _escape_query keywords in
  let text_query := join (str_of " | ") escaped_terms in
  owner_clause self ++ str_of " (" ++ text_query ++ str_of ")".

(** [RedisMemoryStore.search_memories]. *)
Definition search_memories (self : RedisMemoryStore) (query : str)
    (max_results : Z) : M St (list str) :=
  try_except_ResponseError
    (let keywords := _extract_keywords query in
     match keywords with
     | [] =>
         all <- get_all_memories self ;;
         ret (slice_upto max_results all)
     | _ :: _ =>
         let q := {| query_string := full_query self keywords;
                     return_fields := [str_of "content"];
                     paging_offset := 0;
                     paging_num := max_results |} in
         results <- ft_search INDEX_NAME q ;;
         ret (map doc_content results)
     end)
    (ret []).

(** The body of the loop of [clear_memories]. *)
Definition clear_step (self : RedisMemoryStore) (count : Z) (key : str)
    : M St Z :=
  owner <- hget key (str_of "user_id") ;;
  match owner with
  | Some o =>
      if str_eqb o (user_id self)
      then delete key ;;; ret (count + 1)%Z
      else ret count
  | None => ret count
  end.

Fixpoint clear_loop (self : RedisMemoryStore) (keys : list str) (count : Z)
    : M St Z :=
  match keys with
  | [] => ret count
  | key :: rest =>
      count' <- clear_step self count key ;;
      clear_loop self rest count'
  end.

(** [RedisMemoryStore.clear_memories]. *)
Definition clear_memories (self : RedisMemoryStore) : M St Z :=
  get_all_memories self ;;;
  keys <- scan_iter (PREFIX ++ str_of "*") ;;
  clear_loop self keys 0%Z.

End Store.

(* ===================================================================== *)
(** * An in-memory Redis server with a RediSearch index *)
(* ===================================================================== *)

Module MemRedis.

(** The keyspace, oldest key first.  The index [idx:memories] covers the
    hashes whose key starts with [PREFIX]. *)
Definition keyspace : Type := list (str * hash).

Definition lookup (key : str) (ks : keyspace) : option hash :=
  match find (fun kh => str_eqb (fst kh) key) ks with
  | Some kh => Some (snd kh)
  | None => None
  end.

Definition remove_key (key : str) (ks : keyspace) : keyspace :=
  filter (fun kh => negb (str_eqb (fst kh) key)) ks.

Fixpoint replace_key (key : str) (h : hash) (ks : keyspace) : keyspace :=
  match ks with
  | [] => []
  | (k, h0) :: ks' =>
      if str_eqb k key then (k, h) :: ks' else (k, h0) :: replace_key key h ks'
  end.

(** HSET: the number of fields it added. *)
Definition mem_hset (key : str) (h : hash) : M keyspace Z :=
  fun ks =>
    match lookup key ks with
    | Some _ => (Ok 0%Z, replace_key key h ks)
    | None => (Ok 3%Z, ks ++ [(key, h)])
    end.

(** HGET. *)
Definition field_of (field : str) (h : hash) : option str :=
  if str_eqb field (str_of "content") then Some (h_content h)
  else if str_eqb field (str_of "user_id") then Some (h_user_id h)
  else if str_eqb field (str_of "timestamp") then Some (h_timestamp h)
  else None.

Definition mem_hget (key field : str) : M keyspace (option str) :=
  fun ks =>
    match lookup key ks with
    | Some h => (Ok (field_of field h), ks)
    | None => (Ok None, ks)
    end.

(** DEL: the number of keys it removed. *)
Definition mem_delete (key : str) : M keyspace Z :=
  fun ks =>
    match lookup key ks with
    | Some _ => (Ok 1%Z, remove_key key ks)
    | None => (Ok 0%Z, ks)
    end.

(** SCAN with MATCH, for the patterns that are a literal or a literal
    followed by one star. *)
Definition star : char := 42%N.

Definition glob_match (pattern key : str) : bool :=
  match rev pattern with
  | c :: rp => if char_eqb c star then startswith (rev rp) key
               else str_eqb pattern key
  | [] => str_eqb pattern key
  end.

Definition mem_scan_iter (pattern : str) : M keyspace (list str) :=
  fun ks => (Ok (filter (glob_match pattern) (map fst ks)), ks).

(** The characters a tag may hold unescaped in a query. *)
Definition tag_plain (c : char) : bool :=
  ((48 <=? c) && (c <=? 57) || (65 <=? c) && (c <=? 90)
   || (97 <=? c) && (c <=? 122) || (c =? 95))%N.

(** The tag of a clause body up to its closing brace, and what follows
    the brace. *)
Fixpoint parse_tag (s : str) : option (str * str) :=
  match s with
  | [] => None
  | c :: s' =>
      if char_eqb c 125%N then Some ([], s')
      else if char_eqb c backslash then
        match s' with
        | [] => None
        | d :: s'' =>
            match parse_tag s'' with
            | Some (tag, rest) => Some (d :: tag, rest)
            | None => None
            end
        end
      else if tag_plain c then
        match parse_tag s' with
        | Some (tag, rest) => Some (c :: tag, rest)
        | None => None
        end
      else None
  end.

Fixpoint strip_prefix (p s : str) : option str :=
  match p, s with
  | [], _ => Some s
  | x :: p', y :: s' => if char_eqb x y then strip_prefix p' s' else None
  | _ :: _, [] => None
  end.

(** A query that is one clause on the owner tag, the tag not empty, and
    nothing else. *)
Definition parse_owner_query (q : str) : option str :=
  match strip_prefix (str_of "@user_id:{") q with
  | Some body =>
      match parse_tag body with
      | Some (c :: tag, []) => Some (c :: tag)
      | _ => None
      end
  | None => None
  end.

Definition indexed (ks : keyspace) : keyspace :=
  filter (fun kh => startswith PREFIX (fst kh)) ks.

(** The indexed hashes whose [user_id] field is [owner] as it is written:
    the comparison of [clear_memories], not that of the index. *)
Definition owned_by (owner : str) (ks : keyspace) : keyspace :=
  filter (fun kh => str_eqb (h_user_id (snd kh)) owner) (indexed ks).

Definition to_document (kh : str * hash) : Document :=
  {| doc_id := fst kh; doc_content := h_content (snd kh) |}.

Section Engine.

(** How the engine answers every other query (full-text clauses, their
    ranking, and what it rejects). *)
Variable fulltext : Query -> keyspace -> res (list Document).

(** The TAG field [user_id] of the index: does a hash whose field holds
    [value] carry the tag [tag] of a query?  [_ensure_index] declares
    [TagField("user_id")] with its defaults, so the engine does not
    compare the two as they are written (it folds letter case, for one);
    how it compares them is the engine's. *)
Variable tag_match : str -> str -> bool.

(** The order in which the engine returns hits: the queries of the store
    ask for none. *)
Variable hit_order : keyspace -> keyspace.

(** The indexed hashes that carry [tag]. *)
Definition tagged (tag : str) (ks : keyspace) : keyspace :=
  filter (fun kh => tag_match tag (h_user_id (snd kh))) (indexed ks).

(** FT.SEARCH.  On a query that is the owner clause alone the hashes
    that carry the tag of the clause come in the order of the engine, cut
    by LIMIT. *)
Definition mem_ft_search (index : str) (q : Query)
    : M keyspace (list Document) :=
  fun ks =>
    if negb (str_eqb index INDEX_NAME) then (Raise ResponseError, ks)
    else
      match parse_owner_query (query_string q) with
      | Some tag =>
          if ((paging_offset q <? 0) || (paging_num q <? 0))%Z
          then (Raise ResponseError, ks)
          else
            (Ok (map to_document
                   (firstn (Z.to_nat (paging_num q))
                      (skipn (Z.to_nat (paging_offset q))
                         (hit_order (tagged tag ks))))), ks)
      | None => (fulltext q ks, ks)
      end.

Definition server : Server keyspace :=
  {| ft_search := mem_ft_search;
     hset := mem_hset;
     scan_iter := mem_scan_iter;
     hget := mem_hget;
     delete := mem_delete |}.

End Engine.

(** An engine that answers no other query. *)
Definition no_fulltext (q : Query) (ks : keyspace) : res (list Document) :=
  Raise ResponseError.

(** A TAG field without [case_sensitive], for field values that hold one
    tag: the tag of the query and the field value are compared with
    their ASCII letters folded to lower case. *)
Definition fold_case (s : str) : str :=
  map (fun c => if ((65 <=? c) && (c <=? 90))%N then (c + 32)%N else c) s.

Definition folded_match (tag value : str) : bool :=
  str_eqb (fold_case tag) (fold_case value).

(** Hits in the order of their documents in the index: oldest first. *)
Definition oldest_first (hits : keyspace) : keyspace := hits.

(** The facts of [owner]: the indexed hashes whose [user_id] is [owner]. *)
Definition facts_of (owner : str) (ks : keyspace) : keyspace :=
  owned_by owner ks.

(** A keyspace holds a key once. *)
Definition well_formed (ks : keyspace) : Prop := NoDup (map fst ks).

(** An owner id that [new_store] escapes in full: not empty, of letters,
    digits, underscores and hyphens (the ids of [main] are
    [str(uuid.uuid4())]). *)
Definition plain_chars (uid : str) : Prop :=
  Forall (fun c => tag_plain c = true \/ c = hyphen) uid.

Definition plain_owner (uid : str) : Prop := uid <> [] /\ plain_chars uid.

(** What the properties below ask of the engine: the index finds a hash
    under the owner id it was written with, and the hits of a query come
    each once, in whatever order. *)
Definition finds_own_id (tag_match : str -> str -> bool) : Prop :=
  forall uid, plain_owner uid -> tag_match uid uid = true.

Definition reorders (hit_order : keyspace -> keyspace) : Prop :=
  forall hits, Permutation (hit_order hits) hits.

End MemRedis.

(* ===================================================================== *)
(** * A fragment of the Unicode tables *)
(* ===================================================================== *)

(** The tables restricted to ASCII and to the accented letters of Spanish
    in their precomposed form, with the three combining marks their
    decompositions use.  On texts over these characters the functions
    give what CPython gives. *)
Module Latin.

Definition acute : char := 769%N.
Definition tilde : char := 771%N.
Definition diaeresis : char := 776%N.

(** The canonical decomposition of a precomposed letter. *)
Definition decompose (c : char) : str :=
  match c with
  | 193 => [65; acute] | 201 => [69; acute] | 205 => [73; acute]
  | 211 => [79; acute] | 218 => [85; acute]
  | 209 => [78; tilde] | 220 => [85; diaeresis]
  | 225 => [97; acute] | 233 => [101; acute] | 237 => [105; acute]
  | 243 => [111; acute] | 250 => [117; acute]
  | 241 => [110; tilde] | 252 => [117; diaeresis]
  | _ => [c]
  end%N.

Definition is_upper_ascii (c : char) : bool := ((65 <=? c) && (c <=? 90))%N.
Definition is_lower_ascii (c : char) : bool := ((97 <=? c) && (c <=? 122))%N.
Definition is_digit_ascii (c : char) : bool := ((48 <=? c) && (c <=? 57))%N.

Definition is_accented_upper (c : char) : bool :=
  existsb (N.eqb c) [193; 201; 205; 209; 211; 218; 220]%N.
Definition is_accented_lower (c : char) : bool :=
  existsb (N.eqb c) [225; 233; 237; 241; 243; 250; 252]%N.

Definition latin_combining (c : char) : N :=
  if existsb (N.eqb c) [acute; tilde; diaeresis] then 230%N else 0%N.

Definition latin_isalnum (c : char) : bool :=
  is_upper_ascii c || is_lower_ascii c || is_digit_ascii c
  || is_accented_upper c || is_accented_lower c.

Definition latin_isspace (c : char) : bool :=
  ((9 <=? c) && (c <=? 13) || (28 <=? c) && (c <=? 32))%N.

Definition lower_char (c : char) : char :=
  if is_upper_ascii c || is_accented_upper c then (c + 32)%N else c.

Definition ucd : UnicodeData :=
  {| normalize_NFKD := flat_map decompose;
     combining := latin_combining;
     isalnum := latin_isalnum;
     isspace := latin_isspace;
     lower := map lower_char |}.

End Latin.

(* ===================================================================== *)
(** * Hybrid search: Reciprocal Rank Fusion in SQL, and the retriever *)
(* ===================================================================== *)

Module Hybrid.

Local Open Scope Q_scope.

(** A row of a ranking: [(id, rank)]. *)
Definition ranked : Type := (Z * Z)%type.

(** A row of [semantic_search FULL OUTER JOIN keyword_search ON ids equal]. *)
Inductive joined_row : Type :=
| Both (s kw : ranked)
| SemanticOnly (s : ranked)
| KeywordOnly (kw : ranked).

Definition same_id (x y : ranked) : bool := (fst x =? fst y)%Z.

(** The rows of the join: every semantic row with each keyword row of its
    id, or alone when there is none; then the keyword rows that no
    semantic row matches. *)
Definition full_outer_join (sem kw : list ranked) : list joined_row :=
  flat_map (fun s =>
              match filter (same_id s) kw with
              | [] => [SemanticOnly s]
              | hits => map (Both s) hits
              end) sem
  ++ flat_map (fun w =>
                 if existsb (fun s => same_id s w) sem then []
                 else [KeywordOnly w]) kw.

(** [1.0 / (k + rank)]; PostgreSQL raises [division_by_zero] when the
    divisor is zero.  Its [numeric] quotient is taken as the exact one. *)
Definition reciprocal (k rank : Z) : option Q :=
  if (k + rank =? 0)%Z then None else Some (1 / inject_Z (k + rank)).

(** [COALESCE(1.0 / (k + side.rank), 0.0)] *)
Definition coalesce_term (k : Z) (side : option ranked) : option Q :=
  match side with
  | Some (_, rank) => reciprocal k rank
  | None => Some 0
  end.

Definition semantic_side (r : joined_row) : option ranked :=
  match r with Both s _ | SemanticOnly s => Some s | KeywordOnly _ => None end.

Definition keyword_side (r : joined_row) : option ranked :=
  match r with Both _ w | KeywordOnly w => Some w | SemanticOnly _ => None end.

(** [COALESCE(semantic_search.id, keyword_search.id)] *)
Definition coalesce_id (r : joined_row) : Z :=
  match r with Both s _ | SemanticOnly s => fst s | KeywordOnly w => fst w end.

(** The select list on one row: [(id, score)]. *)
Definition select_row (k : Z) (r : joined_row) : option (Z * Q) :=
  match coalesce_term k (semantic_side r), coalesce_term k (keyword_side r) with
  | Some x, Some y => Some (coalesce_id r, x + y)
  | _, _ => None
  end.

Fixpoint select_rows (k : Z) (rs : list joined_row) : option (list (Z * Q)) :=
  match rs with
  | [] => Some []
  | r :: rs' =>
      match select_row k r, select_rows k rs' with
      | Some row, Some rows => Some (row :: rows)
      | _, _ => None
      end
  end.

(** The rows of the outer SELECT before ORDER BY and LIMIT; [None] when
    the query fails. *)
Definition fused_rows (k : Z) (sem kw : list ranked) : option (list (Z * Q)) :=
  select_rows k (full_outer_join sem kw).

(** [ORDER BY score DESC]: any arrangement of the rows with the scores
    descending.  SQL leaves the order of rows of equal score open. *)
Definition score_desc (x y : Z * Q) : Prop := snd y <= snd x.

Definition ordered_by_score_desc (rows out : list (Z * Q)) : Prop :=
  Permutation rows out /\ Sorted score_desc out.

(** The answers the outer SELECT of [HYBRID_SEARCH_SQL] may give on the
    two rankings: [ORDER BY score DESC LIMIT limit].  A negative limit is
    refused. *)
Definition outer_select (k limit : Z) (sem kw : list ranked)
    (out : list (Z * Q)) : Prop :=
  (0 <= limit)%Z /\
  exists rows sorted,
    fused_rows k sem kw = Some rows /\
    ordered_by_score_desc rows sorted /\
    out = firstn (Z.to_nat limit) sorted.

(** One way to run it: a stable insertion sort, which leaves rows of
    equal score in the order of the join. *)
Section InsertionSort.
Context {A : Type}.
Variable leb : A -> A -> bool.

Fixpoint insert_sorted (x : A) (l : list A) : list A :=
  match l with
  | [] => [x]
  | y :: l' => if leb x y then x :: l else y :: insert_sorted x l'
  end.

Definition insertion_sort (l : list A) : list A :=
  fold_right insert_sorted [] l.

End InsertionSort.

Definition score_geb (x y : Z * Q) : bool := Qle_bool (snd y) (snd x).

Definition run_outer_select (k limit : Z) (sem kw : list ranked)
    : option (list (Z * Q)) :=
  if (limit <? 0)%Z then None
  else match fused_rows k sem kw with
       | Some rows =>
           Some (firstn (Z.to_nat limit) (insertion_sort score_geb rows))
       | None => None
       end.

(** The scoring rule as the specification words it. *)
Definition rank_in (l : list ranked) (id : Z) : option Z :=
  match find (fun r => (fst r =? id)%Z) l with
  | Some r => Some (snd r)
  | None => None
  end.

Definition rrf_term (k : Z) (rank : option Z) : Q :=
  match rank with
  | Some r => 1 / inject_Z (k + r)
  | None => 0
  end.

Definition rrf_score (k : Z) (list_a list_b : list ranked) (id : Z) : Q :=
  rrf_term k (rank_in list_a id) + rrf_term k (rank_in list_b id).

(** A ranking as a CTE gives it: an id once, ranks from 1. *)
Definition ranking (l : list ranked) : Prop :=
  NoDup (map fst l) /\ Forall (fun r => (1 <= snd r)%Z) l.

(** The ids of the join, in the order they are first met in [list_a],
    then [list_b]. *)
Definition in_ranking (l : list ranked) (id : Z) : bool :=
  existsb (fun r => (fst r =? id)%Z) l.

Definition first_encounter (list_a list_b : list ranked) : list Z :=
  map fst list_a
  ++ filter (fun id => negb (in_ranking list_a id)) (map fst list_b).

Fixpoint index_of (id : Z) (l : list Z) : nat :=
  match l with
  | [] => 0
  | x :: l' => if (x =? id)%Z then 0%nat else S (index_of id l')
  end.

(** Ties broken stably: of two rows of equal score the one whose id was
    met first comes first. *)
Definition stable_ties (list_a list_b : list ranked) (out : list (Z * Q))
    : Prop :=
  forall i j x y,
    (i < j)%nat -> nth_error out i = Some x -> nth_error out j = Some y ->
    snd x == snd y ->
    (index_of (fst x) (first_encounter list_a list_b)
     < index_of (fst y) (first_encounter list_a list_b))%nat.

(** The distinct ids of the two rankings together. *)
Definition distinct_union (list_a list_b : list ranked) (ids : list Z)
    : Prop :=
  NoDup ids /\
  forall id, In id ids <-> In id (map fst list_a) \/ In id (map fst list_b).

(** ** The catalog and the retriever *)

Record Product : Type := {
  p_id : Z;
  p_name : str;
  p_category : str;
  p_price : Q;
  p_description : str
}.

Record Document : Type := {
  page_content : str;
  metadata : str * str * Q
}.

(** [RANK() OVER (ORDER BY key)]: one more than the number of rows that
    come strictly before. *)
Definition rank_over (key : Product -> Q) (rows : list Product)
    (r : Product) : Z :=
  1 + Z.of_nat (length (filter (fun r' => negb (Qle_bool (key r) (key r'))) rows)).

(** [SELECT id, RANK() OVER (ORDER BY key) FROM rows ORDER BY key LIMIT 20]. *)
Definition top20_by (key : Product -> Q) (rows : list Product)
    (out : list ranked) : Prop :=
  exists sorted,
    Permutation rows sorted /\
    Sorted (fun x y => key x <= key y) sorted /\
    out = map (fun r => (p_id r, rank_over key rows r)) (firstn 20 sorted).

Section Retriever.

(** The table [products]. *)
Variable products : list Product.
(** [embedding <=> query_embedding], the cosine distance of a row. *)
Variable distance : Product -> Q.
(** [to_tsvector(...) @@ query] and [ts_rank_cd(to_tsvector(...), query)]. *)
Variable ts_match : Product -> bool.
Variable ts_rank_cd : Product -> Q.
(** [f"{price:.2f}"]. *)
Variable format_2f : Q -> str.

Definition semantic_search (out : list ranked) : Prop :=
  top20_by distance products out.

(** [ORDER BY ts_rank_cd DESC] is ascending in the opposite. *)
Definition keyword_search (out : list ranked) : Prop :=
  top20_by (fun r => - ts_rank_cd r) (filter ts_match products) out.

(** [SELECT name, category, price, description FROM products WHERE id = %s],
    [fetchone()]. *)
Definition fetchone (product_id : Z) : option Product :=
  find (fun r => (p_id r =? product_id)%Z) products.

Definition format_row (row : Product) : Document :=
  {| page_content :=
       str_of "- **" ++ p_name row ++ str_of "** (" ++ p_category row
       ++ str_of ", $" ++ format_2f (p_price row) ++ str_of "): "
       ++ p_description row;
     metadata := (p_name row, p_category row, p_price row) |}.

(** One turn of [for product_id in result_ids]. *)
Definition documents_step (documents : list Document) (product_id : Z)
    : list Document :=
  match fetchone product_id with
  | Some row => documents ++ [format_row row]
  | None => documents
  end.

Definition build_documents (result_ids : list Z) : list Document :=
  match result_ids with
  | [] => []
  | _ :: _ => fold_left documents_step result_ids []
  end.

(** [HYBRID_SEARCH_SQL] with the parameters [k] and [limit]: the rows it
    may return, [sem] and [kw] being what its two CTEs evaluate to. *)
Definition HYBRID_SEARCH_SQL (k limit : Z) (sem kw : list ranked)
    (rows : list (Z * Q)) : Prop :=
  semantic_search sem /\ keyword_search kw /\ outer_select k limit sem kw rows.

(** [PostgresHybridRetriever._get_relevant_documents] with
    [self.max_results = max_results]: the documents it may return. *)
Definition _get_relevant_documents (max_results : Z)
    (sem kw : list ranked) (documents : list Document) : Prop :=
  exists rows,
    HYBRID_SEARCH_SQL 60 max_results sem kw rows /\
    documents = build_documents (map fst rows).

End Retriever.

End Hybrid.

(* ===================================================================== *)
(** * Facts about text *)
(* ===================================================================== *)

Module TextFacts.

Lemma char_eqb_eq (a b : char) : char_eqb a b = true <-> a = b.
Proof. apply N.eqb_eq. Qed.

Lemma char_eqb_refl (a : char) : char_eqb a a = true.
Proof. apply N.eqb_refl. Qed.

Lemma str_eqb_eq (a b : str) : str_eqb a b = true <-> a = b.
Proof.
  revert b; induction a as [|x a IH]; intros [|y b]; simpl;
    try (split; [discriminate | discriminate]); try tauto.
  rewrite andb_true_iff, char_eqb_eq, IH.
  split; [intros [-> ->]; reflexivity | intros E; inversion E; auto].
Qed.

Lemma str_eqb_refl (a : str) : str_eqb a a = true.
Proof. apply str_eqb_eq; reflexivity. Qed.

Lemma str_eqb_neq (a b : str) : str_eqb a b = false <-> a <> b.
Proof.
  rewrite <- str_eqb_eq. destruct (str_eqb a b); split; congruence.
Qed.

Lemma char_in_In (c : char) (s : str) : char_in c s = true <-> In c s.
Proof.
  unfold char_in. rewrite existsb_exists. split.
  - intros (x & Hx & E). apply char_eqb_eq in E. subst. exact Hx.
  - intros H. exists c. split; [exact H | apply char_eqb_refl].
Qed.

Lemma str_in_In (w : str) (S : list str) : str_in w S = true <-> In w S.
Proof.
  unfold str_in. rewrite existsb_exists. split.
  - intros (x & Hx & E). apply str_eqb_eq in E. subst. exact Hx.
  - intros H. exists w. split; [exact H | apply str_eqb_refl].
Qed.

Lemma startswith_app (p s : str) : startswith p (p ++ s) = true.
Proof.
  induction p as [|x p IH]; simpl; [reflexivity|].
  rewrite char_eqb_refl. exact IH.
Qed.

Lemma slice_upto_nonneg {A : Type} (n : Z) (l : list A) :
  (0 <= n)%Z -> slice_upto n l = firstn (Z.to_nat n) l.
Proof.
  intros H. unfold slice_upto.
  destruct (0 <=? n)%Z eqn:E; [reflexivity|].
  apply Z.leb_gt in E. lia.
Qed.

Lemma slice_upto_length {A : Type} (n : Z) (l : list A) :
  (0 <= n)%Z -> (length (slice_upto n l) <= Z.to_nat n)%nat.
Proof.
  intros H. rewrite slice_upto_nonneg by exact H. apply firstn_le_length.
Qed.

Lemma join_singleton (sep p : str) : join sep [p] = p.
Proof. reflexivity. Qed.

End TextFacts.

Import TextFacts.

(* ===================================================================== *)
(** * The normalizer *)
(* ===================================================================== *)

Section KeywordFacts.
Context {U : UnicodeData}.

Lemma split_from_units (w s : str) :
  Forall (fun c => isspace c = false) w ->
  Forall (fun u => u <> [] /\ Forall (fun c => isspace c = false) u)
         (split_from w s).
Proof.
  revert w. induction s as [|c s IH]; intros w Hw; simpl.
  - destruct w as [|x w]; constructor; [|constructor].
    split.
    + intros E. apply (f_equal (@length _)) in E.
      rewrite length_rev in E. discriminate.
    + apply Forall_rev. exact Hw.
  - destruct (isspace c) eqn:Hc.
    + destruct w as [|x w].
      * apply IH. constructor.
      * constructor; [|apply IH; constructor].
        split.
        -- intros E. apply (f_equal (@length _)) in E.
           rewrite length_rev in E. discriminate.
        -- apply Forall_rev. exact Hw.
    + apply IH. constructor; assumption.
Qed.

Lemma split_from_concat (w s : str) :
  Forall (fun c => isspace c = false) w ->
  concat (split_from w s)
  = rev w ++ filter (fun c => negb (isspace c)) s.
Proof.
  revert w. induction s as [|c s IH]; intros w Hw; simpl.
  - destruct w; simpl; rewrite ?app_nil_r; reflexivity.
  - destruct (isspace c) eqn:Hc; simpl.
    + destruct w as [|x w].
      * rewrite IH by constructor. reflexivity.
      * simpl concat. rewrite IH by constructor. reflexivity.
    + rewrite IH by (constructor; assumption).
      simpl. rewrite <- app_assoc. reflexivity.
Qed.

(** [split] gives the non-empty, whitespace-free units of the text, and
    together they are the text without its whitespace. *)
Lemma split_units (s : str) :
  Forall (fun u => u <> [] /\ Forall (fun c => isspace c = false) u) (split s)
  /\ concat (split s) = filter (fun c => negb (isspace c)) s.
Proof.
  split.
  - apply split_from_units. constructor.
  - unfold split. rewrite split_from_concat by constructor. reflexivity.
Qed.

Lemma is_keyword_kept (clean : str) : is_keyword clean = kept_by_spec clean.
Proof.
  unfold is_keyword, kept_by_spec.
  destruct clean as [|c clean]; [reflexivity|].
  cbn [str_eqb negb andb]. apply andb_comm.
Qed.

Lemma keywords_loop (units acc : list str) :
  fold_left keywords_step units acc
  = acc ++ filter kept_by_spec (map alnum_only units).
Proof.
  revert acc. induction units as [|w units IH]; intros acc; simpl.
  - rewrite app_nil_r. reflexivity.
  - rewrite IH. unfold keywords_step.
    rewrite is_keyword_kept.
    destruct (kept_by_spec (alnum_only w)); [|reflexivity].
    rewrite <- app_assoc. reflexivity.
Qed.

Lemma split_blanks (blanks s : str) :
  Forall (fun c => isspace c = true) blanks ->
  split_from [] (blanks ++ s) = split_from [] s.
Proof.
  induction 1 as [|c blanks Hc _ IH]; [reflexivity|].
  cbn [app split_from]. rewrite Hc. exact IH.
Qed.

(** Reading a run of characters that are no blanks, up to the end of the
    text or to a blank. *)
Lemma split_from_run (unit_ rest : str) :
  Forall (fun c => isspace c = false) unit_ ->
  match rest with [] => True | c :: _ => isspace c = true end ->
  forall w,
    rev w ++ unit_ <> [] ->
    split_from w (unit_ ++ rest) = (rev w ++ unit_) :: split_from [] rest.
Proof.
  induction 1 as [|c unit_ Hc _ IH]; intros Hrest w Hne.
  - rewrite app_nil_r in *. cbn [app].
    destruct rest as [|c rest]; cbn [split_from].
    + destruct w as [|x w]; [contradiction | reflexivity].
    + rewrite Hrest. destruct w as [|x w]; [contradiction | reflexivity].
  - cbn [app split_from]. rewrite Hc.
    rewrite (IH Hrest (c :: w)).
    + cbn [rev]. rewrite <- app_assoc. reflexivity.
    + cbn [rev]. rewrite <- app_assoc. cbn [app].
      intros E. apply app_eq_nil in E. destruct E as [_ E]. discriminate.
Qed.

(** [split] gives the whitespace-delimited units, and nothing else does. *)
Lemma units_are_split (s : str) (units : list str) :
  whitespace_units s units -> split s = units.
Proof.
  unfold split. induction 1 as [blanks Hb | blanks unit_ rest units Hb Hne Hu Hrest _ IH].
  - rewrite <- (app_nil_r blanks). rewrite (split_blanks blanks [] Hb).
    reflexivity.
  - rewrite (split_blanks blanks _ Hb).
    rewrite (split_from_run unit_ rest Hu Hrest []) by exact Hne.
    cbn [rev app]. rewrite IH. reflexivity.
Qed.

Lemma units_exist (s : str) : exists units, whitespace_units s units.
Proof.
  induction s as [|c s [units IH]].
  - exists []. apply units_none. constructor.
  - destruct (isspace c) eqn:Hc.
    + inversion IH as [blanks Hb | blanks unit_ rest units' Hb Hne Hu Hrest Hr];
        subst.
      * exists []. apply units_none. constructor; assumption.
      * exists (unit_ :: units').
        apply (units_next (c :: blanks) unit_ rest units'); try assumption.
        constructor; assumption.
    + assert (Hone : Forall (fun x => isspace x = false) [c])
        by (constructor; [exact Hc | constructor]).
      inversion IH as [blanks Hb | blanks unit_ rest units' Hb Hne Hu Hrest Hr];
        subst.
      * exists [[c]].
        apply (units_next [] [c] s []);
          [constructor | discriminate | exact Hone | | exact IH].
        destruct s as [|b s]; [exact I|]. inversion Hb; assumption.
      * destruct blanks as [|b blanks].
        -- exists ((c :: unit_) :: units').
           apply (units_next [] (c :: unit_) rest units');
             [constructor | discriminate | | exact Hrest | exact Hr].
           constructor; assumption.
        -- exists ([c] :: unit_ :: units').
           apply (units_next [] [c] ((b :: blanks) ++ unit_ ++ rest)
                    (unit_ :: units'));
             [constructor | discriminate | exact Hone | | exact IH].
           cbn [app]. inversion Hb; assumption.
Qed.

(** C6. The keyword extraction is the normalizer of the specification.
    The diacritic-stripped text has whitespace-delimited units, one
    sequence of them, and the keywords are these units, each with its
    non-alphanumeric characters removed, a unit being kept if and only if
    it is non-empty, longer than one character and its lowercased form
    is no stop word, in the order of the text and with repetitions. *)
Theorem extract_keywords_refines_spec (text : str) :
  (exists units, whitespace_units (diacritic_stripped text) units)
  /\ (forall units units',
         whitespace_units (diacritic_stripped text) units ->
         whitespace_units (diacritic_stripped text) units' ->
         units = units')
  /\ (forall units,
         whitespace_units (diacritic_stripped text) units ->
         _extract_keywords text = normalize_spec units).
Proof.
  split; [apply units_exist|]. split.
  { intros units units' H H'. apply units_are_split in H, H'. congruence. }
  intros units Hunits. apply units_are_split in Hunits.
  unfold _extract_keywords. rewrite keywords_loop. cbn [app].
  change (drop_combining (normalize_NFKD text)) with (diacritic_stripped text).
  rewrite Hunits. reflexivity.
Qed.

Lemma kept_by_spec_true (u : str) :
  kept_by_spec u = true <->
  u <> [] /\ (1 < length u)%nat /\ ~ In (lower u) _STOP_WORDS.
Proof.
  unfold kept_by_spec.
  rewrite !andb_true_iff, !negb_true_iff, Nat.ltb_lt, str_eqb_neq.
  rewrite <- str_in_In.
  destruct (str_in (lower u) _STOP_WORDS); intuition congruence.
Qed.

(** C5 (as the code has it). A keyword is a unit of the diacritic-stripped
    text reduced to its alphanumeric characters, in the case the text has
    it: the lowercased form is only what the stop-word test looks at. The
    keyword is longer than one character, holds alphanumeric characters
    that are no combining marks, and its lowercased form is no stop
    word. *)
Theorem keyword_keeps_case (text tok : str) :
  In tok (_extract_keywords text) ->
  (exists word,
      In word (split (drop_combining (normalize_NFKD text)))
      /\ tok = alnum_only word)
  /\ (1 < length tok)%nat
  /\ ~ In (lower tok) _STOP_WORDS
  /\ Forall (fun c => isalnum c = true /\ combining c = 0%N) tok.
Proof.
  unfold _extract_keywords. rewrite keywords_loop. cbn [app].
  intros H. apply filter_In in H. destruct H as [Hin Hk].
  apply kept_by_spec_true in Hk. destruct Hk as (_ & Hlen & Hstop).
  apply in_map_iff in Hin. destruct Hin as (word & <- & Hw).
  repeat split; try assumption.
  - exists word. split; [exact Hw | reflexivity].
  - apply Forall_forall. intros c Hc.
    unfold alnum_only in Hc. apply filter_In in Hc. destruct Hc as [Hc Ha].
    split; [exact Ha|].
    assert (Hd : In c (drop_combining (normalize_NFKD text))).
    { destruct (split_units (drop_combining (normalize_NFKD text)))
        as [_ Hcat].
      assert (Hin : In c (concat (split (drop_combining (normalize_NFKD text))))).
      { apply in_concat. exists word. split; assumption. }
      rewrite Hcat in Hin. apply filter_In in Hin. apply Hin. }
    unfold drop_combining in Hd. apply filter_In in Hd.
    destruct Hd as [_ Hz]. apply N.eqb_eq in Hz. exact Hz.
Qed.

End KeywordFacts.

(** The text [Tokio] gives the keyword [Tokio], capital included. *)
Lemma keyword_not_lowercased :
  @_extract_keywords Latin.ucd (str_of "Tokio") = [str_of "Tokio"]
  /\ @lower Latin.ucd (str_of "Tokio") = str_of "tokio"
  /\ @lower Latin.ucd (str_of "Tokio") <> str_of "Tokio".
Proof.
  split; [reflexivity|]. split; [reflexivity|]. discriminate.
Qed.

Lemma keyword_keeps_case_witness :
  In (str_of "Tokio") (@_extract_keywords Latin.ucd (str_of "mi ciudad es Tokio"))
  /\ (1 < length (str_of "Tokio"))%nat.
Proof.
  assert (H : In (str_of "Tokio")
                 (@_extract_keywords Latin.ucd (str_of "mi ciudad es Tokio"))).
  { vm_compute. right. left. reflexivity. }
  split; [exact H|].
  exact (proj1 (proj2 (@keyword_keeps_case Latin.ucd _ _ H))).
Defined.

(** The units of [mi Cafe !], the diacritic-stripped form of the text
    with an accented e: the stop word and the mark go, [Cafe] stays. *)
Lemma extract_keywords_refines_spec_witness :
  let text := str_of "mi Caf" ++ [233%N] ++ str_of " !" in
  let units := [str_of "mi"; str_of "Cafe"; str_of "!"] in
  @whitespace_units Latin.ucd (@diacritic_stripped Latin.ucd text) units
  /\ @_extract_keywords Latin.ucd text = [str_of "Cafe"]
  /\ @normalize_spec Latin.ucd units = [str_of "Cafe"].
Proof.
  intros text units.
  assert (Hunits : @whitespace_units Latin.ucd
                     (@diacritic_stripped Latin.ucd text) units).
  { change (@diacritic_stripped Latin.ucd text)
      with ([] ++ str_of "mi" ++ str_of " Cafe !").
    apply units_next;
      [constructor | discriminate | repeat constructor | reflexivity|].
    change (str_of " Cafe !") with (str_of " " ++ str_of "Cafe" ++ str_of " !").
    apply units_next;
      [repeat constructor | discriminate | repeat constructor | reflexivity|].
    change (str_of " !") with (str_of " " ++ str_of "!" ++ []).
    apply units_next;
      [repeat constructor | discriminate | repeat constructor | exact I|].
    apply units_none. constructor. }
  split; [exact Hunits|].
  pose proof (proj2 (proj2 (@extract_keywords_refines_spec Latin.ucd text))
                units Hunits) as H.
  split; [reflexivity|]. rewrite <- H. reflexivity.
Defined.

(** Accents are dropped, repetitions and order are kept. *)
Example extract_keywords_accents :
  @_extract_keywords Latin.ucd
    (str_of "El Caf" ++ [233%N] ++ str_of " de  Par" ++ [237%N]
     ++ str_of "s, y el cafe!")
  = [str_of "Cafe"; str_of "Paris"; str_of "cafe"].
Proof. reflexivity. Qed.

(* ===================================================================== *)
(** * Query escaping *)
(* ===================================================================== *)

(** What [_escape_query] does to one character. *)
Definition escape_char (c : char) : str :=
  if char_in c special_chars then [backslash; c] else [c].

Lemma escape_loop (text : str) (escaped : list str) :
  fold_left escape_step text escaped = escaped ++ map escape_char text.
Proof.
  revert escaped. induction text as [|c text IH]; intros escaped; simpl.
  - rewrite app_nil_r. reflexivity.
  - rewrite IH. unfold escape_step, escape_char.
    destruct (char_in c special_chars); rewrite <- app_assoc; reflexivity.
Qed.

Lemma escape_query_flat_map (text : str) :
  _escape_query text = flat_map escape_char text.
Proof.
  unfold _escape_query. rewrite escape_loop. simpl.
  rewrite flat_map_concat_map. reflexivity.
Qed.

Lemma backslash_is_special : char_in backslash special_chars = true.
Proof. reflexivity. Qed.

Lemma escape_query_escaped (text : str) : escaped_text (_escape_query text).
Proof.
  rewrite escape_query_flat_map.
  induction text as [|c text IH]; simpl; [constructor|].
  unfold escape_char at 1. destruct (char_in c special_chars) eqn:Hc; simpl.
  - apply escaped_pair. exact IH.
  - apply escaped_plain; assumption.
Qed.

Lemma unescape_escape_query (text : str) : unescape (_escape_query text) = text.
Proof.
  rewrite escape_query_flat_map. unfold unescape.
  induction text as [|c text IH]; simpl; [reflexivity|].
  unfold escape_char at 1. destruct (char_in c special_chars) eqn:Hc; simpl.
  - rewrite IH. reflexivity.
  - destruct (char_eqb c backslash) eqn:Hb.
    + apply char_eqb_eq in Hb. subst c.
      rewrite backslash_is_special in Hc. discriminate.
    + rewrite IH. reflexivity.
Qed.

Lemma escape_query_plain (text : str) :
  Forall (fun c => char_in c special_chars = false) text ->
  _escape_query text = text.
Proof.
  rewrite escape_query_flat_map.
  induction 1 as [|c text Hc _ IH]; simpl; [reflexivity|].
  unfold escape_char at 1. rewrite Hc. simpl. rewrite IH. reflexivity.
Qed.

Section EscapedKeywords.
Context {U : UnicodeData}.




End EscapedKeywords.

(** Keywords hold alphanumeric characters only: where none of these is in
    [special_chars], escaping leaves every keyword as it is. *)
Lemma escape_keywords_identity {U : UnicodeData} (text : str) :
  (forall c, isalnum c = true -> char_in c special_chars = false) ->
  map _escape_query (_extract_keywords text) = _extract_keywords text.
Proof.
  intros Hal. unfold _extract_keywords. rewrite keywords_loop. cbn [app].
  rewrite <- (map_id (filter _ _)) at 2.
  apply map_ext_in. intros tok Htok. apply filter_In in Htok.
  destruct Htok as [Htok _]. apply in_map_iff in Htok.
  destruct Htok as (word & <- & _).
  apply escape_query_plain. apply Forall_forall. intros c Hc.
  unfold alnum_only in Hc. apply filter_In in Hc. apply Hal. apply Hc.
Qed.

Lemma latin_alnum_not_special (c : char) :
  Latin.latin_isalnum c = true -> char_in c special_chars = false.
Proof.
  intros Ha. destruct (char_in c special_chars) eqn:E; [|reflexivity].
  apply char_in_In in E. cbn in E.
  repeat (destruct E as [<-|E]; [vm_compute in Ha; discriminate|]).
  destruct E.
Qed.

Example escape_query_example :
  _escape_query (str_of "a-b.c") = str_of "a\-b\.c".
Proof. reflexivity. Qed.





(* ===================================================================== *)
(** * The store against any server *)
(* ===================================================================== *)

Section StoreFacts.
Context {U : UnicodeData} {St : Type} {R : Server St}.

(** The query [search_memories] sends when there are keywords. *)
Definition search_query (self : RedisMemoryStore) (keywords : list str)
    (max_results : Z) : Query :=
  {| query_string := full_query self keywords;
     return_fields := [str_of "content"];
     paging_offset := 0;
     paging_num := max_results |}.

(** The query [get_all_memories] sends. *)
Definition owner_query (self : RedisMemoryStore) : Query :=
  {| query_string := owner_clause self;
     return_fields := [str_of "content"; str_of "timestamp"];
     paging_offset := 0;
     paging_num := 100 |}.

Lemma get_all_memories_run (self : RedisMemoryStore) (s : St) :
  get_all_memories self s
  = match ft_search INDEX_NAME (owner_query self) s with
    | (Ok results, s') => (Ok (map doc_content results), s')
    | (Raise ResponseError, s') => (Ok [], s')
    | (Raise e, s') => (Raise e, s')
    end.
Proof.
  unfold get_all_memories, try_except_ResponseError, bind, ret, owner_query.
  destruct (ft_search _ _ s) as [[results|[]] s']; reflexivity.
Qed.

Lemma get_all_memories_never_ResponseError (self : RedisMemoryStore) (s : St) :
  fst (get_all_memories self s) <> Raise ResponseError.
Proof.
  rewrite get_all_memories_run.
  destruct (ft_search _ _ s) as [[results|[]] s']; simpl; discriminate.
Qed.

Lemma search_memories_fallback (self : RedisMemoryStore) (query : str)
    (max_results : Z) (s : St) :
  _extract_keywords query = [] ->
  search_memories self query max_results s
  = match get_all_memories self s with
    | (Ok all, s') => (Ok (slice_upto max_results all), s')
    | (Raise e, s') => (Raise e, s')
    end.
Proof.
  intros Hk. unfold search_memories. rewrite Hk.
  unfold try_except_ResponseError at 1. unfold bind at 1.
  pose proof (get_all_memories_never_ResponseError self s) as Hne.
  destruct (get_all_memories self s) as [[all|e] s']; simpl in *.
  - reflexivity.
  - destruct e; try reflexivity. congruence.
Qed.

Lemma search_memories_keywords (self : RedisMemoryStore) (query : str)
    (max_results : Z) (s : St) :
  _extract_keywords query <> [] ->
  search_memories self query max_results s
  = match ft_search INDEX_NAME
            (search_query self (_extract_keywords query) max_results) s with
    | (Ok results, s') => (Ok (map doc_content results), s')
    | (Raise ResponseError, s') => (Ok [], s')
    | (Raise e, s') => (Raise e, s')
    end.
Proof.
  intros Hk. unfold search_memories, search_query.
  destruct (_extract_keywords query) as [|kw kws]; [congruence|].
  unfold try_except_ResponseError, bind, ret.
  destruct (ft_search _ _ s) as [[results|[]] s']; reflexivity.
Qed.

(** C3. When the query has no keyword, [search_memories] gives what
    [get_all_memories] gives, cut to the first [max_results] entries (and
    fails as it fails). *)
Theorem search_without_keywords_lists_all (self : RedisMemoryStore)
    (query : str) (max_results : Z) (s : St) :
  _extract_keywords query = [] ->
  (0 <= max_results)%Z ->
  search_memories self query max_results s
  = match get_all_memories self s with
    | (Ok all, s') => (Ok (firstn (Z.to_nat max_results) all), s')
    | (Raise e, s') => (Raise e, s')
    end.
Proof.
  intros Hk Hn. rewrite search_memories_fallback by exact Hk.
  destruct (get_all_memories self s) as [[all|e] s']; [|reflexivity].
  rewrite slice_upto_nonneg by exact Hn. reflexivity.
Qed.

(** C10. [search_memories] never raises [ResponseError]: when the engine
    rejects the composed query with it, the result is the empty list.
    Any other exception of the engine, a [ConnectionError] among them,
    comes out of [search_memories] as it is, on the keyword path and on
    the listing path alike. *)
Theorem search_degrades_on_ResponseError (self : RedisMemoryStore)
    (query : str) (max_results : Z) (s : St) :
  fst (search_memories self query max_results s) <> Raise ResponseError
  /\ (forall s',
         _extract_keywords query <> [] ->
         ft_search INDEX_NAME
           (search_query self (_extract_keywords query) max_results) s
         = (Raise ResponseError, s') ->
         search_memories self query max_results s = (Ok [], s'))
  /\ (forall e s',
         e <> ResponseError ->
         _extract_keywords query <> [] ->
         ft_search INDEX_NAME
           (search_query self (_extract_keywords query) max_results) s
         = (Raise e, s') ->
         search_memories self query max_results s = (Raise e, s'))
  /\ (forall e s',
         e <> ResponseError ->
         _extract_keywords query = [] ->
         ft_search INDEX_NAME (owner_query self) s = (Raise e, s') ->
         search_memories self query max_results s = (Raise e, s')).
Proof.
  split; [|split; [|split]].
  - destruct (_extract_keywords query) as [|kw kws] eqn:Hk.
    + rewrite search_memories_fallback by exact Hk.
      pose proof (get_all_memories_never_ResponseError self s) as Hne.
      destruct (get_all_memories self s) as [[all|e] s']; simpl in *;
        [discriminate | exact Hne].
    + rewrite search_memories_keywords by (rewrite Hk; discriminate).
      destruct (ft_search _ _ s) as [[results|[]] s']; simpl; discriminate.
  - intros s' Hk Hft. rewrite search_memories_keywords by exact Hk.
    rewrite Hft. reflexivity.
  - intros e s' He Hk Hft. rewrite search_memories_keywords by exact Hk.
    rewrite Hft. destruct e; congruence.
  - intros e s' He Hk Hft. rewrite search_memories_fallback by exact Hk.
    rewrite get_all_memories_run, Hft. destruct e; congruence.
Qed.

End StoreFacts.

(* ===================================================================== *)
(** * Facts about lists *)
(* ===================================================================== *)

Module ListFacts.

Lemma filter_filter_and {A : Type} (f g : A -> bool) (l : list A) :
  filter g (filter f l) = filter (fun x => f x && g x) l.
Proof.
  induction l as [|x l IH]; [reflexivity|].
  cbn [filter]. destruct (f x); cbn [filter andb]; rewrite IH; reflexivity.
Qed.

Lemma filter_all {A : Type} (f : A -> bool) (l : list A) :
  (forall x, In x l -> f x = true) -> filter f l = l.
Proof.
  induction l as [|x l IH]; intros H; [reflexivity|].
  cbn [filter]. rewrite (H x (or_introl eq_refl)).
  rewrite IH; [reflexivity|]. intros y Hy. apply H. right. exact Hy.
Qed.

Lemma filter_none {A : Type} (f : A -> bool) (l : list A) :
  (forall x, In x l -> f x = false) -> filter f l = [].
Proof.
  induction l as [|x l IH]; intros H; [reflexivity|].
  cbn [filter]. rewrite (H x (or_introl eq_refl)).
  apply IH. intros y Hy. apply H. right. exact Hy.
Qed.

Lemma filter_length_le' {A : Type} (f : A -> bool) (l : list A) :
  (length (filter f l) <= length l)%nat.
Proof.
  induction l as [|x l IH]; [apply le_n|].
  cbn [filter]. destruct (f x); simpl; lia.
Qed.

Lemma NoDup_map_filter {A B : Type} (g : A -> B) (f : A -> bool)
    (l : list A) :
  NoDup (map g l) -> NoDup (map g (filter f l)).
Proof.
  induction l as [|x l IH]; intros Hnd; [exact Hnd|].
  cbn [map] in Hnd. inversion Hnd as [|? ? Hnotin Hnd']; subst.
  cbn [filter]. destruct (f x); [|exact (IH Hnd')].
  cbn [map]. constructor; [|exact (IH Hnd')].
  intros Hin. apply Hnotin. apply in_map_iff in Hin.
  destruct Hin as (y & Ey & Hy). apply filter_In in Hy.
  apply in_map_iff. exists y. split; [exact Ey | apply Hy].
Qed.

Lemma In_firstn {A : Type} (n : nat) (l : list A) (x : A) :
  In x (firstn n l) -> In x l.
Proof.
  intros H. rewrite <- (firstn_skipn n l). apply in_or_app. left. exact H.
Qed.

Lemma NoDup_firstn {A : Type} (n : nat) (l : list A) :
  NoDup l -> NoDup (firstn n l).
Proof.
  revert n. induction l as [|x l IH]; intros n Hnd.
  - rewrite firstn_nil. constructor.
  - destruct n as [|n]; [constructor|].
    inversion Hnd as [|? ? Hnotin Hnd']; subst.
    cbn [firstn]. constructor; [|exact (IH n Hnd')].
    intros Hin. apply Hnotin. exact (In_firstn n l x Hin).
Qed.

End ListFacts.

Import ListFacts.

(* ===================================================================== *)
(** * The store against the in-memory server *)
(* ===================================================================== *)

Module MemRedisFacts.
Import MemRedis.

Lemma tag_plain_ordinary (c : char) :
  tag_plain c = true ->
  char_eqb c 125%N = false /\ char_eqb c backslash = false
  /\ char_eqb c hyphen = false.
Proof.
  unfold tag_plain, char_eqb, backslash, hyphen. intros H.
  repeat rewrite orb_true_iff in H. repeat rewrite andb_true_iff in H.
  repeat rewrite N.leb_le in H. rewrite N.eqb_eq in H.
  repeat split; apply N.eqb_neq; lia.
Qed.

Lemma parse_tag_escaped (uid rest : str) :
  plain_chars uid ->
  parse_tag (replace_char hyphen [backslash; hyphen] uid ++ 125%N :: rest)
  = Some (uid, rest).
Proof.
  induction 1 as [|c uid Hc _ IH]; [reflexivity|].
  unfold replace_char in *. cbn [flat_map].
  destruct Hc as [Hc | ->].
  - destruct (tag_plain_ordinary c Hc) as (H1 & H2 & H3).
    rewrite H3. cbn [app parse_tag]. rewrite H1, H2, Hc, IH. reflexivity.
  - change (char_eqb hyphen hyphen) with true.
    cbn [app parse_tag].
    change (char_eqb backslash 125%N) with false.
    change (char_eqb backslash backslash) with true.
    cbn iota. rewrite IH. reflexivity.
Qed.

Lemma strip_prefix_app (p s : str) : strip_prefix p (p ++ s) = Some s.
Proof.
  induction p as [|x p IH]; [reflexivity|].
  cbn [app strip_prefix]. rewrite char_eqb_refl. exact IH.
Qed.

Lemma parse_owner_clause (uid : str) :
  plain_owner uid ->
  parse_owner_query (owner_clause (new_store uid)) = Some uid.
Proof.
  intros [Hne H]. unfold parse_owner_query, owner_clause, new_store.
  cbn [_escaped_user_id]. rewrite strip_prefix_app.
  match goal with
  | |- context [parse_tag ?body] =>
      replace (parse_tag body) with (Some (uid, @nil char))
        by (symmetry; exact (parse_tag_escaped uid [] H))
  end.
  destruct uid as [|c uid]; [congruence | reflexivity].
Qed.

Lemma lookup_app_fresh (key : str) (h : hash) (ks : keyspace) (k : str) :
  lookup k (ks ++ [(key, h)])
  = match lookup k ks with
    | Some h0 => Some h0
    | None => if str_eqb key k then Some h else None
    end.
Proof.
  unfold lookup. induction ks as [|[k0 h0] ks IH]; simpl.
  - destruct (str_eqb key k); reflexivity.
  - destruct (str_eqb k0 k); [reflexivity | exact IH].
Qed.

Lemma owned_by_app (tag key : str) (h : hash) (ks : keyspace) :
  owned_by tag (ks ++ [(key, h)])
  = owned_by tag ks
    ++ (if startswith PREFIX key && str_eqb (h_user_id h) tag
        then [(key, h)] else []).
Proof.
  unfold owned_by, indexed. rewrite !filter_app. f_equal.
  cbn [filter fst snd].
  destruct (startswith PREFIX key); [|reflexivity].
  cbn [filter fst snd andb]. destruct (str_eqb (h_user_id h) tag); reflexivity.
Qed.

Lemma tagged_app (tag_match : str -> str -> bool) (tag key : str) (h : hash)
    (ks : keyspace) :
  tagged tag_match tag (ks ++ [(key, h)])
  = tagged tag_match tag ks
    ++ (if startswith PREFIX key && tag_match tag (h_user_id h)
        then [(key, h)] else []).
Proof.
  unfold tagged, indexed. rewrite !filter_app. f_equal.
  cbn [filter fst snd].
  destruct (startswith PREFIX key); [|reflexivity].
  cbn [filter fst snd andb]. destruct (tag_match tag (h_user_id h)); reflexivity.
Qed.

Lemma tagged_In (tag_match : str -> str -> bool) (tag : str) (ks : keyspace)
    (kh : str * hash) :
  In kh (tagged tag_match tag ks)
  <-> In kh ks /\ startswith PREFIX (fst kh) = true
      /\ tag_match tag (h_user_id (snd kh)) = true.
Proof.
  unfold tagged, indexed. rewrite !filter_In. tauto.
Qed.

Section WithEngine.
Context {U : UnicodeData}.
Variable fulltext : Query -> keyspace -> res (list Redis.Document).
Variable tag_match : str -> str -> bool.
Variable hit_order : keyspace -> keyspace.

#[local] Instance mem_server : Server keyspace :=
  server fulltext tag_match hit_order.

Definition contents (ks : keyspace) : list str :=
  map (fun kh => h_content (snd kh)) ks.

(** What [get_all_memories] shows of an owner: the contents of the first
    hundred hits of the owner clause. *)
Definition listing (uid : str) (ks : keyspace) : list str :=
  contents (firstn 100 (hit_order (tagged tag_match uid ks))).

Lemma get_all_memories_mem (uid : str) (ks : keyspace) :
  plain_owner uid ->
  get_all_memories (new_store uid) ks = (Ok (listing uid ks), ks).
Proof.
  intros H. rewrite get_all_memories_run.
  cbn [ft_search mem_server server]. unfold mem_ft_search.
  change (str_eqb INDEX_NAME INDEX_NAME) with true. cbn [negb].
  cbn [query_string owner_query]. rewrite (parse_owner_clause uid H).
  cbn [paging_offset paging_num owner_query].
  change ((0 <? 0) || (100 <? 0))%Z with false. cbn iota.
  change (Z.to_nat 0) with 0%nat. cbn [skipn].
  unfold listing, contents. rewrite map_map. reflexivity.
Qed.

Lemma is_duplicate_app (normalized : str) (existing : list str) (mem : str) :
  is_duplicate normalized (existing ++ [mem])
  = is_duplicate normalized existing
    || str_eqb (lower (strip mem)) normalized.
Proof.
  induction existing as [|m existing IH]; simpl.
  - destruct (str_eqb (lower (strip mem)) normalized); reflexivity.
  - destruct (str_eqb (lower (strip m)) normalized); [reflexivity | exact IH].
Qed.

(** The loop of [save_memory] finds a duplicate exactly when some listed
    content has the normalized form: the order of the listing does not
    matter. *)
Lemma is_duplicate_In (normalized : str) (existing : list str) :
  is_duplicate normalized existing = true
  <-> exists mem, In mem existing /\ lower (strip mem) = normalized.
Proof.
  induction existing as [|m existing IH]; cbn [is_duplicate In].
  - split; [discriminate | intros (mem & [] & _)].
  - destruct (str_eqb (lower (strip m)) normalized) eqn:E.
    + apply str_eqb_eq in E. split; [|reflexivity].
      intros _. exists m. split; [left; reflexivity | exact E].
    + rewrite IH. split.
      * intros (mem & Hin & Hn). exists mem. split; [right; exact Hin | exact Hn].
      * intros (mem & [->|Hin] & Hn).
        -- rewrite Hn, str_eqb_refl in E. discriminate.
        -- exists mem. split; assumption.
Qed.

Lemma is_duplicate_perm (normalized : str) (l l' : list str) :
  Permutation l l' -> is_duplicate normalized l = is_duplicate normalized l'.
Proof.
  intros Hp.
  destruct (is_duplicate normalized l) eqn:E, (is_duplicate normalized l') eqn:E';
    try reflexivity.
  - apply is_duplicate_In in E. destruct E as (mem & Hin & Hn).
    assert (H : is_duplicate normalized l' = true).
    { apply is_duplicate_In. exists mem. split; [|exact Hn].
      exact (Permutation_in mem Hp Hin). }
    congruence.
  - apply is_duplicate_In in E'. destruct E' as (mem & Hin & Hn).
    assert (H : is_duplicate normalized l = true).
    { apply is_duplicate_In. exists mem. split; [|exact Hn].
      exact (Permutation_in mem (Permutation_sym Hp) Hin). }
    congruence.
Qed.

(** While the hits are at most a hundred, the listing shows them all. *)
Lemma listing_all (uid : str) (ks : keyspace) :
  reorders hit_order ->
  (length (tagged tag_match uid ks) <= 100)%nat ->
  Permutation (listing uid ks) (contents (tagged tag_match uid ks)).
Proof.
  intros Ho Hlen. unfold listing, contents. apply Permutation_map.
  rewrite firstn_all2; [apply Ho|].
  rewrite (Permutation_length (Ho _)). exact Hlen.
Qed.

Lemma listing_length (uid : str) (ks : keyspace) :
  reorders hit_order ->
  length (listing uid ks) = Nat.min 100 (length (tagged tag_match uid ks)).
Proof.
  intros Ho. unfold listing, contents.
  rewrite length_map, length_firstn, (Permutation_length (Ho _)).
  reflexivity.
Qed.

(** Every listed content is the content of a hit. *)
Lemma listing_sound (uid : str) (ks : keyspace) (c : str) :
  reorders hit_order ->
  In c (listing uid ks) ->
  exists kh, In kh (tagged tag_match uid ks) /\ h_content (snd kh) = c.
Proof.
  intros Ho Hc. unfold listing, contents in Hc. apply in_map_iff in Hc.
  destruct Hc as (kh & E & Hin). apply In_firstn in Hin.
  exists kh. split; [|exact E]. exact (Permutation_in kh (Ho _) Hin).
Qed.

Lemma save_memory_mem (uid hex12 now content : str) (ks : keyspace) :
  plain_owner uid ->
  save_memory (new_store uid) hex12 now content ks
  = if is_duplicate (lower (strip content)) (listing uid ks)
    then (Ok [], ks)
    else
      let h := {| h_content := content; h_user_id := uid;
                  h_timestamp := now |} in
      (Ok (PREFIX ++ hex12),
       match lookup (PREFIX ++ hex12) ks with
       | Some _ => replace_key (PREFIX ++ hex12) h ks
       | None => ks ++ [(PREFIX ++ hex12, h)]
       end).
Proof.
  intros H. unfold save_memory. unfold bind at 1.
  rewrite (get_all_memories_mem uid ks H).
  destruct (is_duplicate _ _); [reflexivity|].
  unfold bind, ret. cbn [hset mem_server server user_id new_store].
  unfold mem_hset. destruct (lookup (PREFIX ++ hex12) ks); reflexivity.
Qed.

(** A content that the listing shows is not stored again. *)
Lemma save_memory_listed (uid content hex12 now : str) (ks : keyspace) :
  plain_owner uid ->
  is_duplicate (lower (strip content)) (listing uid ks) = true ->
  save_memory (new_store uid) hex12 now content ks = (Ok [], ks).
Proof.
  intros Hu Hd. rewrite (save_memory_mem uid hex12 now content ks Hu), Hd.
  reflexivity.
Qed.

(** The hits of an owner after one more record of that owner. *)
Lemma tagged_own_record (uid key : str) (h : hash) (ks : keyspace) :
  finds_own_id tag_match -> plain_owner uid ->
  h_user_id h = uid ->
  tagged tag_match uid (ks ++ [(PREFIX ++ key, h)])
  = tagged tag_match uid ks ++ [(PREFIX ++ key, h)].
Proof.
  intros Hm Hu E. rewrite tagged_app, startswith_app, E, (Hm uid Hu).
  reflexivity.
Qed.

(** X25. Saving the same content twice stores it once, below the cap.
    For an owner id of letters, digits, underscores and hyphens, an
    index that finds a record under the id it was written with, fewer
    than 100 records that the index lists for the owner, and a key that
    is not in use: if the listing does not hold the content yet
    (stripped and lowercased), the first [save_memory] appends one record
    and returns its key, else it writes nothing; the second finds the
    content in the listing, returns the empty string and writes nothing.
    The listing is one entry longer if the content was new, and as long
    as before otherwise. *)
Theorem save_twice_stores_once (uid content hex1 now1 hex2 now2 : str)
    (ks : keyspace) :
  finds_own_id tag_match ->
  reorders hit_order ->
  plain_owner uid ->
  (length (tagged tag_match uid ks) < 100)%nat ->
  lookup (PREFIX ++ hex1) ks = None ->
  let self := new_store uid in
  let record := (PREFIX ++ hex1,
                 {| h_content := content; h_user_id := uid;
                    h_timestamp := now1 |}) in
  let listed := is_duplicate (lower (strip content)) (listing uid ks) in
  let ks1 := if listed then ks else ks ++ [record] in
  save_memory self hex1 now1 content ks
  = (Ok (if listed then [] else PREFIX ++ hex1), ks1)
  /\ save_memory self hex2 now2 content ks1 = (Ok [], ks1)
  /\ facts_of uid ks1
     = (if listed then facts_of uid ks else facts_of uid ks ++ [record])
  /\ length (listing uid ks1)
     = (if listed then length (listing uid ks)
        else S (length (listing uid ks))).
Proof.
  intros Hm Ho Hu Hlen Hfresh self record listed ks1.
  assert (Hfacts : facts_of uid (ks ++ [record]) = facts_of uid ks ++ [record]).
  { unfold facts_of, record. rewrite owned_by_app. cbn [h_user_id].
    rewrite startswith_app, str_eqb_refl. reflexivity. }
  assert (Htag : tagged tag_match uid (ks ++ [record])
                 = tagged tag_match uid ks ++ [record])
    by (apply tagged_own_record; [exact Hm | exact Hu | reflexivity]).
  assert (Hfirst : save_memory self hex1 now1 content ks
                   = (Ok (if listed then [] else PREFIX ++ hex1), ks1)).
  { unfold self. rewrite (save_memory_mem uid hex1 now1 content ks Hu).
    fold listed. unfold ks1.
    destruct listed; [reflexivity|]. rewrite Hfresh. reflexivity. }
  split; [exact Hfirst|]. clear Hfirst.
  unfold ks1. destruct listed eqn:Hlisted.
  - repeat split.
    unfold self. apply (save_memory_listed uid content hex2 now2 ks Hu).
    exact Hlisted.
  - split; [|split].
    + unfold self. apply (save_memory_listed uid content hex2 now2 _ Hu).
      rewrite (is_duplicate_perm _ _ _ (listing_all uid (ks ++ [record]) Ho
                 ltac:(rewrite Htag, length_app; cbn [length]; lia))).
      rewrite Htag. unfold contents. rewrite map_app.
      unfold record. cbn [map snd h_content].
      rewrite is_duplicate_app, str_eqb_refl, orb_true_r. reflexivity.
    + exact Hfacts.
    + rewrite !listing_length by exact Ho. rewrite Htag, length_app.
      cbn [length]. lia.
Qed.

End WithEngine.

Lemma lookup_Some_In (key : str) (h : hash) (ks : keyspace) :
  lookup key ks = Some h -> In (key, h) ks.
Proof.
  unfold lookup. destruct (find _ ks) as [[k h0]|] eqn:Hf; [|discriminate].
  intros E. inversion E; subst. apply find_some in Hf.
  destruct Hf as [Hin Hk]. apply str_eqb_eq in Hk. simpl in Hk. subst.
  exact Hin.
Qed.

Lemma lookup_None_fresh (key : str) (ks : keyspace) :
  lookup key ks = None -> forall kh, In kh ks -> str_eqb (fst kh) key = false.
Proof.
  unfold lookup. destruct (find _ ks) as [kh0|] eqn:Hf; [discriminate|].
  intros _ kh Hin. exact (find_none _ _ Hf kh Hin).
Qed.

Lemma well_formed_unique (ks : keyspace) (key : str) (h h' : hash) :
  well_formed ks -> In (key, h) ks -> In (key, h') ks -> h = h'.
Proof.
  unfold well_formed. induction ks as [|[k0 h0] ks IH]; intros Hnd H1 H2.
  - destruct H1.
  - cbn [map fst] in Hnd. inversion Hnd as [|? ? Hnotin Hnd']; subst.
    destruct H1 as [E1|H1], H2 as [E2|H2].
    + congruence.
    + inversion E1; subst. exfalso. apply Hnotin.
      apply in_map_iff. exists (key, h'). split; [reflexivity | exact H2].
    + inversion E2; subst. exfalso. apply Hnotin.
      apply in_map_iff. exists (key, h). split; [reflexivity | exact H1].
    + exact (IH Hnd' H1 H2).
Qed.

Lemma well_formed_filter (f : str * hash -> bool) (ks : keyspace) :
  well_formed ks -> well_formed (filter f ks).
Proof. apply NoDup_map_filter. Qed.

Lemma remove_key_length (key : str) (h : hash) (ks : keyspace) :
  well_formed ks -> lookup key ks = Some h ->
  S (length (remove_key key ks)) = length ks.
Proof.
  unfold well_formed, lookup, remove_key.
  induction ks as [|[k0 h0] ks IH]; intros Hnd Hl; [discriminate|].
  cbn [map fst] in Hnd. inversion Hnd as [|? ? Hnotin Hnd']; subst.
  cbn [find filter fst snd] in *.
  destruct (str_eqb k0 key) eqn:Hk; cbn [negb].
  - apply str_eqb_eq in Hk. subst k0. cbn [length]. f_equal.
    apply (f_equal (@length _)). apply filter_all.
    intros [k1 h1] Hin. cbn [fst]. apply negb_true_iff.
    apply str_eqb_neq. intros ->. apply Hnotin.
    apply in_map_iff. exists (key, h1). split; [reflexivity | exact Hin].
  - cbn [length]. f_equal. exact (IH Hnd' Hl).
Qed.

Lemma replace_key_keys (key : str) (h : hash) (ks : keyspace) :
  map fst (replace_key key h ks) = map fst ks.
Proof.
  induction ks as [|[k0 h0] ks IH]; [reflexivity|].
  cbn [replace_key]. destruct (str_eqb k0 key); cbn [map fst];
    [reflexivity | rewrite IH; reflexivity].
Qed.

(** HSET and DEL keep the keyspace well formed. *)
Lemma mem_commands_well_formed (key : str) (h : hash) (ks : keyspace) :
  well_formed ks ->
  well_formed (snd (mem_hset key h ks))
  /\ well_formed (snd (mem_delete key ks)).
Proof.
  intros Hwf. split.
  - unfold mem_hset. destruct (lookup key ks) eqn:Hl; cbn [snd].
    + unfold well_formed. rewrite replace_key_keys. exact Hwf.
    + unfold well_formed. rewrite map_app. cbn [map fst].
      apply NoDup_app; [exact Hwf | repeat constructor; intros [] |].
      intros k Hk [Ek|[]]. subst k. apply in_map_iff in Hk.
      destruct Hk as (kh & E & Hkh).
      pose proof (lookup_None_fresh key ks Hl kh Hkh) as Hne.
      rewrite E, str_eqb_refl in Hne. discriminate.
  - unfold mem_delete. destruct (lookup key ks); cbn [snd];
      [apply well_formed_filter; exact Hwf | exact Hwf].
Qed.

Lemma glob_prefix_star (key : str) :
  glob_match (PREFIX ++ str_of "*") key = startswith PREFIX key.
Proof. reflexivity. Qed.

Section Clear.
Variable fulltext : Query -> keyspace -> res (list Redis.Document).
Variable tag_match : str -> str -> bool.
Variable hit_order : keyspace -> keyspace.

#[local] Instance clear_server : Server keyspace :=
  server fulltext tag_match hit_order.

(** The records [clear_memories] is after, among the keys it scans. *)
Definition targeted (uid : str) (keys : list str) (kh : str * hash) : bool :=
  str_in (fst kh) keys && str_eqb (h_user_id (snd kh)) uid.

Lemma clear_loop_mem (uid : str) (keys : list str) :
  forall (count : Z) (ks : keyspace),
    well_formed ks ->
    let ks' := filter (fun kh => negb (targeted uid keys kh)) ks in
    clear_loop (new_store uid) keys count ks
    = (Ok (count + Z.of_nat (length ks - length ks'))%Z, ks').
Proof.
  induction keys as [|key keys IH]; intros count ks Hwf ks'.
  - assert (E : ks' = ks).
    { apply filter_all. intros kh _. reflexivity. }
    rewrite E. cbn [clear_loop]. unfold ret.
    rewrite Nat.sub_diag, Z.add_0_r. reflexivity.
  - cbn [clear_loop]. unfold bind at 1. unfold clear_step.
    unfold bind at 1. cbn [hget clear_server server]. unfold mem_hget.
    destruct (lookup key ks) as [h|] eqn:Hl.
    + change (field_of (str_of "user_id") h) with (Some (h_user_id h)).
      cbn [user_id new_store].
      destruct (str_eqb (h_user_id h) uid) eqn:Hu.
      * unfold bind at 1. cbn [delete clear_server server]. unfold mem_delete.
        rewrite Hl. unfold ret at 1.
        rewrite (IH (count + 1)%Z (remove_key key ks)
                   (well_formed_filter _ ks Hwf)).
        assert (E : filter (fun kh => negb (targeted uid keys kh))
                      (remove_key key ks) = ks').
        { unfold remove_key, ks'. rewrite filter_filter_and.
          apply filter_ext_in. intros [k1 h1] Hin. unfold targeted.
          cbn [fst snd str_in existsb].
          destruct (str_eqb k1 key) eqn:Hk; cbn [negb andb orb];
            [|reflexivity].
          apply str_eqb_eq in Hk. subst k1.
          assert (h1 = h)
            by (eapply well_formed_unique; eauto using lookup_Some_In).
          subst h1. rewrite Hu. reflexivity. }
        rewrite E. f_equal. f_equal.
        pose proof (remove_key_length key h ks Hwf Hl) as Hlen.
        assert (length ks' <= length (remove_key key ks))%nat
          by (rewrite <- E; apply filter_length_le').
        lia.
      * unfold ret at 1. rewrite (IH count ks Hwf).
        assert (E : filter (fun kh => negb (targeted uid keys kh)) ks = ks').
        { unfold ks'. apply filter_ext_in. intros [k1 h1] Hin.
          unfold targeted. cbn [fst snd str_in existsb].
          destruct (str_eqb k1 key) eqn:Hk; cbn [orb]; [|reflexivity].
          apply str_eqb_eq in Hk. subst k1.
          assert (h1 = h)
            by (eapply well_formed_unique; eauto using lookup_Some_In).
          subst h1. rewrite Hu, !andb_false_r. reflexivity. }
        rewrite E. reflexivity.
    + unfold ret at 1. rewrite (IH count ks Hwf).
      assert (E : filter (fun kh => negb (targeted uid keys kh)) ks = ks').
      { unfold ks'. apply filter_ext_in. intros [k1 h1] Hin.
        unfold targeted. cbn [fst snd str_in existsb].
        pose proof (lookup_None_fresh key ks Hl (k1, h1) Hin) as Hk.
        cbn [fst] in Hk. rewrite Hk. reflexivity. }
      rewrite E. reflexivity.
Qed.

(** The engine answers or rejects a query; the connection holds. *)
Definition engine_reachable (ks : keyspace) : Prop :=
  forall q e, fulltext q ks = Raise e -> e = ResponseError.

Lemma get_all_memories_reachable (uid : str) (ks : keyspace) :
  engine_reachable ks ->
  exists all, get_all_memories (new_store uid) ks = (Ok all, ks).
Proof.
  intros Hr. rewrite get_all_memories_run.
  cbn [ft_search clear_server server]. unfold mem_ft_search.
  change (str_eqb INDEX_NAME INDEX_NAME) with true. cbn [negb].
  destruct (parse_owner_query _) as [tag|].
  - cbn [paging_offset paging_num owner_query].
    change ((0 <? 0) || (100 <? 0))%Z with false. cbn iota. eauto.
  - destruct (fulltext _ ks) as [results|e] eqn:Hf; [eauto|].
    rewrite (Hr _ _ Hf). eauto.
Qed.

(** Is this record a fact of [uid]? *)
Definition is_fact_of (uid : str) (kh : str * hash) : bool :=
  startswith PREFIX (fst kh) && str_eqb (h_user_id (snd kh)) uid.

Lemma facts_of_filter (uid : str) (ks : keyspace) :
  facts_of uid ks = filter (is_fact_of uid) ks.
Proof.
  unfold facts_of, owned_by, indexed. apply filter_filter_and.
Qed.

(** C9. On a reachable server [clear_memories] of owner [u1] deletes the
    facts of [u1] and nothing else, and returns how many they were: no
    fact of [u1] is left, the facts of every other owner are as before,
    and so is every record that is not a fact of [u1]. *)
Theorem clear_memories_owner_scoped (u1 : str) (ks : keyspace) :
  well_formed ks ->
  engine_reachable ks ->
  let ks' := filter (fun kh => negb (is_fact_of u1 kh)) ks in
  clear_memories (new_store u1) ks
  = (Ok (Z.of_nat (length (facts_of u1 ks))), ks')
  /\ facts_of u1 ks' = []
  /\ (forall u2, u2 <> u1 -> facts_of u2 ks' = facts_of u2 ks)
  /\ (forall kh, In kh ks -> ~ In kh (facts_of u1 ks) -> In kh ks').
Proof.
  intros Hwf Hr ks'.
  split; [|split; [|split]].
  - unfold clear_memories. unfold bind at 1.
    destruct (get_all_memories_reachable u1 ks Hr) as [all ->].
    unfold bind at 1. cbn [scan_iter clear_server server].
    unfold mem_scan_iter.
    rewrite (clear_loop_mem u1 _ 0%Z ks Hwf). cbn zeta.
    assert (E : filter
                  (fun kh => negb (targeted u1
                     (filter (glob_match (PREFIX ++ str_of "*")) (map fst ks))
                     kh)) ks = ks').
    { unfold ks'. apply filter_ext_in. intros kh Hin. f_equal.
      unfold targeted, is_fact_of. f_equal.
      destruct (startswith PREFIX (fst kh)) eqn:Hp.
      - apply str_in_In. apply filter_In. split.
        + apply in_map. exact Hin.
        + rewrite glob_prefix_star. exact Hp.
      - destruct (str_in _ _) eqn:Hs; [|reflexivity].
        apply str_in_In in Hs. apply filter_In in Hs.
        rewrite glob_prefix_star in Hs. destruct Hs. congruence. }
    rewrite E. f_equal. f_equal.
    rewrite facts_of_filter.
    pose proof (filter_length (is_fact_of u1) ks) as Hlen.
    fold ks' in Hlen. cbn [Z.add]. f_equal. lia.
  - rewrite facts_of_filter. unfold ks'. rewrite filter_filter_and.
    apply filter_none. intros kh _. destruct (is_fact_of u1 kh); reflexivity.
  - intros u2 Hne. rewrite !facts_of_filter. unfold ks'.
    rewrite filter_filter_and. apply filter_ext. intros kh.
    unfold is_fact_of.
    destruct (str_eqb (h_user_id (snd kh)) u1) eqn:H1;
      [|rewrite andb_false_r; reflexivity].
    apply str_eqb_eq in H1.
    destruct (str_eqb (h_user_id (snd kh)) u2) eqn:H2;
      [|rewrite !andb_false_r; reflexivity].
    apply str_eqb_eq in H2. congruence.
  - intros kh Hin Hnot. unfold ks'. apply filter_In. split; [exact Hin|].
    apply negb_true_iff. destruct (is_fact_of u1 kh) eqn:Hf; [|reflexivity].
    exfalso. apply Hnot. rewrite facts_of_filter. apply filter_In. auto.
Qed.

End Clear.

End MemRedisFacts.

(* ===================================================================== *)
(** * Rank fusion *)
(* ===================================================================== *)

Module HybridFacts.
Import Hybrid.
Local Open Scope Q_scope.

Lemma rank_in_member (l : list ranked) (s : ranked) :
  NoDup (map fst l) -> In s l -> rank_in l (fst s) = Some (snd s).
Proof.
  unfold rank_in. induction l as [|r l IH]; intros Hnd Hin; [destruct Hin|].
  cbn [map] in Hnd. inversion Hnd as [|? ? Hnotin Hnd']; subst.
  cbn [find]. destruct Hin as [->|Hin].
  - rewrite Z.eqb_refl. reflexivity.
  - destruct (fst r =? fst s)%Z eqn:E.
    + apply Z.eqb_eq in E. exfalso. apply Hnotin. rewrite E.
      apply in_map. exact Hin.
    + exact (IH Hnd' Hin).
Qed.

Lemma rank_in_absent (l : list ranked) (id : Z) :
  in_ranking l id = false -> rank_in l id = None.
Proof.
  unfold rank_in, in_ranking. induction l as [|r l IH]; [reflexivity|].
  cbn [existsb find]. destruct (fst r =? id)%Z; [discriminate|].
  exact IH.
Qed.

Lemma in_ranking_In (l : list ranked) (id : Z) :
  in_ranking l id = true <-> In id (map fst l).
Proof.
  unfold in_ranking. rewrite existsb_exists. split.
  - intros (r & Hr & E). apply Z.eqb_eq in E. subst. apply in_map. exact Hr.
  - intros H. apply in_map_iff in H. destruct H as (r & E & Hr).
    exists r. split; [exact Hr | apply Z.eqb_eq; exact E].
Qed.

(** The keyword rows that join a semantic row: the one of its id, if any. *)
Lemma join_hits (kw : list ranked) (s : ranked) :
  NoDup (map fst kw) ->
  filter (same_id s) kw
  = match find (fun r => (fst r =? fst s)%Z) kw with
    | Some w => [w]
    | None => []
    end.
Proof.
  unfold same_id. induction kw as [|w kw IH]; intros Hnd; [reflexivity|].
  cbn [map] in Hnd. inversion Hnd as [|? ? Hnotin Hnd']; subst.
  cbn [filter find]. rewrite (Z.eqb_sym (fst s) (fst w)).
  destruct (fst w =? fst s)%Z eqn:E.
  - f_equal. apply Z.eqb_eq in E. apply filter_none.
    intros w' Hw'. apply Z.eqb_neq. intros E'. apply Hnotin.
    rewrite E, E'. apply in_map. exact Hw'.
  - exact (IH Hnd').
Qed.

Lemma reciprocal_defined (k rank : Z) :
  (0 < k)%Z -> (1 <= rank)%Z ->
  reciprocal k rank = Some (1 / inject_Z (k + rank)).
Proof.
  intros Hk Hr. unfold reciprocal.
  destruct (k + rank =? 0)%Z eqn:E; [|reflexivity].
  apply Z.eqb_eq in E. lia.
Qed.

Lemma select_rows_app (k : Z) (rs1 rs2 : list joined_row)
    (out1 out2 : list (Z * Q)) :
  select_rows k rs1 = Some out1 -> select_rows k rs2 = Some out2 ->
  select_rows k (rs1 ++ rs2) = Some (out1 ++ out2).
Proof.
  revert out1. induction rs1 as [|r rs1 IH]; intros out1 H1 H2.
  - inversion H1; subst. exact H2.
  - cbn [app select_rows] in *.
    destruct (select_row k r) as [row|]; [|discriminate].
    destruct (select_rows k rs1) as [rows|]; [|discriminate].
    inversion H1; subst. rewrite (IH rows eq_refl H2). reflexivity.
Qed.

Section Fusion.
Variables (k : Z) (list_a list_b : list ranked).
Hypothesis k_positive : (0 < k)%Z.
Hypothesis ranking_a : ranking list_a.
Hypothesis ranking_b : ranking list_b.

Definition scored (id : Z) : Z * Q := (id, rrf_score k list_a list_b id).

Lemma rank_from_1 (l : list ranked) (s : ranked) :
  ranking l -> In s l -> (1 <= snd s)%Z.
Proof.
  intros [_ H] Hin. rewrite Forall_forall in H. exact (H s Hin).
Qed.

Lemma semantic_rows (l : list ranked) :
  incl l list_a ->
  select_rows k
    (flat_map (fun s => match filter (same_id s) list_b with
                        | [] => [SemanticOnly s]
                        | hits => map (Both s) hits
                        end) l)
  = Some (map scored (map fst l)).
Proof.
  induction l as [|s l IH]; intros Hincl; [reflexivity|].
  assert (Hs : In s list_a) by (apply Hincl; left; reflexivity).
  assert (Hl : incl l list_a) by (intros x Hx; apply Hincl; right; exact Hx).
  cbn [flat_map map].
  change (scored (fst s) :: map scored (map fst l))
    with ([scored (fst s)] ++ map scored (map fst l)).
  apply select_rows_app; [|exact (IH Hl)].
  rewrite (join_hits list_b s (proj1 ranking_b)).
  unfold scored, rrf_score.
  rewrite (rank_in_member list_a s (proj1 ranking_a) Hs).
  unfold rank_in.
  destruct (find (fun r => (fst r =? fst s)%Z) list_b) as [w|] eqn:Hf.
  - apply find_some in Hf. destruct Hf as [Hw Hid].
    apply Z.eqb_eq in Hid.
    destruct s as [ids rs], w as [idw rw]. cbn [fst snd] in *.
    cbn [map select_rows select_row semantic_side keyword_side
         coalesce_term coalesce_id fst snd rrf_term].
    unfold select_row. cbn [semantic_side keyword_side coalesce_term].
    rewrite (reciprocal_defined k rs k_positive
               (rank_from_1 list_a (ids, rs) ranking_a Hs)).
    rewrite (reciprocal_defined k rw k_positive
               (rank_from_1 list_b (idw, rw) ranking_b Hw)).
    reflexivity.
  - destruct s as [ids rs]. cbn [fst snd] in *.
    cbn [select_rows]. unfold select_row.
    cbn [semantic_side keyword_side coalesce_term coalesce_id fst snd
         rrf_term].
    rewrite (reciprocal_defined k rs k_positive
               (rank_from_1 list_a (ids, rs) ranking_a Hs)).
    reflexivity.
Qed.

Lemma keyword_rows (l : list ranked) :
  incl l list_b ->
  select_rows k
    (flat_map (fun w => if existsb (fun s => same_id s w) list_a then []
                        else [KeywordOnly w]) l)
  = Some (map scored
            (filter (fun id => negb (in_ranking list_a id)) (map fst l))).
Proof.
  induction l as [|w l IH]; intros Hincl; [reflexivity|].
  assert (Hw : In w list_b) by (apply Hincl; left; reflexivity).
  assert (Hl : incl l list_b) by (intros x Hx; apply Hincl; right; exact Hx).
  cbn [flat_map map filter].
  change (existsb (fun s => same_id s w) list_a)
    with (in_ranking list_a (fst w)).
  destruct (in_ranking list_a (fst w)) eqn:Hin; cbn [negb app].
  - exact (IH Hl).
  - cbn [map]. cbn [select_rows]. rewrite (IH Hl).
    unfold scored at 2, rrf_score.
    rewrite (rank_in_absent list_a (fst w) Hin).
    rewrite (rank_in_member list_b w (proj1 ranking_b) Hw).
    destruct w as [idw rw].
    unfold select_row.
    cbn [semantic_side keyword_side coalesce_term coalesce_id
         fst snd rrf_term].
    rewrite (reciprocal_defined k rw k_positive
               (rank_from_1 list_b (idw, rw) ranking_b Hw)).
    reflexivity.
Qed.

(** The rows of the select: one per id of the two rankings, in the order
    the ids are first met, each with the score of the fusion rule. *)
Lemma fused_rows_scored :
  fused_rows k list_a list_b
  = Some (map scored (first_encounter list_a list_b)).
Proof.
  unfold fused_rows, full_outer_join, first_encounter.
  rewrite map_app. apply select_rows_app.
  - apply semantic_rows. apply incl_refl.
  - apply keyword_rows. apply incl_refl.
Qed.

Lemma first_encounter_In (id : Z) :
  In id (first_encounter list_a list_b)
  <-> In id (map fst list_a) \/ In id (map fst list_b).
Proof.
  unfold first_encounter. rewrite in_app_iff, filter_In, negb_true_iff.
  split.
  - intros [H|[H _]]; auto.
  - intros [H|H]; [left; exact H|].
    destruct (in_ranking list_a id) eqn:E.
    + left. apply in_ranking_In. exact E.
    + right. split; [exact H | reflexivity].
Qed.

Lemma first_encounter_NoDup : NoDup (first_encounter list_a list_b).
Proof.
  unfold first_encounter. apply NoDup_app.
  - exact (proj1 ranking_a).
  - apply NoDup_filter. exact (proj1 ranking_b).
  - intros id Ha Hb. apply filter_In in Hb. destruct Hb as [_ Hb].
    apply negb_true_iff in Hb. apply in_ranking_In in Ha. congruence.
Qed.

Lemma fused_ids (rows : list (Z * Q)) :
  fused_rows k list_a list_b = Some rows ->
  map fst rows = first_encounter list_a list_b.
Proof.
  rewrite fused_rows_scored. intros E. inversion E; subst.
  rewrite map_map. unfold scored. cbn [fst]. apply map_id.
Qed.

End Fusion.

(** C1. For rankings that hold an id once with ranks from 1 and a
    positive [k], the select of [HYBRID_SEARCH_SQL] gives one row for
    every id of either ranking and no other, and the score of the row of
    [id] is [1/(k + rank)] for the ranking [list_a] if [id] is in it, else
    0, plus the same for [list_b].  With [list_a = [(1,1); (2,2)]],
    [list_b = [(2,1); (3,2)]] and [k = 60], id 2 scores above id 1 and
    above id 3. *)
Theorem fused_score_is_rrf :
  (forall (k : Z) (list_a list_b : list ranked),
      (0 < k)%Z -> ranking list_a -> ranking list_b ->
      exists rows,
        fused_rows k list_a list_b = Some rows
        /\ NoDup (map fst rows)
        /\ (forall id,
               In id (map fst rows)
               <-> In id (map fst list_a) \/ In id (map fst list_b))
        /\ (forall id score,
               In (id, score) rows ->
               score = rrf_term k (rank_in list_a id)
                       + rrf_term k (rank_in list_b id)))
  /\ (let list_a := [(1, 1); (2, 2)]%Z in
      let list_b := [(2, 1); (3, 2)]%Z in
      fused_rows 60 list_a list_b
      = Some [(1%Z, 1 / inject_Z 61 + 0);
              (2%Z, 1 / inject_Z 62 + 1 / inject_Z 61);
              (3%Z, 0 + 1 / inject_Z 62)]
      /\ rrf_score 60 list_a list_b 1 < rrf_score 60 list_a list_b 2
      /\ rrf_score 60 list_a list_b 3 < rrf_score 60 list_a list_b 2).
Proof.
  split.
  - intros k list_a list_b Hk Ha Hb.
    exists (map (scored k list_a list_b) (first_encounter list_a list_b)).
    split; [exact (fused_rows_scored k list_a list_b Hk Ha Hb)|].
    assert (Hids : map fst (map (scored k list_a list_b)
                              (first_encounter list_a list_b))
                   = first_encounter list_a list_b).
    { rewrite map_map. unfold scored. cbn [fst]. apply map_id. }
    split; [|split].
    + rewrite Hids. exact (first_encounter_NoDup list_a list_b Ha Hb).
    + intros id. rewrite Hids. apply first_encounter_In.
    + intros id score Hin. apply in_map_iff in Hin.
      destruct Hin as (id' & E & _). unfold scored in E.
      inversion E; subst. reflexivity.
  - cbv zeta. split; [reflexivity|]. split; reflexivity.
Qed.

Lemma fused_score_is_rrf_witness :
  (0 < 60)%Z
  /\ ranking [(1, 1); (2, 2)]%Z
  /\ ranking [(2, 1); (3, 2)]%Z
  /\ exists rows,
       fused_rows 60 [(1, 1); (2, 2)]%Z [(2, 1); (3, 2)]%Z = Some rows
       /\ NoDup (map fst rows).
Proof.
  assert (Ha : ranking [(1, 1); (2, 2)]%Z).
  { split.
    - cbn [map fst]. repeat constructor; cbn [In]; intuition discriminate.
    - repeat constructor; cbn [snd]; lia. }
  assert (Hb : ranking [(2, 1); (3, 2)]%Z).
  { split.
    - cbn [map fst]. repeat constructor; cbn [In]; intuition discriminate.
    - repeat constructor; cbn [snd]; lia. }
  split; [reflexivity|]. split; [exact Ha|]. split; [exact Hb|].
  destruct (proj1 fused_score_is_rrf 60%Z _ _ eq_refl Ha Hb)
    as (rows & Hrows & Hnd & _).
  exists rows. split; [exact Hrows | exact Hnd].
Defined.

(** ** Ordering *)

Lemma score_desc_transitive : Relations_1.Transitive score_desc.
Proof.
  intros x y z Hxy Hyz. unfold score_desc in *.
  exact (Qle_trans _ _ _ Hyz Hxy).
Qed.

Lemma StronglySorted_firstn {A : Type} (R : A -> A -> Prop) (n : nat)
    (l : list A) :
  StronglySorted R l -> StronglySorted R (firstn n l).
Proof.
  intros H. revert n. induction H as [|x l Hl IH Hx]; intros n.
  - rewrite firstn_nil. constructor.
  - destruct n as [|n]; [constructor|].
    cbn [firstn]. constructor; [apply IH|].
    apply Forall_forall. intros y Hy. rewrite Forall_forall in Hx.
    apply Hx. exact (In_firstn n l y Hy).
Qed.

Lemma StronglySorted_cross {A : Type} (R : A -> A -> Prop) (l1 l2 : list A) :
  StronglySorted R (l1 ++ l2) ->
  forall x y, In x l1 -> In y l2 -> R x y.
Proof.
  induction l1 as [|a l1 IH]; intros H x y Hx Hy; [destruct Hx|].
  cbn [app] in H. inversion H as [|? ? Hs Hall]; subst.
  destruct Hx as [->|Hx].
  - rewrite Forall_forall in Hall. apply Hall. apply in_or_app. right.
    exact Hy.
  - exact (IH Hs x y Hx Hy).
Qed.

Lemma Sorted_weaken {A : Type} (R1 R2 : A -> A -> Prop) (l : list A) :
  (forall x y, R1 x y -> R2 x y) -> Sorted R1 l -> Sorted R2 l.
Proof.
  intros Himp. induction 1 as [|x l Hs IH Hhd]; constructor; [exact IH|].
  destruct Hhd; constructor. apply Himp. assumption.
Qed.

Section InsertionSortFacts.
Context {A : Type}.
Variable leb : A -> A -> bool.
Hypothesis leb_total : forall x y, leb x y = true \/ leb y x = true.

Lemma insert_sorted_perm (x : A) (l : list A) :
  Permutation (x :: l) (insert_sorted leb x l).
Proof.
  induction l as [|y l IH]; cbn [insert_sorted]; [apply Permutation_refl|].
  destruct (leb x y); [apply Permutation_refl|].
  eapply Permutation_trans; [apply perm_swap|].
  apply perm_skip. exact IH.
Qed.

Lemma insertion_sort_perm (l : list A) :
  Permutation l (insertion_sort leb l).
Proof.
  induction l as [|x l IH]; [apply Permutation_refl|].
  cbn [insertion_sort fold_right].
  eapply Permutation_trans; [apply perm_skip; exact IH|].
  apply insert_sorted_perm.
Qed.

Lemma insert_sorted_Sorted (x : A) (l : list A) :
  Sorted (fun a b => leb a b = true) l ->
  Sorted (fun a b => leb a b = true) (insert_sorted leb x l).
Proof.
  induction 1 as [|y l Hs IH Hhd]; cbn [insert_sorted].
  - repeat constructor.
  - destruct (leb x y) eqn:Hxy.
    + constructor; [constructor; assumption|]. constructor. exact Hxy.
    + constructor; [exact IH|].
      destruct l as [|z l]; cbn [insert_sorted].
      * constructor. destruct (leb_total x y); congruence.
      * destruct (leb x z).
        -- constructor. destruct (leb_total x y); congruence.
        -- inversion Hhd; subst. constructor. assumption.
Qed.

Lemma insertion_sort_Sorted (l : list A) :
  Sorted (fun a b => leb a b = true) (insertion_sort leb l).
Proof.
  induction l as [|x l IH]; [constructor|].
  cbn [insertion_sort fold_right]. apply insert_sorted_Sorted. exact IH.
Qed.

End InsertionSortFacts.

Lemma Qle_bool_total (x y : Q) : Qle_bool x y = true \/ Qle_bool y x = true.
Proof.
  destruct (Qlt_le_dec y x) as [H|H].
  - right. apply Qle_bool_iff. apply Qlt_le_weak. exact H.
  - left. apply Qle_bool_iff. exact H.
Qed.

Lemma sort_by_score (rows : list (Z * Q)) :
  ordered_by_score_desc rows (insertion_sort score_geb rows).
Proof.
  split.
  - apply insertion_sort_perm.
  - apply (Sorted_weaken (fun a b => score_geb a b = true)).
    + intros x y H. apply Qle_bool_iff. exact H.
    + apply insertion_sort_Sorted. intros x y. apply Qle_bool_total.
Qed.

(** What every answer of the query has in common. *)
Lemma answer_prefix (rows sorted : list (Z * Q)) (n : nat) :
  ordered_by_score_desc rows sorted ->
  Sorted score_desc (firstn n sorted)
  /\ length (firstn n sorted) = Nat.min n (length rows)
  /\ (forall x, In x (firstn n sorted) -> In x rows)
  /\ (forall x y, In x (firstn n sorted) -> In y rows ->
                  ~ In y (firstn n sorted) -> snd y <= snd x).
Proof.
  intros [Hperm Hsorted].
  pose proof (Sorted_StronglySorted score_desc_transitive Hsorted) as Hss.
  split; [|split; [|split]].
  - apply StronglySorted_Sorted. apply StronglySorted_firstn. exact Hss.
  - rewrite length_firstn, (Permutation_length Hperm). reflexivity.
  - intros x Hx. apply (Permutation_in x (Permutation_sym Hperm)).
    exact (In_firstn n sorted x Hx).
  - intros x y Hx Hy Hny.
    apply (Permutation_in y Hperm) in Hy.
    rewrite <- (firstn_skipn n sorted) in Hy, Hss.
    apply in_app_or in Hy. destruct Hy as [Hy|Hy]; [contradiction|].
    exact (StronglySorted_cross score_desc _ _ Hss x y Hx Hy).
Qed.

Lemma answer_ids (rows sorted : list (Z * Q)) (n : nat) :
  NoDup (map fst rows) -> Permutation rows sorted ->
  NoDup (map fst (firstn n sorted)).
Proof.
  intros Hnd Hperm. rewrite <- firstn_map. apply NoDup_firstn.
  exact (Permutation_NoDup (Permutation_map fst Hperm) Hnd).
Qed.

(** The query answers whenever the limit is not negative. *)
Lemma outer_select_runs (k limit : Z) (list_a list_b : list ranked) :
  (0 < k)%Z -> ranking list_a -> ranking list_b -> (0 <= limit)%Z ->
  exists out,
    run_outer_select k limit list_a list_b = Some out
    /\ outer_select k limit list_a list_b out.
Proof.
  intros Hk Ha Hb Hl. unfold run_outer_select, outer_select.
  destruct (limit <? 0)%Z eqn:E; [apply Z.ltb_lt in E; lia|].
  rewrite (fused_rows_scored k list_a list_b Hk Ha Hb).
  eexists. split; [reflexivity|]. split; [exact Hl|].
  eexists. eexists. split; [reflexivity|].
  split; [apply sort_by_score | reflexivity].
Qed.

(** C4 (as the code has it). Every answer of [HYBRID_SEARCH_SQL] lists
    ids in descending fused score and is cut to the limit: it holds
    [min limit n] rows for [n] distinct ids, an id at most once, each
    with its fused score, and no id left out scores above a row that is
    in.  The query orders by score alone. *)
Theorem fusion_orders_by_score (k limit : Z) (list_a list_b : list ranked)
    (out : list (Z * Q)) :
  (0 < k)%Z -> ranking list_a -> ranking list_b ->
  outer_select k limit list_a list_b out ->
  Sorted score_desc out
  /\ length out
     = Nat.min (Z.to_nat limit) (length (first_encounter list_a list_b))
  /\ NoDup (map fst out)
  /\ (forall id score,
         In (id, score) out ->
         (In id (map fst list_a) \/ In id (map fst list_b))
         /\ score = rrf_score k list_a list_b id)
  /\ (forall id x,
         In id (map fst list_a) \/ In id (map fst list_b) ->
         ~ In id (map fst out) -> In x out ->
         rrf_score k list_a list_b id <= snd x).
Proof.
  intros Hk Ha Hb (Hl & rows & sorted & Hrows & Hord & ->).
  rewrite (fused_rows_scored k list_a list_b Hk Ha Hb) in Hrows.
  inversion Hrows; subst rows; clear Hrows.
  destruct (answer_prefix _ sorted (Z.to_nat limit) Hord)
    as (Hsorted & Hlen & Hsub & Htop).
  split; [exact Hsorted|].
  split; [rewrite Hlen, length_map; reflexivity|].
  split.
  { apply (answer_ids (map (scored k list_a list_b)
                         (first_encounter list_a list_b))).
    - rewrite map_map. unfold scored. cbn [fst]. rewrite map_id.
      exact (first_encounter_NoDup list_a list_b Ha Hb).
    - apply Hord. }
  split.
  - intros id score Hin. apply Hsub in Hin. apply in_map_iff in Hin.
    destruct Hin as (id' & E & Hid). unfold scored in E.
    inversion E; subst. split; [|reflexivity].
    apply (first_encounter_In list_a list_b). exact Hid.
  - intros id x Hid Hout Hx.
    apply (Htop x (scored k list_a list_b id) Hx).
    + apply in_map. apply first_encounter_In. exact Hid.
    + intros Hin. apply Hout.
      apply (in_map fst) in Hin. exact Hin.
Qed.

Lemma ranking_two (id1 id2 r1 r2 : Z) :
  id1 <> id2 -> (1 <= r1)%Z -> (1 <= r2)%Z ->
  ranking [(id1, r1); (id2, r2)].
Proof.
  intros Hne H1 H2. split.
  - cbn [map fst]. repeat constructor; cbn [In]; intuition congruence.
  - repeat constructor; cbn [snd]; assumption.
Qed.

Lemma fusion_orders_by_score_witness :
  outer_select 60 2 [(1, 1); (2, 2)]%Z [(2, 1); (1, 2)]%Z
    [(1%Z, 1 / inject_Z 61 + 1 / inject_Z 62);
     (2%Z, 1 / inject_Z 62 + 1 / inject_Z 61)]
  /\ Sorted score_desc
       [(1%Z, 1 / inject_Z 61 + 1 / inject_Z 62);
        (2%Z, 1 / inject_Z 62 + 1 / inject_Z 61)].
Proof.
  assert (H : outer_select 60 2 [(1, 1); (2, 2)]%Z [(2, 1); (1, 2)]%Z
                [(1%Z, 1 / inject_Z 61 + 1 / inject_Z 62);
                 (2%Z, 1 / inject_Z 62 + 1 / inject_Z 61)]).
  { split; [lia|].
    exists [(1%Z, 1 / inject_Z 61 + 1 / inject_Z 62);
            (2%Z, 1 / inject_Z 62 + 1 / inject_Z 61)].
    exists [(1%Z, 1 / inject_Z 61 + 1 / inject_Z 62);
            (2%Z, 1 / inject_Z 62 + 1 / inject_Z 61)].
    split; [reflexivity|]. split; [|reflexivity].
    split; [apply Permutation_refl|].
    repeat constructor. unfold score_desc. cbn [snd].
    apply Qle_bool_imp_le. reflexivity. }
  split; [exact H|].
  refine (proj1 (fusion_orders_by_score 60 2 _ _ _ eq_refl _ _ H));
    apply ranking_two; (discriminate || lia).
Defined.

(** ** A tie that the query does not break the stable way *)

(** Twenty products that the semantic ranking has by ascending id and the
    keyword ranking by descending id: ids 1 and 20 tie at [1/61 + 1/80],
    ids 2 and 19 at [1/62 + 1/79], and so on inwards. *)
Definition by_id_ascending : list ranked :=
  map (fun i => (Z.of_nat i, Z.of_nat i)) (seq 1 20).

Definition by_id_descending : list ranked :=
  map (fun i => (21 - Z.of_nat i, Z.of_nat i)%Z) (seq 1 20).

(** The first two rows of a list, exchanged. *)
Definition swap_head {A : Type} (l : list A) : list A :=
  match l with
  | x :: y :: rest => y :: x :: rest
  | _ => l
  end.

Definition heads_tied (l : list (Z * Q)) : bool :=
  match l with
  | x :: y :: _ => Qeq_bool (snd x) (snd y)
  | _ => true
  end.

Lemma swap_head_perm {A : Type} (l : list A) : Permutation l (swap_head l).
Proof.
  destruct l as [|x [|y rest]]; cbn [swap_head];
    [apply Permutation_refl | apply Permutation_refl | apply perm_swap].
Qed.

(** Exchanging two rows of equal score keeps the rows ordered by score. *)
Lemma swap_head_Sorted (l : list (Z * Q)) :
  heads_tied l = true -> Sorted score_desc l -> Sorted score_desc (swap_head l).
Proof.
  destruct l as [|x [|y rest]]; cbn [swap_head heads_tied]; intros Ht Hs;
    try exact Hs.
  apply Qeq_bool_eq in Ht.
  inversion Hs as [|? ? Hs' Hxy]; subst. inversion Hxy as [|? ? Hyx]; subst.
  inversion Hs' as [|? ? Hrest Hy]; subst.
  constructor.
  - constructor; [exact Hrest|].
    destruct rest as [|z rest]; constructor.
    inversion Hy as [|? ? Hzy]; subst. unfold score_desc in *.
    exact (Qle_trans _ _ _ Hzy Hyx).
  - constructor. unfold score_desc. rewrite Ht. apply Qle_refl.
Qed.

(** On these rankings with [k = 60] and [limit = 4] the query may answer
    with ids 20, 1, 2, 19: ids 1 and 20 score the same and id 1 is met
    first, in [list_a] and in the join, yet id 20 comes first.  The stable
    order is 1, 20, 2, 19. *)
Lemma ties_not_broken_stably :
  exists out,
    outer_select 60 4 by_id_ascending by_id_descending out
    /\ map fst out = [20; 1; 2; 19]%Z
    /\ firstn 4 (first_encounter by_id_ascending by_id_descending)
       = [1; 2; 3; 4]%Z
    /\ option_map (map fst)
         (run_outer_select 60 4 by_id_ascending by_id_descending)
       = Some [1; 20; 2; 19]%Z
    /\ ~ stable_ties by_id_ascending by_id_descending out.
Proof.
  set (rows := match fused_rows 60 by_id_ascending by_id_descending with
               | Some rows => rows
               | None => []
               end).
  assert (Hrows : fused_rows 60 by_id_ascending by_id_descending = Some rows)
    by (vm_compute; reflexivity).
  set (sorted := swap_head (insertion_sort score_geb rows)).
  exists (firstn (Z.to_nat 4) sorted).
  split; [|split; [|split; [|split]]].
  - split; [lia|]. exists rows, sorted.
    split; [exact Hrows|]. split; [|reflexivity]. split.
    + eapply Permutation_trans; [apply insertion_sort_perm | apply swap_head_perm].
    + apply swap_head_Sorted; [vm_compute; reflexivity|].
      apply sort_by_score.
  - vm_compute. reflexivity.
  - vm_compute. reflexivity.
  - vm_compute. reflexivity.
  - intros Hst.
    assert (H0 : exists x y,
               nth_error (firstn (Z.to_nat 4) sorted) 0 = Some x
               /\ nth_error (firstn (Z.to_nat 4) sorted) 1 = Some y
               /\ fst x = 20%Z /\ fst y = 1%Z
               /\ Qeq_bool (snd x) (snd y) = true).
    { eexists. eexists. split; [vm_compute; reflexivity|].
      split; [vm_compute; reflexivity|].
      split; [reflexivity|]. split; reflexivity. }
    destruct H0 as (x & y & Hx & Hy & Ex & Ey & Hxy).
    pose proof (Hst 0%nat 1%nat x y (Nat.lt_0_succ 0) Hx Hy
                  (Qeq_bool_eq _ _ Hxy)) as Hlt.
    rewrite Ex, Ey in Hlt. vm_compute in Hlt. lia.
Qed.

(** ** The retriever *)

Lemma top20_ranking (key : Product -> Q) (rows : list Product)
    (out : list ranked) :
  NoDup (map p_id rows) -> top20_by key rows out ->
  ranking out /\ incl (map fst out) (map p_id rows).
Proof.
  intros Hnd (sorted & Hperm & _ & ->).
  assert (Hids : map fst (map (fun r => (p_id r, rank_over key rows r))
                            (firstn 20 sorted))
                 = firstn 20 (map p_id sorted)).
  { rewrite map_map. cbn [fst]. symmetry. apply firstn_map. }
  split; [split|].
  - rewrite Hids. apply NoDup_firstn.
    exact (Permutation_NoDup (Permutation_map p_id Hperm) Hnd).
  - apply Forall_forall. intros r Hr. apply in_map_iff in Hr.
    destruct Hr as (row & <- & _). cbn [snd]. unfold rank_over. lia.
  - rewrite Hids. intros id Hid. apply In_firstn in Hid.
    apply (Permutation_in id (Permutation_sym (Permutation_map p_id Hperm))).
    exact Hid.
Qed.

Lemma top20_exists (key : Product -> Q) (rows : list Product) :
  exists out, top20_by key rows out.
Proof.
  set (leb := fun x y : Product => Qle_bool (key x) (key y)).
  eexists. exists (insertion_sort leb rows).
  split; [apply insertion_sort_perm|]. split; [|reflexivity].
  apply (Sorted_weaken (fun a b => leb a b = true)).
  - intros x y H. apply Qle_bool_iff. exact H.
  - apply insertion_sort_Sorted. intros x y. apply Qle_bool_total.
Qed.

Section RetrieverFacts.
Variable products : list Product.
Variable distance : Product -> Q.
Variable ts_match : Product -> bool.
Variable ts_rank_cd : Product -> Q.
Variable format_2f : Q -> str.
Hypothesis primary_key : NoDup (map p_id products).

Lemma fetchone_found (product_id : Z) :
  In product_id (map p_id products) ->
  exists row, fetchone products product_id = Some row.
Proof.
  intros Hin. unfold fetchone.
  destruct (find _ products) as [row|] eqn:Hf; [eauto|].
  apply in_map_iff in Hin. destruct Hin as (row & E & Hrow).
  pose proof (find_none _ _ Hf row Hrow) as Hno. cbn beta in Hno.
  apply Z.eqb_neq in Hno. contradiction.
Qed.

Lemma documents_loop (result_ids : list Z) (documents : list Document) :
  incl result_ids (map p_id products) ->
  length (fold_left (documents_step products format_2f) result_ids documents)
  = (length documents + length result_ids)%nat.
Proof.
  revert documents. induction result_ids as [|id ids IH];
    intros documents Hincl; cbn [fold_left length]; [lia|].
  rewrite IH by (intros x Hx; apply Hincl; right; exact Hx).
  unfold documents_step.
  destruct (fetchone_found id (Hincl id (or_introl eq_refl))) as [row ->].
  rewrite length_app. cbn [length]. lia.
Qed.

Lemma build_documents_length (result_ids : list Z) :
  incl result_ids (map p_id products) ->
  length (build_documents products format_2f result_ids) = length result_ids.
Proof.
  intros Hincl. unfold build_documents.
  destruct result_ids as [|id ids]; [reflexivity|].
  rewrite (documents_loop (id :: ids) [] Hincl). reflexivity.
Qed.

Lemma semantic_search_ranking (sem : list ranked) :
  semantic_search products distance sem ->
  ranking sem /\ incl (map fst sem) (map p_id products).
Proof. apply top20_ranking. exact primary_key. Qed.

Lemma keyword_search_ranking (kw : list ranked) :
  keyword_search products ts_match ts_rank_cd kw ->
  ranking kw /\ incl (map fst kw) (map p_id products).
Proof.
  intros H. apply top20_ranking in H.
  - destruct H as [Hr Hincl]. split; [exact Hr|].
    intros id Hid. apply Hincl in Hid. apply in_map_iff in Hid.
    destruct Hid as (row & E & Hrow). apply filter_In in Hrow.
    apply in_map_iff. exists row. split; [exact E | apply Hrow].
  - apply NoDup_map_filter. exact primary_key.
Qed.

(** C7. The retriever returns at most [max_results] documents, and as
    many as there are distinct ids in the two rankings when these are
    fewer: it returns fewer than [max_results] only then. *)
Theorem retrieve_at_most_max_results (max_results : Z)
    (sem kw : list ranked) (documents : list Document) :
  _get_relevant_documents products distance ts_match ts_rank_cd format_2f
    max_results sem kw documents ->
  (length documents <= Z.to_nat max_results)%nat
  /\ (forall ids,
         distinct_union sem kw ids ->
         length documents = Nat.min (Z.to_nat max_results) (length ids)
         /\ ((length documents < Z.to_nat max_results)%nat ->
             (length ids < Z.to_nat max_results)%nat)).
Proof.
  intros (rows & (Hsem & Hkw & Hl & fused & sorted & Hf & Hord & ->) & ->).
  destruct (semantic_search_ranking sem Hsem) as [Hrs His].
  destruct (keyword_search_ranking kw Hkw) as [Hrk Hik].
  rewrite (fused_rows_scored 60 sem kw eq_refl Hrs Hrk) in Hf.
  inversion Hf; subst fused; clear Hf.
  destruct (answer_prefix _ sorted (Z.to_nat max_results) Hord)
    as (_ & Hlen & Hsub & _).
  rewrite length_map in Hlen.
  assert (Hdocs : length (build_documents products format_2f
                            (map fst (firstn (Z.to_nat max_results) sorted)))
                  = length (firstn (Z.to_nat max_results) sorted)).
  { rewrite build_documents_length; [apply length_map|].
    intros id Hid. apply in_map_iff in Hid. destruct Hid as (x & <- & Hx).
    apply Hsub in Hx. apply in_map_iff in Hx.
    destruct Hx as (id' & <- & Hid'). cbn [scored fst].
    apply first_encounter_In in Hid'. destruct Hid'; auto. }
  rewrite Hdocs, Hlen. split; [apply Nat.le_min_l|].
  intros ids [Hnd Hids].
  assert (E : length ids = length (first_encounter sem kw)).
  { apply Permutation_length. apply NoDup_Permutation.
    - exact Hnd.
    - exact (first_encounter_NoDup sem kw Hrs Hrk).
    - intros id. rewrite Hids. symmetry. apply first_encounter_In. }
  rewrite E. split; [reflexivity | lia].
Qed.

(** The retriever returns: for a limit that is not negative there are
    rankings and documents it gives. *)
Lemma retriever_returns (max_results : Z) :
  (0 <= max_results)%Z ->
  exists sem kw documents,
    _get_relevant_documents products distance ts_match ts_rank_cd format_2f
      max_results sem kw documents.
Proof.
  intros Hl.
  destruct (top20_exists distance products) as [sem Hsem].
  destruct (top20_exists (fun r => - ts_rank_cd r)
              (filter ts_match products)) as [kw Hkw].
  destruct (semantic_search_ranking sem Hsem) as [Hrs _].
  destruct (keyword_search_ranking kw Hkw) as [Hrk _].
  destruct (outer_select_runs 60 max_results sem kw eq_refl Hrs Hrk Hl)
    as (out & _ & Hout).
  exists sem, kw. eexists. exists out. split; [|reflexivity].
  split; [exact Hsem|]. split; [exact Hkw | exact Hout].
Qed.

End RetrieverFacts.

End HybridFacts.

(* ===================================================================== *)
(** * Runs on concrete stores and catalogs *)
(* ===================================================================== *)

Module Scenarios.
Import MemRedis MemRedisFacts.

Definition fact (key owner content now : string) : str * hash :=
  (PREFIX ++ str_of key,
   {| h_content := str_of content; h_user_id := str_of owner;
      h_timestamp := str_of now |}).

(** Two facts of [u-1] and one of [u-2]. *)
Definition three_facts : keyspace :=
  [ fact "a1" "u-1" "Likes tea" "1";
    fact "b2" "u-2" "Lives in Lima" "2";
    fact "c3" "u-1" "Lives in Tokio" "3" ].

#[local] Instance latin : UnicodeData := Latin.ucd.

(** The engine of the runs: a TAG field that folds case, hits oldest
    first, and no answer to full-text clauses. *)
#[local] Instance rejecting : Server keyspace :=
  server no_fulltext folded_match oldest_first.

Lemma folded_match_own : finds_own_id folded_match.
Proof. intros uid _. apply str_eqb_refl. Qed.

Lemma oldest_first_reorders : reorders oldest_first.
Proof. intros hits. apply Permutation_refl. Qed.

Lemma plain_owner_u1 : plain_owner (str_of "u-1").
Proof.
  split; [discriminate|]. unfold plain_chars.
  repeat (constructor; [(left; reflexivity) || (right; reflexivity)|]).
  constructor.
Qed.

Lemma three_facts_well_formed : well_formed three_facts.
Proof.
  unfold well_formed. cbn [map fst three_facts fact].
  repeat (constructor; [cbn [In]; intuition discriminate|]).
  constructor.
Qed.

Lemma no_fulltext_reachable (ks : keyspace) :
  engine_reachable no_fulltext ks.
Proof. intros q e H. inversion H. reflexivity. Qed.

(** The empty query and a query of spaces have no keyword. *)
Example blank_queries_have_no_keyword :
  _extract_keywords (str_of "") = [] /\ _extract_keywords (str_of "   ") = []
  /\ _extract_keywords (str_of "que es eso?") = [].
Proof. repeat split. Qed.

Lemma search_without_keywords_lists_all_witness :
  _extract_keywords (str_of "   ") = []
  /\ (0 <= 1)%Z
  /\ search_memories (new_store (str_of "u-1")) (str_of "   ") 1 three_facts
     = (Ok [str_of "Likes tea"], three_facts).
Proof.
  split; [reflexivity|]. split; [lia|].
  exact (search_without_keywords_lists_all (new_store (str_of "u-1"))
           (str_of "   ") 1 three_facts eq_refl (Z.le_0_1)).
Defined.

(** A server that cannot be reached. *)
Definition unreachable : Server unit :=
  {| ft_search := fun _ _ s => (Raise ConnectionError, s);
     hset := fun _ _ s => (Raise ConnectionError, s);
     scan_iter := fun _ s => (Raise ConnectionError, s);
     hget := fun _ _ s => (Raise ConnectionError, s);
     delete := fun _ s => (Raise ConnectionError, s) |}.

Lemma search_degrades_on_ResponseError_witness :
  _extract_keywords (str_of "Tokio") <> []
  /\ search_memories (new_store (str_of "u-1")) (str_of "Tokio") 5 three_facts
     = (Ok [], three_facts)
  /\ @search_memories latin unit unreachable
       (new_store (str_of "u-1")) (str_of "Tokio") 5 tt
     = (Raise ConnectionError, tt).
Proof.
  assert (Hk : _extract_keywords (str_of "Tokio") <> []) by discriminate.
  split; [exact Hk|]. split.
  - exact (proj1 (proj2 (search_degrades_on_ResponseError
                           (new_store (str_of "u-1")) (str_of "Tokio") 5
                           three_facts))
             three_facts Hk eq_refl).
  - refine (proj1 (proj2 (proj2 (@search_degrades_on_ResponseError
                                   latin unit unreachable
                                   (new_store (str_of "u-1"))
                                   (str_of "Tokio") 5 tt)))
              ConnectionError tt _ Hk eq_refl).
    discriminate.
Defined.

Lemma save_twice_stores_once_witness :
  plain_owner (str_of "u-1")
  /\ (length (tagged folded_match (str_of "u-1") three_facts) < 100)%nat
  /\ lookup (PREFIX ++ str_of "0123456789ab") three_facts = None
  /\ save_memory (new_store (str_of "u-1")) (str_of "0123456789ab")
       (str_of "4") (str_of "Prefers Celsius") three_facts
     = (Ok (PREFIX ++ str_of "0123456789ab"),
        three_facts ++ [fact "0123456789ab" "u-1" "Prefers Celsius" "4"])
  /\ save_memory (new_store (str_of "u-1")) (str_of "cdef01234567")
       (str_of "5") (str_of "Prefers Celsius")
       (three_facts ++ [fact "0123456789ab" "u-1" "Prefers Celsius" "4"])
     = (Ok [],
        three_facts ++ [fact "0123456789ab" "u-1" "Prefers Celsius" "4"]).
Proof.
  assert (Hlen : (length (tagged folded_match (str_of "u-1") three_facts)
                  < 100)%nat)
    by (cbn; lia).
  split; [exact plain_owner_u1|]. split; [exact Hlen|].
  split; [reflexivity|].
  pose proof (save_twice_stores_once no_fulltext folded_match oldest_first
                (str_of "u-1") (str_of "Prefers Celsius")
                (str_of "0123456789ab") (str_of "4")
                (str_of "cdef01234567") (str_of "5") three_facts
                folded_match_own oldest_first_reorders
                plain_owner_u1 Hlen eq_refl) as H.
  split; [exact (proj1 H) | exact (proj1 (proj2 H))].
Defined.

(** A content that differs from a stored one in case and outer blanks
    only is not stored again. *)
Example save_same_content_in_other_case :
  save_memory (new_store (str_of "u-1")) (str_of "0123456789ab")
    (str_of "4") (str_of "  LIKES TEA ") three_facts
  = (Ok [], three_facts).
Proof. reflexivity. Qed.

Lemma clear_memories_owner_scoped_witness :
  well_formed three_facts
  /\ engine_reachable no_fulltext three_facts
  /\ clear_memories (new_store (str_of "u-1")) three_facts
     = (Ok 2%Z, [fact "b2" "u-2" "Lives in Lima" "2"]).
Proof.
  split; [exact three_facts_well_formed|].
  split; [apply no_fulltext_reachable|].
  exact (proj1 (clear_memories_owner_scoped no_fulltext folded_match
                  oldest_first (str_of "u-1")
                  three_facts three_facts_well_formed
                  (no_fulltext_reachable three_facts))).
Defined.

(** A hundred facts of owner [u], all different. *)
Definition hundred_facts : keyspace :=
  map (fun i =>
         (PREFIX ++ repeat 107%N (S i),
          {| h_content := repeat 97%N (S i); h_user_id := str_of "u";
             h_timestamp := str_of "0" |}))
      (seq 0 100).

(** C2 (the defect). With a hundred facts stored, a new content saved
    twice is stored twice.  [save_memory] looks for the content in
    [get_all_memories], which asks the index for a hundred hits: on an
    index that returns hits oldest first, the second save does not see
    the record of the first.  Two records hold the content, the owner
    has 102 facts, and the listing still shows a hundred. *)
Lemma save_twice_at_cap_stores_twice :
  let self := new_store (str_of "u") in
  exists ks1 ks2,
    is_duplicate (lower (strip (str_of "Tokio")))
      (contents (facts_of (str_of "u") hundred_facts)) = false
    /\ save_memory self (str_of "aaaaaaaaaaaa") (str_of "1") (str_of "Tokio")
         hundred_facts
       = (Ok (PREFIX ++ str_of "aaaaaaaaaaaa"), ks1)
    /\ save_memory self (str_of "bbbbbbbbbbbb") (str_of "2") (str_of "Tokio")
         ks1
       = (Ok (PREFIX ++ str_of "bbbbbbbbbbbb"), ks2)
    /\ length (facts_of (str_of "u") hundred_facts) = 100%nat
    /\ length (facts_of (str_of "u") ks2) = 102%nat
    /\ length (filter (fun kh => str_eqb (h_content (snd kh)) (str_of "Tokio"))
                 ks2) = 2%nat
    /\ (exists before after,
          get_all_memories self hundred_facts = (Ok before, hundred_facts)
          /\ get_all_memories self ks2 = (Ok after, ks2)
          /\ length before = 100%nat /\ length after = 100%nat).
Proof.
  cbv zeta. eexists. eexists.
  split; [vm_compute; reflexivity|].
  split; [vm_compute; reflexivity|].
  split; [vm_compute; reflexivity|].
  split; [vm_compute; reflexivity|].
  split; [vm_compute; reflexivity|].
  split; [vm_compute; reflexivity|].
  eexists. eexists.
  split; [vm_compute; reflexivity|].
  split; [vm_compute; reflexivity|].
  split; vm_compute; reflexivity.
Qed.

End Scenarios.

Module CatalogScenario.
Import Hybrid HybridFacts.
Local Open Scope Q_scope.

Definition boots : Product :=
  {| p_id := 1; p_name := str_of "Botas TrailBlaze";
     p_category := str_of "Calzado"; p_price := 149 # 1;
     p_description := str_of "Botas impermeables de senderismo." |}.

Definition poles : Product :=
  {| p_id := 2; p_name := str_of "Bastones TrekReady";
     p_category := str_of "Senderismo"; p_price := 59 # 1;
     p_description := str_of "Bastones ligeros de aluminio." |}.

Definition catalog : list Product := [boots; poles].

(** A query whose embedding is nearest to the boots and whose words match
    the poles only. *)
Definition distance (r : Product) : Q := inject_Z (p_id r) / 10.
Definition ts_match (r : Product) : bool := (p_id r =? 2)%Z.
Definition ts_rank_cd (r : Product) : Q := 1 # 10.
Definition format_2f (price : Q) : str :=
  if Qeq_bool price (149 # 1) then str_of "149.00" else str_of "59.00".

Definition sem : list ranked := [(1, 1); (2, 2)]%Z.
Definition kw : list ranked := [(2, 1)]%Z.

Lemma catalog_primary_key : NoDup (map p_id catalog).
Proof.
  cbn [map catalog p_id boots poles].
  repeat (constructor; [cbn [In]; intuition discriminate|]). constructor.
Qed.

Lemma catalog_retrieval :
  _get_relevant_documents catalog distance ts_match ts_rank_cd format_2f
    1 sem kw [format_row format_2f poles].
Proof.
  exists [(2%Z, 1 / inject_Z 62 + 1 / inject_Z 61)].
  split; [|reflexivity].
  split; [|split].
  - exists [boots; poles]. split; [apply Permutation_refl|].
    split; [|reflexivity].
    repeat constructor. apply Qle_bool_imp_le. reflexivity.
  - exists [poles]. split; [apply Permutation_refl|].
    split; [|reflexivity]. repeat constructor.
  - split; [lia|].
    exists [(1%Z, 1 / inject_Z 61 + 0);
            (2%Z, 1 / inject_Z 62 + 1 / inject_Z 61)].
    exists [(2%Z, 1 / inject_Z 62 + 1 / inject_Z 61);
            (1%Z, 1 / inject_Z 61 + 0)].
    split; [reflexivity|]. split; [|reflexivity].
    split; [apply perm_swap|].
    repeat constructor. unfold score_desc. cbn [snd].
    apply Qle_bool_imp_le. reflexivity.
Defined.

Lemma retrieve_at_most_max_results_witness :
  NoDup (map p_id catalog)
  /\ _get_relevant_documents catalog distance ts_match ts_rank_cd format_2f
       1 sem kw [format_row format_2f poles]
  /\ (length [format_row format_2f poles] <= Z.to_nat 1)%nat.
Proof.
  split; [exact catalog_primary_key|]. split; [exact catalog_retrieval|].
  exact (proj1 (retrieve_at_most_max_results catalog distance ts_match
                  ts_rank_cd format_2f catalog_primary_key 1 sem kw _
                  catalog_retrieval)).
Defined.

Example catalog_document :
  page_content (format_row format_2f poles)
  = str_of "- **Bastones TrekReady** (Senderismo, $59.00): Bastones ligeros de aluminio.".
Proof. reflexivity. Qed.

End CatalogScenario.

(* ===================================================================== *)
(** * More on query escaping and the owner clause *)
(* ===================================================================== *)

Module EscapeFacts.

Lemma escape_char_length (c : char) :
  length (escape_char c)
  = (1 + length (filter (fun x => char_in x special_chars) [c]))%nat.
Proof.
  unfold escape_char. cbn [filter].
  destruct (char_in c special_chars); reflexivity.
Qed.

(** X1. [_escape_query] works character by character: the escaping of a
    concatenation is the concatenation of the escapings, and the result
    is longer than the text by the number of its characters that are in
    [special_chars]. *)
Theorem escape_query_concat_and_length (a b : str) :
  _escape_query (a ++ b) = _escape_query a ++ _escape_query b
  /\ length (_escape_query a)
     = (length a + length (filter (fun c => char_in c special_chars) a))%nat.
Proof.
  rewrite !escape_query_flat_map. split.
  - apply flat_map_app.
  - induction a as [|c a IH]; [reflexivity|].
    cbn [flat_map]. rewrite length_app, IH, escape_char_length.
    cbn [filter length]. destruct (char_in c special_chars); cbn [length]; lia.
Qed.

(** X2. [_escape_query] is injective: two texts with the same escaping
    are the same text. *)
Theorem escape_query_injective (a b : str) :
  _escape_query a = _escape_query b -> a = b.
Proof.
  intros H. apply (f_equal unescape) in H.
  rewrite !unescape_escape_query in H. exact H.
Qed.

Lemma escape_query_injective_witness :
  _escape_query (str_of "a-b") = _escape_query ([97; 45] ++ [98])%N
  /\ str_of "a-b" = ([97; 45] ++ [98])%N.
Proof.
  split; [reflexivity|].
  exact (escape_query_injective (str_of "a-b") ([97; 45] ++ [98])%N eq_refl).
Defined.

(** X3. The keywords of a query hold alphanumeric characters only, so
    where no alphanumeric character is in [special_chars] the escaping in
    [search_memories] changes nothing: the text clause of the composed
    query is the keywords themselves joined by [" | "]. *)
Theorem keywords_need_no_escaping {U : UnicodeData}
    (self : RedisMemoryStore) (query : str) :
  (forall c, isalnum c = true -> char_in c special_chars = false) ->
  full_query self (_extract_keywords query)
  = owner_clause self ++ str_of " ("
    ++ join (str_of " | ") (_extract_keywords query) ++ str_of ")".
Proof.
  intros Hal. unfold full_query.
  rewrite (escape_keywords_identity query Hal). reflexivity.
Qed.

Lemma keywords_need_no_escaping_witness :
  (forall c, @isalnum Latin.ucd c = true -> char_in c special_chars = false)
  /\ full_query (new_store (str_of "u-1"))
       (@_extract_keywords Latin.ucd (str_of "Tokio, o Lima?"))
     = str_of "@user_id:{u\-1} (Tokio | Lima)".
Proof.
  split; [exact latin_alnum_not_special|].
  exact (@keywords_need_no_escaping Latin.ucd (new_store (str_of "u-1"))
           (str_of "Tokio, o Lima?") latin_alnum_not_special).
Defined.

Lemma replace_no_hyphen (uid : str) :
  ~ In hyphen uid -> replace_char hyphen [backslash; hyphen] uid = uid.
Proof.
  unfold replace_char. induction uid as [|c uid IH]; intros H; [reflexivity|].
  cbn [flat_map]. destruct (char_eqb c hyphen) eqn:E.
  - apply char_eqb_eq in E. exfalso. apply H. left. exact E.
  - cbn [app]. rewrite IH; [reflexivity|]. intros Hin. apply H. right.
    exact Hin.
Qed.

Lemma unescape_replace_hyphen (uid : str) :
  ~ In backslash uid ->
  unescape (replace_char hyphen [backslash; hyphen] uid) = uid.
Proof.
  unfold unescape, replace_char.
  induction uid as [|c uid IH]; intros H; [reflexivity|].
  assert (Hc : char_eqb c backslash = false).
  { apply N.eqb_neq. intros E. apply H. left. exact E. }
  assert (Hu : ~ In backslash uid) by (intros Hin; apply H; right; exact Hin).
  cbn [flat_map]. destruct (char_eqb c hyphen) eqn:E.
  - apply char_eqb_eq in E. subst c. cbn [app unescape_from].
    change (char_eqb backslash backslash) with true. cbn iota.
    rewrite (IH Hu). reflexivity.
  - cbn [app unescape_from]. rewrite Hc, (IH Hu). reflexivity.
Qed.

Lemma replace_hyphen_is_escape (uid : str) :
  MemRedis.plain_chars uid ->
  replace_char hyphen [backslash; hyphen] uid = _escape_query uid.
Proof.
  rewrite escape_query_flat_map. unfold replace_char.
  induction 1 as [|c uid Hc _ IH]; [reflexivity|].
  cbn [flat_map]. rewrite IH. f_equal. unfold escape_char.
  destruct Hc as [Hc | ->]; [|reflexivity].
  destruct (MemRedisFacts.tag_plain_ordinary c Hc) as (_ & _ & Hh).
  rewrite Hh. destruct (char_in c special_chars) eqn:Hs; [|reflexivity].
  exfalso. apply char_in_In in Hs. cbn in Hs.
  unfold MemRedis.tag_plain in Hc.
  repeat (destruct Hs as [<-|Hs]; [vm_compute in Hc; discriminate|]).
  destruct Hs.
Qed.

(** X4. [__init__] escapes the hyphens of the owner id and nothing else:
    an id without a hyphen goes into the owner clause as it is, whatever
    characters it holds; an id without a backslash is read back from its
    escaped form; and on ids of letters, digits, underscores and hyphens
    the escaped form is the one [_escape_query] gives. *)
Theorem new_store_escapes_hyphens_only (uid : str) :
  (~ In hyphen uid -> _escaped_user_id (new_store uid) = uid)
  /\ (~ In backslash uid -> unescape (_escaped_user_id (new_store uid)) = uid)
  /\ (MemRedis.plain_chars uid ->
      _escaped_user_id (new_store uid) = _escape_query uid).
Proof.
  cbn [_escaped_user_id new_store]. split; [|split].
  - apply replace_no_hyphen.
  - apply unescape_replace_hyphen.
  - apply replace_hyphen_is_escape.
Qed.

Lemma new_store_escapes_hyphens_only_witness :
  ~ In hyphen (str_of "a.b@c")
  /\ owner_clause (new_store (str_of "a.b@c")) = str_of "@user_id:{a.b@c}"
  /\ _escape_query (str_of "a.b@c") = str_of "a\.b\@c".
Proof.
  assert (H : ~ In hyphen (str_of "a.b@c")).
  { cbn. intuition discriminate. }
  split; [exact H|]. split; [|reflexivity].
  unfold owner_clause.
  rewrite (proj1 (new_store_escapes_hyphens_only (str_of "a.b@c")) H).
  reflexivity.
Defined.

End EscapeFacts.

(* ===================================================================== *)
(** * More on the store: listing, saving, clearing *)
(* ===================================================================== *)

Module StoreMore.
Import MemRedis MemRedisFacts.

Section AnyServer.
Context {U : UnicodeData} {St : Type} {R : Server St}.

(** X9. [save_memory] deduplicates only when the listing answers.  When
    the engine rejects the listing query with [ResponseError], the
    listing counts as empty and the content is written without any
    check; when the listing raises another exception, [save_memory]
    raises it and writes nothing. *)
Theorem save_memory_when_listing_fails (self : RedisMemoryStore)
    (hex12 now content : str) (s s' : St) (e : exn) :
  ft_search INDEX_NAME (owner_query self) s = (Raise e, s') ->
  save_memory self hex12 now content s
  = match e with
    | ResponseError =>
        match hset (PREFIX ++ hex12)
                {| h_content := content; h_user_id := user_id self;
                   h_timestamp := now |} s' with
        | (Ok _, s'') => (Ok (PREFIX ++ hex12), s'')
        | (Raise e', s'') => (Raise e', s'')
        end
    | _ => (Raise e, s')
    end.
Proof.
  intros Hft. unfold save_memory. unfold bind at 1.
  rewrite get_all_memories_run, Hft.
  destruct e; reflexivity.
Qed.

(** X11. Without keywords and with a negative [max_results],
    [search_memories] gives the listing without its last [-max_results]
    entries: the bound is a Python slice bound, not a count. *)
Theorem search_negative_cap_drops_from_end (self : RedisMemoryStore)
    (query : str) (max_results : Z) (s : St) :
  _extract_keywords query = [] ->
  (max_results < 0)%Z ->
  search_memories self query max_results s
  = match get_all_memories self s with
    | (Ok all, s') =>
        (Ok (firstn (length all - Z.to_nat (- max_results)) all), s')
    | (Raise e, s') => (Raise e, s')
    end.
Proof.
  intros Hk Hn. rewrite search_memories_fallback by exact Hk.
  destruct (get_all_memories self s) as [[all|e] s']; [|reflexivity].
  unfold slice_upto. destruct (0 <=? max_results)%Z eqn:E; [|reflexivity].
  apply Z.leb_le in E. lia.
Qed.

End AnyServer.

Lemma lookup_replace_key (key k : str) (h : hash) (ks : keyspace) :
  lookup k (replace_key key h ks)
  = if str_eqb key k
    then match lookup key ks with Some _ => Some h | None => None end
    else lookup k ks.
Proof.
  unfold lookup. induction ks as [|[k0 h0] ks IH].
  - cbn. destruct (str_eqb key k); reflexivity.
  - cbn [replace_key find fst snd].
    destruct (str_eqb k0 key) eqn:E0.
    + apply str_eqb_eq in E0. subst k0. cbn [find fst snd].
      destruct (str_eqb key k); reflexivity.
    + cbn [find fst snd]. destruct (str_eqb k0 k) eqn:E1.
      * apply str_eqb_eq in E1. subst k0.
        assert (E : str_eqb key k = false).
        { apply str_eqb_neq. intros ->. rewrite str_eqb_refl in E0.
          discriminate. }
        rewrite E. reflexivity.
      * exact IH.
Qed.

Lemma replace_key_length (key : str) (h : hash) (ks : keyspace) :
  length (replace_key key h ks) = length ks.
Proof.
  rewrite <- (length_map fst), replace_key_keys, length_map. reflexivity.
Qed.

(** A list of strings that holds each once, checked by running. *)
Fixpoint distinct (l : list str) : bool :=
  match l with
  | [] => true
  | x :: l' => negb (str_in x l') && distinct l'
  end.

Lemma distinct_NoDup (l : list str) : distinct l = true -> NoDup l.
Proof.
  induction l as [|x l IH]; cbn [distinct]; intros H; constructor.
  - apply andb_true_iff in H. destruct H as [H _].
    apply negb_true_iff in H. intros Hin.
    assert (E : str_in x l = true).
    { unfold str_in. apply existsb_exists. exists x.
      split; [exact Hin | apply str_eqb_refl]. }
    congruence.
  - apply IH. apply andb_true_iff in H. apply H.
Qed.

Section InMemory.
Context {U : UnicodeData}.
Variable fulltext : Query -> keyspace -> res (list Redis.Document).
Variable tag_match : str -> str -> bool.
Variable hit_order : keyspace -> keyspace.

#[local] Instance more_server : Server keyspace :=
  server fulltext tag_match hit_order.

#[local] Abbreviation listed_for := (listing tag_match hit_order).

Lemma listing_mem (uid : str) (ks : keyspace) :
  plain_owner uid ->
  get_all_memories (new_store uid) ks = (Ok (listed_for uid ks), ks).
Proof. exact (get_all_memories_mem fulltext tag_match hit_order uid ks). Qed.

Lemma save_mem (uid hex12 now content : str) (ks : keyspace) :
  plain_owner uid ->
  save_memory (new_store uid) hex12 now content ks
  = if is_duplicate (lower (strip content)) (listed_for uid ks)
    then (Ok [], ks)
    else
      let h := {| h_content := content; h_user_id := uid;
                  h_timestamp := now |} in
      (Ok (PREFIX ++ hex12),
       match lookup (PREFIX ++ hex12) ks with
       | Some _ => replace_key (PREFIX ++ hex12) h ks
       | None => ks ++ [(PREFIX ++ hex12, h)]
       end).
Proof.
  exact (save_memory_mem fulltext tag_match hit_order uid hex12 now content ks).
Qed.

(** X5. The listing of an owner is what the index matches with the tag
    of the owner clause, not the records whose [user_id] equals the
    owner.  For an owner id of letters, digits, underscores and hyphens:
    [get_all_memories] answers, writes nothing and has at most 100
    entries; each entry is the content of a stored record under the
    [memory:] prefix whose [user_id] the TAG field matches with the
    owner id; and while there are at most 100 such records, each of them
    is listed, whatever [user_id] it was written with. *)
Theorem listing_follows_the_index (uid : str) (ks : keyspace) :
  reorders hit_order ->
  plain_owner uid ->
  exists all,
    get_all_memories (new_store uid) ks = (Ok all, ks)
    /\ (length all <= 100)%nat
    /\ (forall c, In c all ->
          exists key h,
            In (key, h) ks /\ startswith PREFIX key = true
            /\ tag_match uid (h_user_id h) = true /\ h_content h = c)
    /\ ((length (tagged tag_match uid ks) <= 100)%nat ->
        forall key h,
          In (key, h) ks -> startswith PREFIX key = true ->
          tag_match uid (h_user_id h) = true ->
          In (h_content h) all).
Proof.
  intros Ho Hu. exists (listed_for uid ks).
  split; [exact (listing_mem uid ks Hu)|].
  split; [|split].
  - rewrite (listing_length tag_match hit_order uid ks Ho). apply Nat.le_min_l.
  - intros c Hc.
    destruct (listing_sound tag_match hit_order uid ks c Ho Hc)
      as ([key h] & Hin & E).
    apply tagged_In in Hin. destruct Hin as (Hin & Hp & Ht).
    exists key, h. cbn [fst snd] in *. auto.
  - intros Hlen key h Hin Hp Ht.
    apply (Permutation_in _
             (Permutation_sym (listing_all tag_match hit_order uid ks Ho Hlen))).
    unfold contents.
    apply (in_map (fun kh : str * hash => h_content (snd kh)) _ (key, h)).
    apply tagged_In. cbn [fst snd]. auto.
Qed.

Lemma save_memory_outcome (uid hex12 now content : str) (ks : keyspace) :
  plain_owner uid ->
  lookup (PREFIX ++ hex12) ks = None ->
  snd (save_memory (new_store uid) hex12 now content ks) = ks
  \/ snd (save_memory (new_store uid) hex12 now content ks)
     = ks ++ [(PREFIX ++ hex12,
               {| h_content := content; h_user_id := uid;
                  h_timestamp := now |})].
Proof.
  intros Hu Hfresh. rewrite (save_mem uid hex12 now content ks Hu).
  destruct (is_duplicate _ _); [left; reflexivity|].
  right. cbn [snd]. rewrite Hfresh. reflexivity.
Qed.

(** X6. [save_memory] with a key that is not in use touches nothing that
    is stored: every record stays, the keyspace still holds each key
    once, and the facts of every other owner are as before. *)
Theorem save_memory_keeps_other_facts (u1 hex12 now content : str)
    (ks : keyspace) :
  plain_owner u1 ->
  well_formed ks ->
  lookup (PREFIX ++ hex12) ks = None ->
  let ks' := snd (save_memory (new_store u1) hex12 now content ks) in
  well_formed ks'
  /\ (forall kh, In kh ks -> In kh ks')
  /\ (forall u2, u2 <> u1 -> facts_of u2 ks' = facts_of u2 ks).
Proof.
  intros Hu Hwf Hfresh ks'.
  destruct (save_memory_outcome u1 hex12 now content ks Hu Hfresh) as [E|E];
    unfold ks'; rewrite E.
  - repeat split; auto.
  - split; [|split].
    + pose proof (proj1 (mem_commands_well_formed (PREFIX ++ hex12)
                    {| h_content := content; h_user_id := u1;
                       h_timestamp := now |} ks Hwf)) as H.
      unfold mem_hset in H. rewrite Hfresh in H. exact H.
    + intros kh Hin. apply in_or_app. left. exact Hin.
    + intros u2 Hne. unfold facts_of. rewrite owned_by_app.
      cbn [h_user_id].
      assert (Eu : str_eqb u1 u2 = false)
        by (apply str_eqb_neq; congruence).
      rewrite Eu, andb_false_r. apply app_nil_r.
Qed.

(** X7. Two contents that differ once stripped and lowercased are both
    stored.  For an owner id of letters, digits, underscores and
    hyphens, an index that finds a record under the id it was written
    with, room for two more records under the cap of 100, keys that are
    not in use and differ, and neither content in the listing yet: the
    two calls append one record each, and the listing afterwards holds
    both contents and is two entries longer. *)
Theorem save_distinct_contents_stores_both
    (uid c1 c2 hex1 now1 hex2 now2 : str) (ks : keyspace) :
  finds_own_id tag_match ->
  reorders hit_order ->
  plain_owner uid ->
  (length (tagged tag_match uid ks) + 2 <= 100)%nat ->
  lookup (PREFIX ++ hex1) ks = None ->
  lookup (PREFIX ++ hex2) ks = None ->
  hex1 <> hex2 ->
  lower (strip c1) <> lower (strip c2) ->
  is_duplicate (lower (strip c1)) (listed_for uid ks) = false ->
  is_duplicate (lower (strip c2)) (listed_for uid ks) = false ->
  let self := new_store uid in
  let r1 := (PREFIX ++ hex1, {| h_content := c1; h_user_id := uid;
                                h_timestamp := now1 |}) in
  let r2 := (PREFIX ++ hex2, {| h_content := c2; h_user_id := uid;
                                h_timestamp := now2 |}) in
  save_memory self hex1 now1 c1 ks = (Ok (PREFIX ++ hex1), ks ++ [r1])
  /\ save_memory self hex2 now2 c2 (ks ++ [r1])
     = (Ok (PREFIX ++ hex2), (ks ++ [r1]) ++ [r2])
  /\ exists all,
       get_all_memories self ((ks ++ [r1]) ++ [r2])
       = (Ok all, (ks ++ [r1]) ++ [r2])
       /\ In c1 all /\ In c2 all
       /\ length all = (length (listed_for uid ks) + 2)%nat.
Proof.
  intros Hm Ho Hu Hlen Hf1 Hf2 Hhex Hne Hn1 Hn2 self r1 r2.
  assert (Ht1 : tagged tag_match uid (ks ++ [r1])
                = tagged tag_match uid ks ++ [r1])
    by (apply tagged_own_record; [exact Hm | exact Hu | reflexivity]).
  assert (Ht2 : tagged tag_match uid ((ks ++ [r1]) ++ [r2])
                = (tagged tag_match uid ks ++ [r1]) ++ [r2]).
  { unfold r2. rewrite tagged_own_record;
      [rewrite Ht1; reflexivity | exact Hm | exact Hu | reflexivity]. }
  assert (Hl0 : (length (tagged tag_match uid ks) <= 100)%nat) by lia.
  assert (Hl1 : (length (tagged tag_match uid (ks ++ [r1])) <= 100)%nat)
    by (rewrite Ht1, length_app; cbn [length]; lia).
  assert (Hl2 : (length (tagged tag_match uid ((ks ++ [r1]) ++ [r2])) <= 100)%nat)
    by (rewrite Ht2, !length_app; cbn [length]; lia).
  split; [|split].
  - unfold self. rewrite (save_mem uid hex1 now1 c1 ks Hu), Hn1, Hf1.
    reflexivity.
  - unfold self. rewrite (save_mem uid hex2 now2 c2 _ Hu).
    assert (E : is_duplicate (lower (strip c2)) (listed_for uid (ks ++ [r1]))
                = false).
    { rewrite (is_duplicate_perm _ _ _
                 (listing_all tag_match hit_order uid _ Ho Hl1)).
      rewrite Ht1. unfold contents. rewrite map_app.
      unfold r1 at 1. cbn [map snd h_content]. rewrite is_duplicate_app.
      fold (contents (tagged tag_match uid ks)).
      rewrite <- (is_duplicate_perm _ _ _
                    (listing_all tag_match hit_order uid ks Ho Hl0)).
      rewrite Hn2. cbn [orb]. apply str_eqb_neq. exact Hne. }
    rewrite E. cbn zeta. unfold r1. rewrite lookup_app_fresh, Hf2.
    assert (Ek : str_eqb (PREFIX ++ hex1) (PREFIX ++ hex2) = false).
    { apply str_eqb_neq. intros Heq. apply app_inv_head in Heq.
      contradiction. }
    rewrite Ek. reflexivity.
  - exists (listed_for uid ((ks ++ [r1]) ++ [r2])).
    split; [exact (listing_mem uid _ Hu)|].
    pose proof (listing_all tag_match hit_order uid _ Ho Hl2) as Hp.
    rewrite Ht2 in Hp. unfold contents in Hp. rewrite !map_app in Hp.
    unfold r1, r2 in Hp. cbn [map snd h_content] in Hp.
    split; [|split].
    + apply (Permutation_in c1 (Permutation_sym Hp)).
      apply in_or_app. left. apply in_or_app. right. left. reflexivity.
    + apply (Permutation_in c2 (Permutation_sym Hp)).
      apply in_or_app. right. left. reflexivity.
    + rewrite !(listing_length tag_match hit_order) by exact Ho.
      rewrite Ht2, !length_app. cbn [length]. lia.
Qed.

(** X8. [save_memory] does not check that the key it draws is free: when
    the key is in use and the content is not in the listing, the record
    under that key is overwritten, whoever owns it; no record is added
    and every other key keeps its record. *)
Theorem save_memory_overwrites_used_key
    (uid hex12 now content : str) (old : hash) (ks : keyspace) :
  plain_owner uid ->
  lookup (PREFIX ++ hex12) ks = Some old ->
  is_duplicate (lower (strip content)) (listed_for uid ks) = false ->
  exists ks',
    save_memory (new_store uid) hex12 now content ks
    = (Ok (PREFIX ++ hex12), ks')
    /\ length ks' = length ks
    /\ lookup (PREFIX ++ hex12) ks'
       = Some {| h_content := content; h_user_id := uid;
                 h_timestamp := now |}
    /\ (forall k, k <> PREFIX ++ hex12 -> lookup k ks' = lookup k ks).
Proof.
  intros Hu Hold Hnew.
  rewrite (save_mem uid hex12 now content ks Hu), Hnew, Hold.
  cbn zeta. eexists. split; [reflexivity|].
  split; [apply replace_key_length|]. split.
  - rewrite lookup_replace_key, str_eqb_refl, Hold. reflexivity.
  - intros k Hk. rewrite lookup_replace_key.
    assert (E : str_eqb (PREFIX ++ hex12) k = false)
      by (apply str_eqb_neq; congruence).
    rewrite E. reflexivity.
Qed.

Lemma clear_memories_mem (uid : str) (ks : keyspace) :
  plain_owner uid -> well_formed ks ->
  clear_memories (new_store uid) ks
  = (Ok (Z.of_nat (length (facts_of uid ks))),
     filter (fun kh => negb (is_fact_of uid kh)) ks).
Proof.
  intros Hu Hwf. unfold clear_memories. unfold bind at 1.
  rewrite (listing_mem uid ks Hu).
  unfold bind at 1. cbn [scan_iter more_server server]. unfold mem_scan_iter.
  pose proof (clear_loop_mem fulltext tag_match hit_order uid
                (filter (glob_match (PREFIX ++ str_of "*")) (map fst ks))
                0%Z ks Hwf) as Hloop.
  unfold clear_server in Hloop. cbn zeta in Hloop.
  unfold more_server. rewrite Hloop.
  assert (E : filter
                (fun kh => negb (targeted uid
                   (filter (glob_match (PREFIX ++ str_of "*")) (map fst ks))
                   kh)) ks
              = filter (fun kh => negb (is_fact_of uid kh)) ks).
  { apply filter_ext_in. intros kh Hin. f_equal.
    unfold targeted, is_fact_of. f_equal.
    destruct (startswith PREFIX (fst kh)) eqn:Hp.
    - apply str_in_In. apply filter_In. split.
      + apply in_map. exact Hin.
      + rewrite glob_prefix_star. exact Hp.
    - destruct (str_in _ _) eqn:Hs; [|reflexivity].
      apply str_in_In in Hs. apply filter_In in Hs.
      rewrite glob_prefix_star in Hs. destruct Hs. congruence. }
  rewrite E. f_equal. f_equal. rewrite facts_of_filter.
  pose proof (filter_length (is_fact_of uid) ks) as Hlen.
  cbn [Z.add]. f_equal. lia.
Qed.

(** X10. After [clear_memories] a second [clear_memories] deletes
    nothing and returns 0, and the listing shows no record written with
    the owner's [user_id].  For an owner id of letters, digits,
    underscores and hyphens on a keyspace that holds each key once: what
    the listing still shows are contents of records of other [user_id]s
    that the TAG field matches with the owner id, and it is empty when
    the index matches none of them. *)
Theorem clear_memories_leaves_other_ids (uid : str) (ks : keyspace) :
  reorders hit_order ->
  plain_owner uid ->
  well_formed ks ->
  let ks' := snd (clear_memories (new_store uid) ks) in
  clear_memories (new_store uid) ks' = (Ok 0%Z, ks')
  /\ exists all,
       get_all_memories (new_store uid) ks' = (Ok all, ks')
       /\ (forall c, In c all ->
             exists key h,
               In (key, h) ks /\ h_user_id h <> uid
               /\ tag_match uid (h_user_id h) = true /\ h_content h = c)
       /\ ((forall key h, In (key, h) ks -> h_user_id h <> uid ->
                          tag_match uid (h_user_id h) = false) ->
           all = []).
Proof.
  intros Ho Hu Hwf ks'.
  assert (E : ks' = filter (fun kh => negb (is_fact_of uid kh)) ks).
  { unfold ks'. rewrite (clear_memories_mem uid ks Hu Hwf). reflexivity. }
  clearbody ks'.
  assert (Hnone : facts_of uid ks' = []).
  { rewrite facts_of_filter, E, filter_filter_and.
    apply filter_none. intros kh _. destruct (is_fact_of uid kh); reflexivity. }
  assert (Hshown : forall c, In c (listed_for uid ks') ->
             exists key h,
               In (key, h) ks /\ h_user_id h <> uid
               /\ tag_match uid (h_user_id h) = true /\ h_content h = c).
  { intros c Hc.
    destruct (listing_sound tag_match hit_order uid ks' c Ho Hc)
      as ([key h] & Hin & Ec).
    apply tagged_In in Hin. destruct Hin as (Hin & Hp & Ht).
    rewrite E in Hin. apply filter_In in Hin. destruct Hin as [Hin Hf].
    exists key, h. cbn [fst snd] in *. repeat split; auto.
    intros Eu. apply negb_true_iff in Hf. unfold is_fact_of in Hf.
    cbn [fst snd] in Hf. rewrite Hp, Eu, str_eqb_refl in Hf. discriminate. }
  split.
  - rewrite (clear_memories_mem uid ks' Hu)
      by (rewrite E; apply well_formed_filter; exact Hwf).
    rewrite Hnone. cbn [length Z.of_nat]. apply f_equal2; [reflexivity|].
    apply filter_all. intros kh Hin.
    apply negb_true_iff. destruct (is_fact_of uid kh) eqn:Hf; [|reflexivity].
    assert (Hin' : In kh (facts_of uid ks'))
      by (rewrite facts_of_filter; apply filter_In; auto).
    rewrite Hnone in Hin'. destruct Hin'.
  - exists (listed_for uid ks'). split; [exact (listing_mem uid ks' Hu)|].
    split; [exact Hshown|].
    intros Hexact. destruct (listed_for uid ks') as [|c rest] eqn:El;
      [reflexivity|].
    exfalso. destruct (Hshown c (or_introl eq_refl))
      as (key & h & Hin & Hne & Ht & _).
    rewrite (Hexact key h Hin Hne) in Ht. discriminate.
Qed.

(** X24. Past the cap the duplicate check cannot see every fact, in
    whatever order the engine returns its hits.  For an owner id of
    letters, digits, underscores and hyphens with more than 100 records
    that the index lists for it, all different once stripped and
    lowercased: some stored content, saved again under a key that is not
    in use, is stored a second time. *)
Theorem dedup_misses_beyond_cap (uid hex12 now : str) (ks : keyspace) :
  reorders hit_order ->
  plain_owner uid ->
  (100 < length (tagged tag_match uid ks))%nat ->
  NoDup (map (fun kh => lower (strip (h_content (snd kh))))
           (tagged tag_match uid ks)) ->
  lookup (PREFIX ++ hex12) ks = None ->
  exists kh,
    In kh (tagged tag_match uid ks)
    /\ save_memory (new_store uid) hex12 now (h_content (snd kh)) ks
       = (Ok (PREFIX ++ hex12),
          ks ++ [(PREFIX ++ hex12,
                  {| h_content := h_content (snd kh); h_user_id := uid;
                     h_timestamp := now |})]).
Proof.
  intros Ho Hu Hlen Hnd Hfresh.
  set (norm := fun kh : str * hash => lower (strip (h_content (snd kh)))) in *.
  set (hits := hit_order (tagged tag_match uid ks)).
  assert (Hp : Permutation hits (tagged tag_match uid ks)) by apply Ho.
  assert (Hlen' : (100 < length hits)%nat)
    by (rewrite (Permutation_length Hp); exact Hlen).
  assert (Hnd' : NoDup (map norm hits)).
  { apply (Permutation_NoDup (Permutation_sym (Permutation_map norm Hp))).
    exact Hnd. }
  destruct (skipn 100 hits) as [|kh rest] eqn:Hskip.
  { apply (f_equal (@length _)) in Hskip. rewrite length_skipn in Hskip.
    cbn [length] in Hskip. lia. }
  assert (Hsplit : hits = firstn 100 hits ++ kh :: rest)
    by (rewrite <- Hskip; symmetry; apply firstn_skipn).
  exists kh. split.
  - apply (Permutation_in kh Hp). rewrite Hsplit. apply in_or_app.
    right. left. reflexivity.
  - rewrite (save_mem uid hex12 now (h_content (snd kh)) ks Hu).
    assert (Hnew : is_duplicate (lower (strip (h_content (snd kh))))
                     (listed_for uid ks) = false).
    { destruct (is_duplicate _ _) eqn:Hd; [|reflexivity]. exfalso.
      apply is_duplicate_In in Hd. destruct Hd as (mem & Hin & Hn).
      unfold listing, contents in Hin. fold hits in Hin.
      apply in_map_iff in Hin. destruct Hin as (kh' & Ec & Hin).
      rewrite Hsplit, map_app in Hnd'. cbn [map] in Hnd'.
      apply NoDup_remove_2 in Hnd'. apply Hnd'. apply in_or_app. left.
      apply in_map_iff. exists kh'. split; [|exact Hin].
      unfold norm. rewrite Ec. exact Hn. }
    rewrite Hnew, Hfresh. reflexivity.
Qed.

End InMemory.

End StoreMore.

Module StoreScenarios.
Import MemRedis MemRedisFacts Scenarios StoreMore.

#[local] Instance latin_tables : UnicodeData := Latin.ucd.
#[local] Instance plain_server : Server keyspace :=
  server no_fulltext folded_match oldest_first.

Lemma plain_owner_u2 : plain_owner (str_of "u-2").
Proof.
  split; [discriminate|]. unfold plain_chars.
  repeat (constructor; [(left; reflexivity) || (right; reflexivity)|]).
  constructor.
Qed.

Lemma plain_owner_Alice : plain_owner (str_of "Alice").
Proof.
  split; [discriminate|]. unfold plain_chars.
  repeat (constructor; [(left; reflexivity) || (right; reflexivity)|]).
  constructor.
Qed.

(** A fact written by owner [alice] and a fact written by owner [Alice]. *)
Definition two_spellings : keyspace :=
  [ fact "a1" "alice" "Likes tea" "1";
    fact "b2" "Alice" "Lives in Lima" "2" ].

Lemma two_spellings_well_formed : well_formed two_spellings.
Proof.
  unfold well_formed. cbn [map fst two_spellings fact].
  repeat (constructor; [cbn [In]; intuition discriminate|]).
  constructor.
Qed.

(** On a TAG field that folds case the listing of [Alice] shows the fact
    of [alice]. *)
Lemma listing_follows_the_index_witness :
  plain_owner (str_of "Alice")
  /\ folded_match (str_of "Alice") (str_of "alice") = true
  /\ exists all,
       get_all_memories (new_store (str_of "Alice")) two_spellings
       = (Ok all, two_spellings)
       /\ In (str_of "Likes tea") all.
Proof.
  split; [exact plain_owner_Alice|]. split; [reflexivity|].
  destruct (listing_follows_the_index no_fulltext folded_match oldest_first
              (str_of "Alice") two_spellings oldest_first_reorders
              plain_owner_Alice) as (all & Hall & _ & _ & Hshown).
  exists all. split; [exact Hall|].
  refine (Hshown _ (PREFIX ++ str_of "a1")
            (snd (fact "a1" "alice" "Likes tea" "1")) _ eq_refl eq_refl).
  - cbn. lia.
  - left. reflexivity.
Defined.

Lemma save_memory_keeps_other_facts_witness :
  plain_owner (str_of "u-1")
  /\ well_formed three_facts
  /\ lookup (PREFIX ++ str_of "0123456789ab") three_facts = None
  /\ facts_of (str_of "u-2")
       (snd (save_memory (new_store (str_of "u-1")) (str_of "0123456789ab")
               (str_of "4") (str_of "Prefers Celsius") three_facts))
     = facts_of (str_of "u-2") three_facts.
Proof.
  split; [exact plain_owner_u1|]. split; [exact three_facts_well_formed|].
  split; [reflexivity|].
  refine (proj2 (proj2 (save_memory_keeps_other_facts no_fulltext folded_match
                          oldest_first
                          (str_of "u-1") (str_of "0123456789ab") (str_of "4")
                          (str_of "Prefers Celsius") three_facts
                          plain_owner_u1 three_facts_well_formed eq_refl))
            (str_of "u-2") _).
  discriminate.
Defined.

Lemma save_distinct_contents_stores_both_witness :
  plain_owner (str_of "u-1")
  /\ lower (strip (str_of "Prefers Celsius"))
     <> lower (strip (str_of "Speaks Spanish"))
  /\ exists all,
       get_all_memories (new_store (str_of "u-1"))
         ((three_facts ++ [fact "0123456789ab" "u-1" "Prefers Celsius" "4"])
          ++ [fact "cdef01234567" "u-1" "Speaks Spanish" "5"])
       = (Ok all,
          (three_facts ++ [fact "0123456789ab" "u-1" "Prefers Celsius" "4"])
          ++ [fact "cdef01234567" "u-1" "Speaks Spanish" "5"])
       /\ In (str_of "Prefers Celsius") all
       /\ In (str_of "Speaks Spanish") all.
Proof.
  assert (Hne : lower (strip (str_of "Prefers Celsius"))
                <> lower (strip (str_of "Speaks Spanish")))
    by (intros H; vm_compute in H; discriminate).
  assert (Hlen : (length (tagged folded_match (str_of "u-1") three_facts) + 2
                  <= 100)%nat)
    by (cbn; lia).
  assert (Hhex : str_of "0123456789ab" <> str_of "cdef01234567")
    by discriminate.
  split; [exact plain_owner_u1|]. split; [exact Hne|].
  destruct (proj2 (proj2 (save_distinct_contents_stores_both no_fulltext
                            folded_match oldest_first
                            (str_of "u-1") (str_of "Prefers Celsius")
                            (str_of "Speaks Spanish")
                            (str_of "0123456789ab") (str_of "4")
                            (str_of "cdef01234567") (str_of "5") three_facts
                            folded_match_own oldest_first_reorders
                            plain_owner_u1 Hlen eq_refl eq_refl Hhex Hne
                            eq_refl eq_refl)))
    as (all & Hall & H1 & H2 & _).
  exists all. split; [exact Hall|]. split; [exact H1 | exact H2].
Defined.

(** Owner [u-2] draws the key of a fact of owner [u-1]. *)
Lemma save_memory_overwrites_used_key_witness :
  plain_owner (str_of "u-2")
  /\ lookup (PREFIX ++ str_of "a1") three_facts
     = Some (snd (fact "a1" "u-1" "Likes tea" "1"))
  /\ exists ks',
       save_memory (new_store (str_of "u-2")) (str_of "a1") (str_of "9")
         (str_of "Runs marathons") three_facts
       = (Ok (PREFIX ++ str_of "a1"), ks')
       /\ lookup (PREFIX ++ str_of "a1") ks'
          = Some (snd (fact "a1" "u-2" "Runs marathons" "9"))
       /\ facts_of (str_of "u-1") ks'
          = [fact "c3" "u-1" "Lives in Tokio" "3"].
Proof.
  split; [exact plain_owner_u2|]. split; [reflexivity|].
  assert (Hnew : is_duplicate (lower (strip (str_of "Runs marathons")))
                   (listing folded_match oldest_first (str_of "u-2") three_facts)
                 = false) by reflexivity.
  destruct (save_memory_overwrites_used_key no_fulltext folded_match
              oldest_first
              (str_of "u-2") (str_of "a1") (str_of "9")
              (str_of "Runs marathons")
              (snd (fact "a1" "u-1" "Likes tea" "1")) three_facts
              plain_owner_u2 eq_refl Hnew) as (ks' & Hs & _ & Hl & _).
  exists ks'. split; [exact Hs|]. split; [exact Hl|].
  vm_compute in Hs. inversion Hs. reflexivity.
Defined.

(** An owner id with a dot: the owner clause is no tag clause that the
    engine reads, and the engine rejects the query. *)
Lemma save_memory_when_listing_fails_witness :
  ft_search INDEX_NAME (owner_query (new_store (str_of "a.b")))
    [fact "z9" "a.b" "Likes tea" "1"]
  = (Raise ResponseError, [fact "z9" "a.b" "Likes tea" "1"])
  /\ save_memory (new_store (str_of "a.b")) (str_of "y8") (str_of "2")
       (str_of "Likes tea") [fact "z9" "a.b" "Likes tea" "1"]
     = (Ok (PREFIX ++ str_of "y8"),
        [fact "z9" "a.b" "Likes tea" "1"; fact "y8" "a.b" "Likes tea" "2"]).
Proof.
  split; [reflexivity|].
  exact (save_memory_when_listing_fails (new_store (str_of "a.b"))
           (str_of "y8") (str_of "2") (str_of "Likes tea")
           [fact "z9" "a.b" "Likes tea" "1"] _ ResponseError eq_refl).
Defined.

(** [Alice] clears her memories: her fact goes, the fact of [alice]
    stays and is what her listing shows afterwards. *)
Lemma clear_memories_leaves_other_ids_witness :
  plain_owner (str_of "Alice")
  /\ well_formed two_spellings
  /\ clear_memories (new_store (str_of "Alice")) two_spellings
     = (Ok 1%Z, [fact "a1" "alice" "Likes tea" "1"])
  /\ clear_memories (new_store (str_of "Alice"))
       [fact "a1" "alice" "Likes tea" "1"]
     = (Ok 0%Z, [fact "a1" "alice" "Likes tea" "1"])
  /\ get_all_memories (new_store (str_of "Alice"))
       [fact "a1" "alice" "Likes tea" "1"]
     = (Ok [str_of "Likes tea"], [fact "a1" "alice" "Likes tea" "1"]).
Proof.
  split; [exact plain_owner_Alice|]. split; [exact two_spellings_well_formed|].
  split; [reflexivity|]. split; [|reflexivity].
  exact (proj1 (clear_memories_leaves_other_ids no_fulltext folded_match
                  oldest_first (str_of "Alice") two_spellings
                  oldest_first_reorders plain_owner_Alice
                  two_spellings_well_formed)).
Defined.

Lemma search_negative_cap_drops_from_end_witness :
  _extract_keywords (str_of "   ") = []
  /\ (-1 < 0)%Z
  /\ search_memories (new_store (str_of "u-1")) (str_of "   ") (-1) three_facts
     = (Ok [str_of "Likes tea"], three_facts).
Proof.
  split; [reflexivity|]. split; [lia|].
  exact (search_negative_cap_drops_from_end (new_store (str_of "u-1"))
           (str_of "   ") (-1) three_facts eq_refl eq_refl).
Defined.

(** A hundred and one facts of owner [u], all different. *)
Definition over_the_cap : keyspace :=
  map (fun i =>
         (PREFIX ++ repeat 107%N (S i),
          {| h_content := repeat 97%N (S i); h_user_id := str_of "u";
             h_timestamp := str_of "0" |}))
      (seq 0 101).

Lemma plain_owner_u : plain_owner (str_of "u").
Proof.
  split; [discriminate|]. unfold plain_chars.
  repeat (constructor; [(left; reflexivity) || (right; reflexivity)|]).
  constructor.
Qed.

Lemma dedup_misses_beyond_cap_witness :
  plain_owner (str_of "u")
  /\ (100 < length (tagged folded_match (str_of "u") over_the_cap))%nat
  /\ lookup (PREFIX ++ str_of "aaaaaaaaaaaa") over_the_cap = None
  /\ exists kh,
       In kh over_the_cap
       /\ save_memory (new_store (str_of "u")) (str_of "aaaaaaaaaaaa")
            (str_of "1") (h_content (snd kh)) over_the_cap
          = (Ok (PREFIX ++ str_of "aaaaaaaaaaaa"),
             over_the_cap
             ++ [(PREFIX ++ str_of "aaaaaaaaaaaa",
                  {| h_content := h_content (snd kh);
                     h_user_id := str_of "u";
                     h_timestamp := str_of "1" |})]).
Proof.
  assert (Hlen : (100 < length (tagged folded_match (str_of "u") over_the_cap))%nat)
    by (vm_compute; lia).
  assert (Hnd : NoDup (map (fun kh => lower (strip (h_content (snd kh))))
                         (tagged folded_match (str_of "u") over_the_cap)))
    by (apply distinct_NoDup; vm_compute; reflexivity).
  assert (Hfresh : lookup (PREFIX ++ str_of "aaaaaaaaaaaa") over_the_cap = None)
    by (vm_compute; reflexivity).
  split; [exact plain_owner_u|]. split; [exact Hlen|]. split; [exact Hfresh|].
  destruct (dedup_misses_beyond_cap no_fulltext folded_match oldest_first
              (str_of "u") (str_of "aaaaaaaaaaaa") (str_of "1") over_the_cap
              oldest_first_reorders plain_owner_u Hlen Hnd Hfresh)
    as (kh & Hin & Hsave).
  exists kh. split; [|exact Hsave].
  apply tagged_In in Hin. apply Hin.
Defined.

End StoreScenarios.

(* ===================================================================== *)
(** * Fact extraction and the chat around the store *)
(* ===================================================================== *)

Module Chat.

(** What [json.loads] returns. *)
#[warnings="-register-all"]
Inductive json : Type :=
| JNull
| JBool (b : bool)
| JNumber (lexeme : str)
| JString (s : str)
| JArray (items : list json)
| JObject (members : list (str * json)).

(** How [json.loads] ends on a string: with a value, with
    [json.JSONDecodeError] or another [ValueError] on a text it does not
    decode, or with [RecursionError] on a text nested deeper than the
    interpreter lets the decoder recurse. *)
Inductive loaded : Type :=
| Loaded (value : json)
| Loads_JSONDecodeError
| Loads_RecursionError.

(** The exceptions that leave [extract_facts]: its [except] clause is for
    [json.JSONDecodeError] and [ValueError] only. *)
Inductive error : Type :=
| IndexError
| RecursionError.

(** How the parsing part of [extract_facts] ends: it returns, or an
    exception leaves it: the [IndexError] of
    [cleaned.split("\n", 1)[1]], or the [RecursionError] of
    [json.loads]. *)
Inductive outcome : Type :=
| Returned (facts : list str)
| Raised (e : error).

Definition newline : char := 10%N.
Definition backtick : char := 96%N.
Definition fence : str := [backtick; backtick; backtick].

(** The text before and after the first occurrence of [sep]. *)
Fixpoint split_once (sep s : str) : option (str * str) :=
  match s with
  | [] => if startswith sep [] then Some ([], []) else None
  | c :: s' =>
      if startswith sep s then Some ([], skipn (length sep) s)
      else match split_once sep s' with
           | Some (before, after) => Some (c :: before, after)
           | None => None
           end
  end.

(** The text before and after the last occurrence of [sep]. *)
Definition rsplit_once (sep s : str) : option (str * str) :=
  match split_once (rev sep) (rev s) with
  | Some (after, before) => Some (rev before, rev after)
  | None => None
  end.

(** [cleaned.split("\n", 1)[1]]; [None] is the [IndexError]. *)
Definition after_first_line (cleaned : str) : option str :=
  match split_once [newline] cleaned with
  | Some (_, rest) => Some rest
  | None => None
  end.

(** [rest.rsplit(fence, 1)[0]]. *)
Definition before_last_fence (rest : str) : str :=
  match rsplit_once fence rest with
  | Some (before, _) => before
  | None => rest
  end.

Section ExtractFacts.
Context {U : UnicodeData}.

(** [json.loads], the decoder of the standard library. *)
Variable json_loads : str -> loaded.

(** The string handed to [json.loads]: the reply stripped, and without
    its markdown fence when it starts with one. *)
Definition cleaned_reply (raw : str) : option str :=
  let cleaned := strip raw in
  if startswith fence cleaned
  then match after_first_line cleaned with
       | Some rest => Some (strip (before_last_fence rest))
       | None => None
       end
  else Some cleaned.

(** [isinstance(f, str) and f.strip()] *)
Definition is_fact (f : json) : bool :=
  match f with
  | JString s => match strip s with [] => false | _ :: _ => true end
  | _ => false
  end.

Definition as_str (f : json) : list str :=
  match f with JString s => [s] | _ => [] end.

(** [extract_facts], from the reply [raw] of the chain on. *)
Definition extract_facts (raw : str) : outcome :=
  match cleaned_reply raw with
  | None => Raised IndexError
  | Some cleaned =>
      match json_loads cleaned with
      | Loaded (JArray facts) =>
          Returned (flat_map as_str (filter is_fact facts))
      | Loaded _ => Returned []
      | Loads_JSONDecodeError => Returned []
      | Loads_RecursionError => Raised RecursionError
      end
  end.

End ExtractFacts.

(** The part of [MemoryEnhancedChat] that the store is used through. *)
Record MemoryEnhancedChat : Type := {
  system_prompt : str;
  memory_store : RedisMemoryStore
}.

Definition memory_header : str :=
  [newline; newline] ++ str_of "Informacion recordada sobre este usuario:"
  ++ [newline].

Definition memory_footer : str :=
  [newline; newline]
  ++ str_of "Usa esta informacion para personalizar tu respuesta.".

Section ChatStore.
Context {U : UnicodeData} {St : Type} {R : Server St}.

(** [MemoryEnhancedChat._build_system_with_memories]; [search_memories]
    is called with its default [max_results = 5]. *)
Definition _build_system_with_memories (self : MemoryEnhancedChat)
    (query : str) : M St str :=
  memories <- search_memories (memory_store self) query 5 ;;
  match memories with
  | [] => ret (system_prompt self)
  | _ :: _ =>
      let memory_block :=
        join [newline] (map (fun m => str_of "- " ++ m) memories) in
      ret (system_prompt self ++ memory_header ++ memory_block
           ++ memory_footer)
  end.

(** Step 5 of [MemoryEnhancedChat.chat]:
    [for fact in facts: self.memory_store.save_memory(fact)].
    [draw i] is what the [i]-th call reads from [uuid] and [time]. *)
Fixpoint save_facts (self : MemoryEnhancedChat) (draw : nat -> str * str)
    (i : nat) (facts : list str) : M St unit :=
  match facts with
  | [] => ret tt
  | fact :: rest =>
      save_memory (memory_store self) (fst (draw i)) (snd (draw i)) fact ;;;
      save_facts self draw (S i) rest
  end.

End ChatStore.

End Chat.

Module ChatFacts.
Import Chat.

Lemma split_once_char_absent (c : char) (s : str) :
  ~ In c s -> split_once [c] s = None.
Proof.
  induction s as [|x s IH]; intros H; [reflexivity|].
  cbn [split_once startswith].
  assert (E : char_eqb c x = false).
  { apply N.eqb_neq. intros ->. apply H. left. reflexivity. }
  rewrite E. cbn [andb]. rewrite IH; [reflexivity|].
  intros Hin. apply H. right. exact Hin.
Qed.

Lemma split_once_char_first (c : char) (a b : str) :
  ~ In c a -> split_once [c] (a ++ c :: b) = Some (a, b).
Proof.
  induction a as [|x a IH]; intros H.
  - cbn [app split_once startswith]. rewrite char_eqb_refl. reflexivity.
  - cbn [app split_once startswith].
    assert (E : char_eqb c x = false).
    { apply N.eqb_neq. intros ->. apply H. left. reflexivity. }
    rewrite E. cbn [andb]. rewrite IH; [reflexivity|].
    intros Hin. apply H. right. exact Hin.
Qed.

Lemma split_once_char_present (c : char) (s : str) :
  In c s -> exists a b, split_once [c] s = Some (a, b).
Proof.
  induction s as [|x s IH]; intros H; [destruct H|].
  cbn [split_once startswith].
  destruct (char_eqb c x) eqn:E; cbn [andb].
  - eauto.
  - destruct H as [->|H]; [rewrite char_eqb_refl in E; discriminate|].
    destruct (IH H) as (a & b & ->). eauto.
Qed.

Lemma rsplit_once_fence_suffix (body : str) :
  rsplit_once fence (body ++ fence) = Some (body, []).
Proof.
  unfold rsplit_once. rewrite rev_app_distr.
  change (rev fence) with fence.
  assert (E : split_once fence (fence ++ rev body) = Some ([], rev body)).
  { cbn [fence app split_once].
    change (startswith [backtick; backtick; backtick]
              (backtick :: backtick :: backtick :: rev body)) with true.
    reflexivity. }
  rewrite E. rewrite rev_involutive. reflexivity.
Qed.

Section StripFacts.
Context {U : UnicodeData}.

Lemma lstrip_starts (c : char) (s : str) :
  isspace c = false -> lstrip (c :: s) = c :: s.
Proof. intros H. cbn [lstrip]. rewrite H. reflexivity. Qed.

Lemma rstrip_ends (s : str) (c : char) :
  isspace c = false -> rstrip (s ++ [c]) = s ++ [c].
Proof.
  intros H. unfold rstrip. rewrite rev_app_distr. cbn [rev app].
  rewrite (lstrip_starts c (rev s) H). cbn [rev].
  rewrite rev_involutive. reflexivity.
Qed.

(** A text that starts and ends with characters that are not whitespace
    is its own [strip]. *)
Lemma strip_tight (c d : char) (s : str) :
  isspace c = false -> isspace d = false ->
  strip (c :: s ++ [d]) = c :: s ++ [d].
Proof.
  intros Hc Hd. unfold strip. rewrite (lstrip_starts c _ Hc).
  change (c :: s ++ [d]) with ((c :: s) ++ [d]).
  apply rstrip_ends. exact Hd.
Qed.

Lemma strip_fenced (m : str) :
  isspace backtick = false -> strip (fence ++ m ++ fence) = fence ++ m ++ fence.
Proof.
  intros Hb.
  assert (E : fence ++ m ++ fence
              = backtick :: (backtick :: backtick :: m ++ [backtick; backtick])
                ++ [backtick]).
  { unfold fence. cbn [app]. do 3 f_equal. rewrite <- app_assoc.
    reflexivity. }
  rewrite E. apply strip_tight; exact Hb.
Qed.

End StripFacts.

Section ExtractFactsFacts.
Context {U : UnicodeData}.
Variable json_loads : str -> loaded.

(** X12. What [extract_facts] returns are the strings of the JSON array
    of the reply that are not blank: a string is returned exactly when it
    is an item of the array and its [strip()] is not empty.  When the
    cleaned reply is no JSON, or is JSON but no array, the empty list is
    returned. *)
Theorem extract_facts_returns_nonblank (raw : str) (facts : list str) :
  extract_facts json_loads raw = Returned facts ->
  exists cleaned,
    cleaned_reply raw = Some cleaned
    /\ ((exists items,
            json_loads cleaned = Loaded (JArray items)
            /\ forall f, In f facts <-> In (JString f) items /\ strip f <> [])
        \/ ((forall items, json_loads cleaned <> Loaded (JArray items))
            /\ facts = [])).
Proof.
  unfold extract_facts. intros H.
  destruct (cleaned_reply raw) as [cleaned|]; [|discriminate].
  exists cleaned. split; [reflexivity|].
  destruct (json_loads cleaned) as [[| | | |items|]| |];
    inversion H; subst; try (right; split; [discriminate | reflexivity]).
  left. exists items. split; [reflexivity|]. intros f. split.
  - intros Hf. apply in_flat_map in Hf. destruct Hf as (item & Hitem & Hs).
    apply filter_In in Hitem. destruct Hitem as [Hitem Hfact].
    destruct item; cbn [as_str] in Hs; try (now destruct Hs).
    destruct Hs as [<-|[]]. split; [exact Hitem|].
    cbn [is_fact] in Hfact. destruct (strip s); [discriminate | discriminate].
  - intros [Hitem Hne]. apply in_flat_map. exists (JString f). split.
    + apply filter_In. split; [exact Hitem|]. cbn [is_fact].
      destruct (strip f); [congruence | reflexivity].
    + left. reflexivity.
Qed.

(** X13. The exceptions that leave [extract_facts], which its [except]
    clause does not catch.  It raises [IndexError] exactly on a reply
    that, stripped, starts with a markdown fence and holds no newline
    (there is no text after the first line), and [RecursionError]
    exactly when [json.loads] raises it on the cleaned reply.  On every
    other reply it returns. *)
Theorem extract_facts_uncaught_errors (raw : str) :
  (extract_facts json_loads raw = Raised IndexError
   <-> startswith fence (strip raw) = true /\ ~ In newline (strip raw))
  /\ (extract_facts json_loads raw = Raised RecursionError
      <-> exists cleaned,
            cleaned_reply raw = Some cleaned
            /\ json_loads cleaned = Loads_RecursionError)
  /\ ((exists facts, extract_facts json_loads raw = Returned facts)
      <-> exists cleaned,
            cleaned_reply raw = Some cleaned
            /\ json_loads cleaned <> Loads_RecursionError).
Proof.
  split; [|split].
  - unfold extract_facts, cleaned_reply, after_first_line. split.
    + intros H. destruct (startswith fence (strip raw)) eqn:Hf.
      * split; [reflexivity|]. intros Hin.
        destruct (split_once_char_present newline _ Hin) as (a & b & E).
        rewrite E in H.
        destruct (json_loads _) as [[| | | |items|]| |]; discriminate.
      * destruct (json_loads _) as [[| | | |items|]| |]; discriminate.
    + intros [Hf Hn]. rewrite Hf, (split_once_char_absent newline _ Hn).
      reflexivity.
  - unfold extract_facts. split.
    + intros H. destruct (cleaned_reply raw) as [cleaned|]; [|discriminate].
      exists cleaned. split; [reflexivity|].
      destruct (json_loads cleaned) as [[| | | |items|]| |];
        try discriminate. reflexivity.
    + intros (cleaned & -> & ->). reflexivity.
  - unfold extract_facts. split.
    + intros [facts H].
      destruct (cleaned_reply raw) as [cleaned|]; [|discriminate].
      exists cleaned. split; [reflexivity|]. intros E. rewrite E in H.
      discriminate.
    + intros (cleaned & -> & Hne).
      destruct (json_loads cleaned) as [[| | | |items|]| |];
        try (eexists; reflexivity). congruence.
Qed.

(** X14. A reply that is a fenced block, the fence line, a newline, a
    body and the closing fence, is parsed as its body stripped: the
    fence line and the closing fence are cut off before [json.loads]. *)
Theorem fenced_reply_is_its_body (lang body : str) :
  isspace backtick = false ->
  ~ In newline lang ->
  cleaned_reply (fence ++ lang ++ newline :: body ++ fence)
  = Some (strip body)
  /\ extract_facts json_loads (fence ++ lang ++ newline :: body ++ fence)
     = match json_loads (strip body) with
       | Loaded (JArray facts) =>
           Returned (flat_map as_str (filter is_fact facts))
       | Loads_RecursionError => Raised RecursionError
       | _ => Returned []
       end.
Proof.
  intros Hb Hl.
  assert (Hc : cleaned_reply (fence ++ lang ++ newline :: body ++ fence)
               = Some (strip body)).
  { unfold cleaned_reply.
    assert (Hs : strip (fence ++ lang ++ newline :: body ++ fence)
                 = fence ++ lang ++ newline :: body ++ fence).
    { replace (lang ++ newline :: body ++ fence)
        with ((lang ++ newline :: body) ++ fence)
        by (rewrite <- app_assoc; reflexivity).
      apply strip_fenced. exact Hb. }
    rewrite Hs. rewrite startswith_app. unfold after_first_line.
    rewrite app_assoc.
    rewrite (split_once_char_first newline (fence ++ lang) (body ++ fence)).
    - unfold before_last_fence. rewrite rsplit_once_fence_suffix.
      reflexivity.
    - intros Hin. apply in_app_or in Hin. destruct Hin as [Hin|Hin].
      + cbn in Hin. intuition discriminate.
      + exact (Hl Hin). }
  split; [exact Hc|]. unfold extract_facts. rewrite Hc.
  destruct (json_loads (strip body)) as [[| | | |items|]| |]; reflexivity.
Qed.

End ExtractFactsFacts.

Section PromptFacts.
Context {U : UnicodeData} {St : Type} {R : Server St}.

(** X15. The prompt [_build_system_with_memories] builds starts with
    the system prompt, and it is the system prompt itself exactly when
    the search gave no memory, which is also what a query that the
    engine rejects comes to. *)
Theorem build_system_prompt_extends (self : MemoryEnhancedChat)
    (query : str) (s s' : St) (prompt : str) :
  _build_system_with_memories self query s = (Ok prompt, s') ->
  startswith (system_prompt self) prompt = true
  /\ (prompt = system_prompt self
      <-> search_memories (memory_store self) query 5 s = (Ok [], s')).
Proof.
  unfold _build_system_with_memories. unfold bind at 1.
  destruct (search_memories (memory_store self) query 5 s)
    as [[[|m ms]|e] s1]; intros H; inversion H; subst; clear H.
  - split; [|tauto].
    rewrite <- (app_nil_r (system_prompt self)) at 2. apply startswith_app.
  - split; [apply startswith_app|]. split; [|discriminate].
    intros E. exfalso.
    rewrite <- (app_nil_r (system_prompt self)) in E at 2.
    apply app_inv_head in E. discriminate.
Qed.

End PromptFacts.

Section SaveFactsFacts.
Context {U : UnicodeData}.
Variable fulltext : Query -> MemRedis.keyspace -> res (list Redis.Document).
Variable tag_match : str -> str -> bool.
Variable hit_order : MemRedis.keyspace -> MemRedis.keyspace.
Import MemRedis MemRedisFacts.

#[local] Instance chat_server : Server keyspace :=
  server fulltext tag_match hit_order.

#[local] Abbreviation hits_of := (tagged tag_match).

Lemma save_step (uid hex12 now content : str) (ks : keyspace) :
  reorders hit_order ->
  plain_owner uid ->
  (length (hits_of uid ks) < 100)%nat ->
  lookup (PREFIX ++ hex12) ks = None ->
  save_memory (new_store uid) hex12 now content ks
  = if is_duplicate (lower (strip content)) (contents (hits_of uid ks))
    then (Ok [], ks)
    else (Ok (PREFIX ++ hex12),
          ks ++ [(PREFIX ++ hex12,
                  {| h_content := content; h_user_id := uid;
                     h_timestamp := now |})]).
Proof.
  intros Ho Hu Hlen Hfresh.
  pose proof (save_memory_mem fulltext tag_match hit_order uid hex12 now
                content ks Hu) as H.
  rewrite (is_duplicate_perm _ _ _
             (listing_all tag_match hit_order uid ks Ho
                ltac:(lia))) in H.
  rewrite Hfresh in H. exact H.
Qed.

Lemma is_duplicate_grows (normalized : str) (listing more : list str) :
  is_duplicate normalized listing = true ->
  is_duplicate normalized (listing ++ more) = true.
Proof.
  induction listing as [|m listing IH]; [discriminate|].
  cbn [app is_duplicate].
  destruct (str_eqb (lower (strip m)) normalized); [reflexivity | exact IH].
Qed.

(** What the records that a run of [save_facts] adds look like. *)
Definition added_by (uid : str) (facts : list str) (kh : str * hash) : Prop :=
  startswith PREFIX (fst kh) = true
  /\ h_user_id (snd kh) = uid /\ In (h_content (snd kh)) facts.

Lemma save_facts_mem (uid sp : str) (draw : nat -> str * str) :
  finds_own_id tag_match ->
  reorders hit_order ->
  plain_owner uid ->
  (forall j j', fst (draw j) = fst (draw j') -> j = j') ->
  forall (facts : list str) (i : nat) (ks : keyspace),
    (length (hits_of uid ks) + length facts <= 100)%nat ->
    (forall j, (i <= j)%nat -> lookup (PREFIX ++ fst (draw j)) ks = None) ->
    exists added,
      save_facts {| system_prompt := sp; memory_store := new_store uid |}
        draw i facts ks = (Ok tt, ks ++ added)
      /\ (length added <= length facts)%nat
      /\ Forall (added_by uid facts) added
      /\ hits_of uid (ks ++ added) = hits_of uid ks ++ added
      /\ forall f, In f facts ->
           is_duplicate (lower (strip f))
             (contents (hits_of uid (ks ++ added))) = true.
Proof.
  intros Hm Ho Hu Hinj.
  induction facts as [|f rest IH]; intros i ks Hcap Hfresh.
  - exists []. rewrite !app_nil_r. repeat split; auto.
  - cbn [length] in Hcap. cbn [save_facts memory_store]. unfold bind at 1.
    rewrite (save_step uid (fst (draw i)) (snd (draw i)) f ks Ho Hu)
      by (lia || (apply Hfresh; lia)).
    destruct (is_duplicate (lower (strip f)) (contents (hits_of uid ks)))
      eqn:Hlisted.
    + destruct (IH (S i) ks) as (added & Hrun & Hlen & Hadded & Htag & Hall).
      * lia.
      * intros j Hj. apply Hfresh. lia.
      * exists added. split; [exact Hrun|]. split; [cbn [length]; lia|].
        split; [|split; [exact Htag|]].
        -- eapply Forall_impl; [|exact Hadded].
           intros kh (H1 & H2 & H3). repeat split; auto. right. exact H3.
        -- intros f' [<-|Hf']; [|exact (Hall f' Hf')].
           rewrite Htag. unfold contents. rewrite map_app.
           apply is_duplicate_grows. exact Hlisted.
    + set (record := (PREFIX ++ fst (draw i),
                      {| h_content := f; h_user_id := uid;
                         h_timestamp := snd (draw i) |})).
      assert (Hrec : hits_of uid (ks ++ [record]) = hits_of uid ks ++ [record])
        by (apply tagged_own_record; [exact Hm | exact Hu | reflexivity]).
      destruct (IH (S i) (ks ++ [record]))
        as (added & Hrun & Hlen & Hadded & Htag & Hall).
      * rewrite Hrec, length_app. cbn [length]. lia.
      * intros j Hj. unfold record. rewrite lookup_app_fresh.
        rewrite (Hfresh j) by lia.
        assert (E : str_eqb (PREFIX ++ fst (draw i)) (PREFIX ++ fst (draw j))
                    = false).
        { apply str_eqb_neq. intros Heq. apply app_inv_head in Heq.
          apply Hinj in Heq. lia. }
        rewrite E. reflexivity.
      * exists (record :: added).
        replace (ks ++ record :: added) with ((ks ++ [record]) ++ added)
          by (rewrite <- app_assoc; reflexivity).
        split; [exact Hrun|]. split; [cbn [length]; lia|].
        split; [|split].
        -- constructor.
           ++ unfold added_by, record. cbn [fst snd h_user_id h_content].
              rewrite startswith_app. repeat split. left. reflexivity.
           ++ eapply Forall_impl; [|exact Hadded].
              intros kh (H1 & H2 & H3). repeat split; auto. right. exact H3.
        -- rewrite Htag, Hrec, <- app_assoc. reflexivity.
        -- intros f' [<-|Hf']; [|exact (Hall f' Hf')].
           rewrite Htag, Hrec. unfold contents. rewrite !map_app.
           apply is_duplicate_grows.
           unfold record. cbn [map snd h_content].
           rewrite is_duplicate_app, str_eqb_refl. apply orb_true_r.
Qed.

(** X16. The loop of [chat] that saves the extracted facts.  For an
    owner id of letters, digits, underscores and hyphens, an index that
    finds a record under the id it was written with, room for the whole
    batch under the cap of 100, and keys that are free and differ from
    call to call: the loop ends without an exception and only appends
    records, at most one per fact, each under the [memory:] prefix with
    the owner's [user_id] and a fact of the batch as content; afterwards
    the listing of the owner holds every fact of the batch, up to
    stripping and lowercasing. *)
Theorem save_facts_lists_every_fact (uid sp : str) (draw : nat -> str * str)
    (facts : list str) (ks : keyspace) :
  finds_own_id tag_match ->
  reorders hit_order ->
  plain_owner uid ->
  (length (hits_of uid ks) + length facts <= 100)%nat ->
  (forall j, lookup (PREFIX ++ fst (draw j)) ks = None) ->
  (forall j j', fst (draw j) = fst (draw j') -> j = j') ->
  exists added all,
    save_facts {| system_prompt := sp; memory_store := new_store uid |}
      draw 0 facts ks = (Ok tt, ks ++ added)
    /\ (length added <= length facts)%nat
    /\ Forall (added_by uid facts) added
    /\ get_all_memories (new_store uid) (ks ++ added) = (Ok all, ks ++ added)
    /\ forall f, In f facts ->
         exists mem, In mem all /\ lower (strip mem) = lower (strip f).
Proof.
  intros Hm Ho Hu Hcap Hfresh Hinj.
  destruct (save_facts_mem uid sp draw Hm Ho Hu Hinj facts 0 ks Hcap)
    as (added & Hrun & Hlen & Hadded & Htag & Hall).
  { intros j _. apply Hfresh. }
  exists added, (listing tag_match hit_order uid (ks ++ added)).
  split; [exact Hrun|]. split; [exact Hlen|]. split; [exact Hadded|].
  split;
    [exact (get_all_memories_mem fulltext tag_match hit_order uid _ Hu)|].
  intros f Hf. apply is_duplicate_In.
  rewrite (is_duplicate_perm _ _ _
             (listing_all tag_match hit_order uid (ks ++ added) Ho
                ltac:(rewrite Htag, length_app; lia))).
  exact (Hall f Hf).
Qed.

End SaveFactsFacts.

End ChatFacts.

Module ChatScenarios.
Import Chat ChatFacts MemRedis MemRedisFacts Scenarios.

#[local] Instance chat_tables : UnicodeData := Latin.ucd.
#[local] Instance chat_rejecting : Server keyspace :=
  server no_fulltext folded_match oldest_first.

(** The reply of the scenario, an array of a fact, a blank string and a
    number, and what [json.loads] gives on it. *)
Definition reply_body : str :=
  [91; 34]%N ++ str_of "El usuario vive en Lima" ++ [34]%N
  ++ str_of ", " ++ [34; 32; 34]%N ++ str_of ", 3]".

(** A text of a thousand and one opening brackets: deeper than the
    decoder recurses. *)
Definition too_deep : str := repeat 91%N 1001.

Definition loads_reply (cleaned : str) : loaded :=
  if str_eqb cleaned reply_body
  then Loaded (JArray [JString (str_of "El usuario vive en Lima");
                       JString (str_of " "); JNumber (str_of "3")])
  else if str_eqb cleaned too_deep then Loads_RecursionError
  else Loads_JSONDecodeError.

Lemma extract_facts_returns_nonblank_witness :
  extract_facts loads_reply (str_of " " ++ reply_body ++ [newline])
  = Returned [str_of "El usuario vive en Lima"]
  /\ exists cleaned,
       cleaned_reply (str_of " " ++ reply_body ++ [newline]) = Some cleaned
       /\ cleaned = reply_body.
Proof.
  assert (H : extract_facts loads_reply (str_of " " ++ reply_body ++ [newline])
              = Returned [str_of "El usuario vive en Lima"]) by reflexivity.
  split; [exact H|].
  destruct (extract_facts_returns_nonblank loads_reply _ _ H)
    as (cleaned & Hc & _).
  exists cleaned. split; [exact Hc|].
  vm_compute in Hc. inversion Hc. reflexivity.
Defined.

(** A fenced reply on one line raises [IndexError]; the same reply on
    three lines is parsed; a reply nested too deep raises
    [RecursionError]. *)
Example uncaught_errors :
  extract_facts loads_reply (fence ++ reply_body ++ fence) = Raised IndexError
  /\ extract_facts loads_reply too_deep = Raised RecursionError
  /\ extract_facts loads_reply (str_of "no JSON") = Returned [].
Proof. repeat split; vm_compute; reflexivity. Qed.

Lemma fenced_reply_is_its_body_witness :
  isspace backtick = false
  /\ ~ In newline (str_of "json")
  /\ extract_facts loads_reply
       (fence ++ str_of "json" ++ newline :: (reply_body ++ [newline]) ++ fence)
     = Returned [str_of "El usuario vive en Lima"].
Proof.
  assert (Hl : ~ In newline (str_of "json")).
  { cbn. intuition discriminate. }
  split; [reflexivity|]. split; [exact Hl|].
  exact (proj2 (fenced_reply_is_its_body loads_reply (str_of "json")
                  (reply_body ++ [newline]) eq_refl Hl)).
Defined.

Definition assistant : MemoryEnhancedChat :=
  {| system_prompt := str_of "Eres un asistente de clima util.";
     memory_store := new_store (str_of "u-1") |}.

(** The engine rejects the keyword query: the prompt is the system
    prompt. *)
Lemma build_system_prompt_extends_witness :
  _build_system_with_memories assistant (str_of "Tokio") three_facts
  = (Ok (system_prompt assistant), three_facts)
  /\ search_memories (memory_store assistant) (str_of "Tokio") 5 three_facts
     = (Ok [], three_facts).
Proof.
  assert (H : _build_system_with_memories assistant (str_of "Tokio") three_facts
              = (Ok (system_prompt assistant), three_facts)) by reflexivity.
  split; [exact H|].
  exact (proj1 (proj2 (build_system_prompt_extends assistant (str_of "Tokio")
                         three_facts three_facts _ H)) eq_refl).
Defined.

Example prompt_with_memories :
  _build_system_with_memories assistant (str_of "que es eso?") three_facts
  = (Ok (str_of "Eres un asistente de clima util."
         ++ [newline; newline]
         ++ str_of "Informacion recordada sobre este usuario:" ++ [newline]
         ++ str_of "- Likes tea" ++ [newline] ++ str_of "- Lives in Tokio"
         ++ [newline; newline]
         ++ str_of "Usa esta informacion para personalizar tu respuesta."),
     three_facts).
Proof. reflexivity. Qed.

(** Keys [k], [kk], [kkk], ... *)
Definition draw (j : nat) : str * str := (repeat 107%N (S j), str_of "7").

Lemma draw_injective (j j' : nat) : fst (draw j) = fst (draw j') -> j = j'.
Proof.
  unfold draw. cbn [fst]. intros H. apply (f_equal (@length _)) in H.
  rewrite !repeat_length in H. lia.
Qed.

Lemma draw_fresh (j : nat) :
  lookup (PREFIX ++ fst (draw j)) three_facts = None.
Proof. reflexivity. Qed.

Lemma save_facts_lists_every_fact_witness :
  plain_owner (str_of "u-1")
  /\ (length (tagged folded_match (str_of "u-1") three_facts)
      + length [str_of "Prefers Celsius"; str_of " prefers celsius";
                str_of "Speaks Spanish"] <= 100)%nat
  /\ exists added,
       save_facts assistant draw 0
         [str_of "Prefers Celsius"; str_of " prefers celsius";
          str_of "Speaks Spanish"] three_facts
       = (Ok tt, three_facts ++ added)
       /\ (length added <= 3)%nat.
Proof.
  assert (Hcap : (length (tagged folded_match (str_of "u-1") three_facts)
                  + length [str_of "Prefers Celsius"; str_of " prefers celsius";
                            str_of "Speaks Spanish"] <= 100)%nat)
    by (cbn; lia).
  split; [exact plain_owner_u1|]. split; [exact Hcap|].
  destruct (save_facts_lists_every_fact no_fulltext folded_match oldest_first
              (str_of "u-1")
              (system_prompt assistant) draw _ three_facts
              folded_match_own oldest_first_reorders
              plain_owner_u1 Hcap draw_fresh draw_injective)
    as (added & all & Hrun & Hlen & _).
  exists added. split; [exact Hrun | exact Hlen].
Defined.

Example save_facts_run :
  save_facts assistant draw 0
    [str_of "Prefers Celsius"; str_of " prefers celsius";
     str_of "Speaks Spanish"] three_facts
  = (Ok tt,
     three_facts ++ [(PREFIX ++ str_of "k",
                      {| h_content := str_of "Prefers Celsius";
                         h_user_id := str_of "u-1";
                         h_timestamp := str_of "7" |});
                     (PREFIX ++ str_of "kkk",
                      {| h_content := str_of "Speaks Spanish";
                         h_user_id := str_of "u-1";
                         h_timestamp := str_of "7" |})]).
Proof. reflexivity. Qed.

End ChatScenarios.

(* ===================================================================== *)
(** * More on the fusion and on the retriever's context *)
(* ===================================================================== *)

Module HybridMore.
Import Hybrid HybridFacts.
Local Open Scope Q_scope.

Definition no_products_message : str :=
  str_of "No se encontraron productos relevantes en el catalogo.".

Definition docs_header : str :=
  str_of "Informacion relevante de productos de nuestro catalogo:" ++ [10%N].

(** [format_docs]. *)
Definition format_docs (docs : list Document) : str :=
  match docs with
  | [] => no_products_message
  | _ :: _ => docs_header ++ join [10%N] (map page_content docs)
  end.

Lemma Qplus_swap (x y : Q) : Qplus x y = Qplus y x.
Proof.
  destruct x as [a b], y as [c d]. unfold Qplus. cbn [Qnum Qden].
  f_equal; [apply Z.add_comm | apply Pos.mul_comm].
Qed.

Lemma rrf_score_swap (k : Z) (list_a list_b : list ranked) (id : Z) :
  rrf_score k list_a list_b id = rrf_score k list_b list_a id.
Proof. unfold rrf_score. apply Qplus_swap. Qed.

Lemma reciprocal_positive (k r : Z) :
  (0 < k)%Z -> (1 <= r)%Z -> 0 < 1 / inject_Z (k + r).
Proof.
  intros Hk Hr. unfold Qdiv. rewrite Qmult_1_l. apply Qinv_lt_0_compat.
  unfold Qlt. cbn. lia.
Qed.

Lemma reciprocal_antitone (k r r' : Z) :
  (0 < k)%Z -> (1 <= r)%Z -> (r <= r')%Z ->
  1 / inject_Z (k + r') <= 1 / inject_Z (k + r).
Proof.
  intros Hk Hr Hle. destruct (Z.eq_dec r r') as [->|Hne]; [apply Qle_refl|].
  apply Qlt_le_weak. unfold Qdiv. rewrite !Qmult_1_l.
  apply (proj1 (Qinv_lt_contravar (inject_Z (k + r)) (inject_Z (k + r'))
                  ltac:(unfold Qlt; cbn; lia) ltac:(unfold Qlt; cbn; lia))).
  unfold Qlt. cbn. lia.
Qed.

Lemma rank_in_found (l : list ranked) (id r : Z) :
  rank_in l id = Some r -> In (id, r) l.
Proof.
  unfold rank_in.
  destruct (find (fun x => (fst x =? id)%Z) l) as [[id' r']|] eqn:Hf;
    [|discriminate].
  intros E. inversion E; subst. apply find_some in Hf.
  destruct Hf as [Hin Hid]. apply Z.eqb_eq in Hid. cbn [fst] in Hid.
  subst. exact Hin.
Qed.

Lemma rrf_term_bounds (k : Z) (l : list ranked) (id : Z) :
  (0 < k)%Z -> ranking l ->
  0 <= rrf_term k (rank_in l id)
  /\ rrf_term k (rank_in l id) <= 1 / inject_Z (k + 1)
  /\ (In id (map fst l) -> 0 < rrf_term k (rank_in l id)).
Proof.
  intros Hk Hl. destruct (rank_in l id) as [r|] eqn:Hr; cbn [rrf_term].
  - assert (H1 : (1 <= r)%Z)
      by exact (rank_from_1 l (id, r) Hl (rank_in_found l id r Hr)).
    split; [apply Qlt_le_weak; apply reciprocal_positive; assumption|].
    split; [apply reciprocal_antitone; lia|].
    intros _. apply reciprocal_positive; assumption.
  - split; [apply Qle_refl|]. split.
    + apply Qlt_le_weak. apply reciprocal_positive; lia.
    + intros Hin. apply in_map_iff in Hin. destruct Hin as ([id' r] & E & Hin).
      cbn [fst] in E. subst id'.
      pose proof (rank_in_member l (id, r) (proj1 Hl) Hin) as Hm.
      cbn [fst snd] in Hm. congruence.
Qed.

(** The score the rule gives an id of either ranking: positive, and at
    most the score of an id that both rankings have first. *)
Lemma rrf_score_range (k : Z) (list_a list_b : list ranked) (id : Z) :
  (0 < k)%Z -> ranking list_a -> ranking list_b ->
  In id (map fst list_a) \/ In id (map fst list_b) ->
  0 < rrf_score k list_a list_b id
  /\ rrf_score k list_a list_b id
     <= 1 / inject_Z (k + 1) + 1 / inject_Z (k + 1).
Proof.
  intros Hk Ha Hb Hin. unfold rrf_score.
  destruct (rrf_term_bounds k list_a id Hk Ha) as (Ha0 & Ha1 & Hapos).
  destruct (rrf_term_bounds k list_b id Hk Hb) as (Hb0 & Hb1 & Hbpos).
  split.
  - destruct Hin as [Hin|Hin].
    + apply Qlt_le_trans with (rrf_term k (rank_in list_a id) + 0).
      * rewrite Qplus_0_r. exact (Hapos Hin).
      * apply Qplus_le_compat; [apply Qle_refl | exact Hb0].
    + apply Qlt_le_trans with (0 + rrf_term k (rank_in list_b id)).
      * rewrite Qplus_0_l. exact (Hbpos Hin).
      * apply Qplus_le_compat; [exact Ha0 | apply Qle_refl].
  - apply Qplus_le_compat; assumption.
Qed.

(** The rows of the select, read off: the row of an id is there once, with
    the score of the rule. *)
Lemma fused_row_of (k : Z) (list_a list_b : list ranked) (rows : list (Z * Q)) :
  (0 < k)%Z -> ranking list_a -> ranking list_b ->
  fused_rows k list_a list_b = Some rows ->
  (forall id, In id (map fst list_a) \/ In id (map fst list_b) ->
              In (id, rrf_score k list_a list_b id) rows)
  /\ (forall id score, In (id, score) rows ->
        (In id (map fst list_a) \/ In id (map fst list_b))
        /\ score = rrf_score k list_a list_b id)
  /\ NoDup (map fst rows).
Proof.
  intros Hk Ha Hb Hrows.
  rewrite (fused_rows_scored k list_a list_b Hk Ha Hb) in Hrows.
  inversion Hrows; subst rows; clear Hrows.
  split; [|split].
  - intros id Hid. apply (in_map (scored k list_a list_b)).
    apply first_encounter_In. exact Hid.
  - intros id score Hin. apply in_map_iff in Hin.
    destruct Hin as (id' & E & Hid). unfold scored in E.
    inversion E; subst. split; [|reflexivity].
    apply (first_encounter_In list_a list_b). exact Hid.
  - rewrite map_map. unfold scored. cbn [fst]. rewrite map_id.
    exact (first_encounter_NoDup list_a list_b Ha Hb).
Qed.

(** X17. In the rows that [HYBRID_SEARCH_SQL] orders, every score is
    positive, and no row scores above the row of an id that both
    rankings have at rank 1. *)
Theorem first_in_both_scores_highest (k : Z) (list_a list_b : list ranked)
    (rows : list (Z * Q)) (top : Z) :
  (0 < k)%Z -> ranking list_a -> ranking list_b ->
  fused_rows k list_a list_b = Some rows ->
  In (top, 1%Z) list_a -> In (top, 1%Z) list_b ->
  exists best,
    In (top, best) rows
    /\ forall id score, In (id, score) rows -> 0 < score /\ score <= best.
Proof.
  intros Hk Ha Hb Hrows Hta Htb.
  destruct (fused_row_of k list_a list_b rows Hk Ha Hb Hrows)
    as (Hall & Hrow & _).
  exists (rrf_score k list_a list_b top). split.
  - apply Hall. left. apply (in_map fst) in Hta. exact Hta.
  - intros id score Hin. destruct (Hrow id score Hin) as [Hid ->].
    destruct (rrf_score_range k list_a list_b id Hk Ha Hb Hid) as [Hpos Hle].
    split; [exact Hpos|].
    unfold rrf_score at 2.
    pose proof (rank_in_member list_a (top, 1%Z) (proj1 Ha) Hta) as Ea.
    pose proof (rank_in_member list_b (top, 1%Z) (proj1 Hb) Htb) as Eb.
    cbn [fst snd] in Ea, Eb. rewrite Ea, Eb. cbn [rrf_term]. exact Hle.
Qed.

(** X18. Being in both rankings pays: in the rows that the query orders,
    an id that is in both rankings scores above every id that is in
    [list_a] only and has no better rank there. *)
Theorem both_rankings_outscore_one (k : Z) (list_a list_b : list ranked)
    (rows : list (Z * Q)) (id1 id2 r1 r1' r2 : Z) :
  (0 < k)%Z -> ranking list_a -> ranking list_b ->
  fused_rows k list_a list_b = Some rows ->
  In (id1, r1) list_a -> In (id1, r1') list_b ->
  In (id2, r2) list_a -> ~ In id2 (map fst list_b) ->
  (r1 <= r2)%Z ->
  (exists score1 score2, In (id1, score1) rows /\ In (id2, score2) rows)
  /\ forall score1 score2,
       In (id1, score1) rows -> In (id2, score2) rows -> score2 < score1.
Proof.
  intros Hk Ha Hb Hrows H1 H1' H2 Hn2 Hle.
  destruct (fused_row_of k list_a list_b rows Hk Ha Hb Hrows)
    as (Hall & Hrow & _).
  split.
  - exists (rrf_score k list_a list_b id1), (rrf_score k list_a list_b id2).
    split; apply Hall; left.
    + apply (in_map fst) in H1. exact H1.
    + apply (in_map fst) in H2. exact H2.
  - intros score1 score2 Hs1 Hs2.
    destruct (Hrow id1 score1 Hs1) as [_ ->].
    destruct (Hrow id2 score2 Hs2) as [_ ->].
    unfold rrf_score.
    pose proof (rank_in_member list_a (id1, r1) (proj1 Ha) H1) as E1.
    pose proof (rank_in_member list_b (id1, r1') (proj1 Hb) H1') as E1'.
    pose proof (rank_in_member list_a (id2, r2) (proj1 Ha) H2) as E2.
    assert (E : rank_in list_b id2 = None).
    { apply rank_in_absent. destruct (in_ranking list_b id2) eqn:Hi;
        [|reflexivity].
      apply in_ranking_In in Hi. contradiction. }
    cbn [fst snd] in E1, E1', E2. rewrite E1, E1', E2, E. cbn [rrf_term].
    apply Qle_lt_trans with (1 / inject_Z (k + r1) + 0).
    + apply Qplus_le_compat; [|apply Qle_refl].
      apply reciprocal_antitone;
        [exact Hk | exact (rank_from_1 list_a (id1, r1) Ha H1) | exact Hle].
    + apply Qplus_lt_r. apply reciprocal_positive;
        [exact Hk | exact (rank_from_1 list_b (id1, r1') Hb H1')].
Qed.

Lemma first_encounter_swap (list_a list_b : list ranked) :
  ranking list_a -> ranking list_b ->
  Permutation (first_encounter list_a list_b) (first_encounter list_b list_a).
Proof.
  intros Ha Hb. apply NoDup_Permutation.
  - exact (first_encounter_NoDup list_a list_b Ha Hb).
  - exact (first_encounter_NoDup list_b list_a Hb Ha).
  - intros id. rewrite !first_encounter_In. tauto.
Qed.

(** Rows in an order that leaves no choice: two arrangements of the same
    rows, both ordered, are the same list. *)
Lemma sorted_order_unique {A : Type} (R : A -> A -> Prop) (l l' : list A) :
  StronglySorted R l -> StronglySorted R l' -> Permutation l l' ->
  (forall x y, In x l -> In y l -> R x y -> R y x -> x = y) ->
  l = l'.
Proof.
  intros Hs. revert l'.
  induction Hs as [|x t Ht IH Hx]; intros l' Hs' Hp Hanti.
  - apply Permutation_nil in Hp. subst. reflexivity.
  - destruct l' as [|x' t'].
    { apply Permutation_sym, Permutation_nil in Hp. discriminate. }
    inversion Hs' as [|? ? Ht' Hx']; subst.
    assert (E : x = x').
    { assert (Hin : In x (x' :: t'))
        by (apply (Permutation_in x Hp); left; reflexivity).
      assert (Hin' : In x' (x :: t))
        by (apply (Permutation_in x' (Permutation_sym Hp)); left; reflexivity).
      destruct Hin as [->|Hin]; [reflexivity|].
      destruct Hin' as [->|Hin']; [reflexivity|].
      rewrite Forall_forall in Hx, Hx'.
      apply Hanti; [left; reflexivity | right; exact Hin' | |].
      - apply Hx. exact Hin'.
      - apply Hx'. exact Hin. }
    subst x'. f_equal. apply IH.
    + exact Ht'.
    + exact (Permutation_cons_inv Hp).
    + intros a b Ha Hb. apply Hanti; right; assumption.
Qed.

(** X19. The fusion is symmetric in its scores, not in its tie order:
    with the rankings exchanged the query orders the same rows, each id
    with the same score; and when no two ids have the same score, it
    gives the same answer. *)
Theorem fusion_scores_are_symmetric (k limit : Z)
    (list_a list_b : list ranked) :
  (0 < k)%Z -> ranking list_a -> ranking list_b ->
  exists rows rows',
    fused_rows k list_a list_b = Some rows
    /\ fused_rows k list_b list_a = Some rows'
    /\ Permutation rows rows'
    /\ ((forall x y, In x rows -> In y rows -> snd x == snd y -> x = y) ->
        forall out out',
          outer_select k limit list_a list_b out ->
          outer_select k limit list_b list_a out' ->
          out = out').
Proof.
  intros Hk Ha Hb.
  exists (map (scored k list_a list_b) (first_encounter list_a list_b)).
  exists (map (scored k list_b list_a) (first_encounter list_b list_a)).
  assert (Hperm : Permutation
                    (map (scored k list_a list_b) (first_encounter list_a list_b))
                    (map (scored k list_b list_a) (first_encounter list_b list_a))).
  { rewrite (map_ext (scored k list_b list_a) (scored k list_a list_b)).
    - apply Permutation_map. apply first_encounter_swap; assumption.
    - intros id. unfold scored. rewrite rrf_score_swap. reflexivity. }
  split; [exact (fused_rows_scored k list_a list_b Hk Ha Hb)|].
  split; [exact (fused_rows_scored k list_b list_a Hk Hb Ha)|].
  split; [exact Hperm|].
  intros Hdistinct out out'
    (_ & rows & sorted & Hrows & [Hp Hs] & ->)
    (_ & rows' & sorted' & Hrows' & [Hp' Hs'] & ->).
  rewrite (fused_rows_scored k list_a list_b Hk Ha Hb) in Hrows.
  rewrite (fused_rows_scored k list_b list_a Hk Hb Ha) in Hrows'.
  inversion Hrows; subst rows; clear Hrows.
  inversion Hrows'; subst rows'; clear Hrows'.
  f_equal. apply (sorted_order_unique score_desc).
  - exact (Sorted_StronglySorted score_desc_transitive Hs).
  - exact (Sorted_StronglySorted score_desc_transitive Hs').
  - eapply Permutation_trans; [apply Permutation_sym; exact Hp|].
    eapply Permutation_trans; [exact Hperm | exact Hp'].
  - intros x y Hx Hy Hxy Hyx. apply Hdistinct.
    + exact (Permutation_in x (Permutation_sym Hp) Hx).
    + exact (Permutation_in y (Permutation_sym Hp) Hy).
    + unfold score_desc in *. apply Qle_antisym; assumption.
Qed.

Lemma top20_length (key : Product -> Q) (rows : list Product)
    (out : list ranked) :
  top20_by key rows out -> length out = Nat.min 20 (length rows).
Proof.
  intros (sorted & Hperm & _ & ->).
  rewrite length_map, length_firstn, (Permutation_length Hperm). reflexivity.
Qed.

Section RetrieverMore.
Variable products : list Product.
Variable distance : Product -> Q.
Variable ts_match : Product -> bool.
Variable ts_rank_cd : Product -> Q.
Variable format_2f : Q -> str.
Hypothesis primary_key : NoDup (map p_id products).

Lemma documents_count (max_results : Z) (sem kw : list ranked)
    (documents : list Document) :
  _get_relevant_documents products distance ts_match ts_rank_cd format_2f
    max_results sem kw documents ->
  length documents
  = Nat.min (Z.to_nat max_results) (length (first_encounter sem kw)).
Proof.
  intros (rows & (Hsem & Hkw & Hl & fused & sorted & Hf & Hord & ->) & ->).
  destruct (semantic_search_ranking products distance primary_key sem Hsem)
    as [Hrs His].
  destruct (keyword_search_ranking products ts_match ts_rank_cd primary_key
              kw Hkw) as [Hrk Hik].
  rewrite (fused_rows_scored 60 sem kw eq_refl Hrs Hrk) in Hf.
  inversion Hf; subst fused; clear Hf.
  destruct (answer_prefix _ sorted (Z.to_nat max_results) Hord)
    as (_ & Hlen & Hsub & _).
  rewrite length_map in Hlen. rewrite <- Hlen.
  rewrite build_documents_length; [apply length_map|].
  intros id Hid. apply in_map_iff in Hid. destruct Hid as (x & <- & Hx).
  apply Hsub in Hx. apply in_map_iff in Hx.
  destruct Hx as (id' & <- & Hid'). cbn [scored fst].
  apply first_encounter_In in Hid'. destruct Hid'; auto.
Qed.

Lemma candidates_count (sem kw : list ranked) :
  semantic_search products distance sem ->
  keyword_search products ts_match ts_rank_cd kw ->
  (Nat.min 20 (length products) <= length (first_encounter sem kw))%nat
  /\ ((length products <= 20)%nat ->
      length (first_encounter sem kw) = length products).
Proof.
  intros Hsem Hkw.
  pose proof (top20_length distance products sem Hsem) as Hlen.
  destruct (semantic_search_ranking products distance primary_key sem Hsem)
    as [Hrs His].
  destruct (keyword_search_ranking products ts_match ts_rank_cd primary_key
              kw Hkw) as [Hrk Hik].
  unfold first_encounter. rewrite length_app, length_map.
  split; [rewrite <- Hlen; apply Nat.le_add_r|].
  intros Hsmall.
  assert (Hall : incl (map p_id products) (map fst sem)).
  { apply NoDup_length_incl; [exact (proj1 Hrs) | | exact His].
    rewrite !length_map. unfold ranked in *. lia. }
  rewrite (filter_none (fun id => negb (in_ranking sem id))).
  - cbn [length]. unfold ranked in *. lia.
  - intros id Hid. apply negb_false_iff. apply in_ranking_In.
    apply Hall. apply Hik. exact Hid.
Qed.

(** X20. The semantic ranking has no filter, so the retriever comes back
    with documents whenever there are products: at least
    [min(max_results, 20, number of products)] of them, and for a catalog
    of at most 20 products exactly [min(max_results, number of
    products)], whatever the query matches. *)
Theorem retriever_fills_up (max_results : Z) (sem kw : list ranked)
    (documents : list Document) :
  _get_relevant_documents products distance ts_match ts_rank_cd format_2f
    max_results sem kw documents ->
  (Nat.min (Z.to_nat max_results) (Nat.min 20 (length products))
   <= length documents)%nat
  /\ ((length products <= 20)%nat ->
      length documents = Nat.min (Z.to_nat max_results) (length products)).
Proof.
  intros H. rewrite (documents_count max_results sem kw documents H).
  destruct H as (rows & (Hsem & Hkw & _) & _).
  destruct (candidates_count sem kw Hsem Hkw) as [Hlow Hexact].
  split; [lia|]. intros Hsmall. rewrite (Hexact Hsmall). reflexivity.
Qed.

(** X21. [format_docs] gives its "no products" message on the empty list
    only, and after the retriever it never does once the catalog has a
    product and [max_results] is at least 1: the context then starts
    with the header, also for a query that matches nothing. *)
Theorem context_is_never_the_empty_message (max_results : Z)
    (sem kw : list ranked) (documents : list Document) :
  products <> [] ->
  (1 <= max_results)%Z ->
  _get_relevant_documents products distance ts_match ts_rank_cd format_2f
    max_results sem kw documents ->
  (forall docs, format_docs docs = no_products_message <-> docs = [])
  /\ documents <> []
  /\ startswith docs_header (format_docs documents) = true.
Proof.
  intros Hne Hn H.
  assert (Hmsg : forall docs,
             format_docs docs = no_products_message <-> docs = []).
  { intros [|d ds]; [split; reflexivity|]. split; [|discriminate].
    cbn [format_docs]. intros E. apply (f_equal (firstn 1)) in E.
    vm_compute in E. discriminate. }
  assert (Hdocs : documents <> []).
  { intros ->.
    pose proof (documents_count max_results sem kw [] H) as Hc.
    destruct H as (rows & (Hsem & Hkw & _) & _).
    destruct (candidates_count sem kw Hsem Hkw) as [Hlow _].
    destruct products as [|p ps]; [congruence|].
    cbn [length] in Hc, Hlow. unfold ranked in *. lia. }
  split; [exact Hmsg|]. split; [exact Hdocs|].
  destruct documents as [|d ds]; [congruence|].
  cbn [format_docs]. apply startswith_app.
Qed.

End RetrieverMore.

End HybridMore.

Module HybridScenarios.
Import Hybrid HybridFacts HybridMore CatalogScenario.
Local Open Scope Q_scope.

Definition first_list : list ranked := [(2, 1); (1, 2)]%Z.
Definition second_list : list ranked := [(2, 1); (3, 2)]%Z.

Lemma first_list_ranking : ranking first_list.
Proof. apply ranking_two; (discriminate || lia). Qed.

Lemma second_list_ranking : ranking second_list.
Proof. apply ranking_two; (discriminate || lia). Qed.

Lemma first_in_both_scores_highest_witness :
  (0 < 60)%Z
  /\ In (2, 1)%Z first_list /\ In (2, 1)%Z second_list
  /\ exists best,
       In (2%Z, best)
          [(2%Z, 1 / inject_Z 61 + 1 / inject_Z 61); (1%Z, 1 / inject_Z 62 + 0);
           (3%Z, 0 + 1 / inject_Z 62)]
       /\ 1 / inject_Z 62 + 0 <= best.
Proof.
  assert (H1 : In (2, 1)%Z first_list) by (left; reflexivity).
  assert (H1' : In (2, 1)%Z second_list) by (left; reflexivity).
  split; [reflexivity|]. split; [exact H1|]. split; [exact H1'|].
  destruct (first_in_both_scores_highest 60 first_list second_list _ 2
              eq_refl first_list_ranking second_list_ranking eq_refl H1 H1')
    as (best & Hbest & Hall).
  exists best. split; [exact Hbest|].
  exact (proj2 (Hall 1%Z _ (or_intror (or_introl eq_refl)))).
Defined.

Lemma both_rankings_outscore_one_witness :
  In (2, 1)%Z first_list /\ In (2, 1)%Z second_list
  /\ In (1, 2)%Z first_list /\ ~ In 1%Z (map fst second_list)
  /\ fused_rows 60 first_list second_list
     = Some [(2%Z, 1 / inject_Z 61 + 1 / inject_Z 61);
             (1%Z, 1 / inject_Z 62 + 0); (3%Z, 0 + 1 / inject_Z 62)]
  /\ 1 / inject_Z 62 + 0 < 1 / inject_Z 61 + 1 / inject_Z 61.
Proof.
  assert (H1 : In (2, 1)%Z first_list) by (left; reflexivity).
  assert (H1' : In (2, 1)%Z second_list) by (left; reflexivity).
  assert (H2 : In (1, 2)%Z first_list) by (right; left; reflexivity).
  assert (Hn : ~ In 1%Z (map fst second_list)).
  { cbn. intuition discriminate. }
  repeat (split; [assumption|]). split; [reflexivity|].
  refine (proj2 (both_rankings_outscore_one 60 first_list second_list _
                   2 1 1 1 2 eq_refl first_list_ranking second_list_ranking
                   eq_refl H1 H1' H2 Hn _) _ _ _ _).
  - lia.
  - left. reflexivity.
  - right. left. reflexivity.
Defined.

(** Rankings without a tie: ids 1, 2 and 3 score [1/61], [1/62 + 1/61]
    and [1/63]. *)
Definition third_list : list ranked := [(1, 1); (2, 2)]%Z.
Definition fourth_list : list ranked := [(2, 1); (3, 3)]%Z.

Lemma third_list_ranking : ranking third_list.
Proof. apply ranking_two; (discriminate || lia). Qed.

Lemma fourth_list_ranking : ranking fourth_list.
Proof. apply ranking_two; (discriminate || lia). Qed.

Lemma fusion_scores_are_symmetric_witness :
  (0 < 60)%Z /\ ranking third_list /\ ranking fourth_list
  /\ exists rows rows',
       fused_rows 60 third_list fourth_list = Some rows
       /\ fused_rows 60 fourth_list third_list = Some rows'
       /\ Permutation rows rows'.
Proof.
  split; [reflexivity|].
  split; [exact third_list_ranking|]. split; [exact fourth_list_ranking|].
  destruct (fusion_scores_are_symmetric 60 2 third_list fourth_list eq_refl
              third_list_ranking fourth_list_ranking)
    as (rows & rows' & H1 & H2 & Hp & _).
  exists rows, rows'. split; [exact H1|]. split; [exact H2 | exact Hp].
Defined.

(** With the rankings of the last witness exchanged the answer is the
    same; with a tie (ids 1 and 2 of [[(1,1); (2,2)]] and
    [[(2,1); (1,2)]]) a stable sort answers 1, 2 one way and 2, 1 the
    other. *)
Example exchanged_rankings :
  option_map (map fst) (run_outer_select 60 2 third_list fourth_list)
  = Some [2; 1]%Z
  /\ option_map (map fst) (run_outer_select 60 2 fourth_list third_list)
     = Some [2; 1]%Z
  /\ option_map (map fst)
       (run_outer_select 60 2 [(1, 1); (2, 2)]%Z [(2, 1); (1, 2)]%Z)
     = Some [1; 2]%Z
  /\ option_map (map fst)
       (run_outer_select 60 2 [(2, 1); (1, 2)]%Z [(1, 1); (2, 2)]%Z)
     = Some [2; 1]%Z.
Proof. repeat split. Qed.

Lemma retriever_fills_up_witness :
  NoDup (map p_id catalog)
  /\ _get_relevant_documents catalog distance ts_match ts_rank_cd format_2f
       1 sem kw [format_row format_2f poles]
  /\ (Nat.min (Z.to_nat 1) (Nat.min 20 (length catalog))
      <= length [format_row format_2f poles])%nat.
Proof.
  split; [exact catalog_primary_key|]. split; [exact catalog_retrieval|].
  exact (proj1 (retriever_fills_up catalog distance ts_match ts_rank_cd
                  format_2f catalog_primary_key 1 sem kw _
                  catalog_retrieval)).
Defined.

Lemma context_is_never_the_empty_message_witness :
  catalog <> []
  /\ (1 <= 1)%Z
  /\ startswith docs_header (format_docs [format_row format_2f poles]) = true.
Proof.
  assert (Hne : catalog <> []) by discriminate.
  split; [exact Hne|]. split; [lia|].
  exact (proj2 (proj2 (context_is_never_the_empty_message catalog distance
                         ts_match ts_rank_cd format_2f catalog_primary_key
                         1 sem kw _ Hne (Z.le_refl 1) catalog_retrieval))).
Defined.

End HybridScenarios.

(* ===================================================================== *)
(** * The listing against any server, and the catalog table *)
(* ===================================================================== *)

Module ListingFacts.

Section AnyServer.
Context {St : Type} {R : Server St}.

(** X22. [get_all_memories] never raises [ResponseError]: a listing
    query that the engine rejects gives the empty list, as an owner
    without facts does; any other exception of the engine comes out as
    raised, and an answer is returned as the contents of its documents,
    in the engine's order. *)
Theorem listing_degrades_on_ResponseError (self : RedisMemoryStore) (s : St) :
  fst (get_all_memories self s) <> Raise ResponseError
  /\ (forall s',
         ft_search INDEX_NAME (owner_query self) s = (Raise ResponseError, s') ->
         get_all_memories self s = (Ok [], s'))
  /\ (forall e s',
         e <> ResponseError ->
         ft_search INDEX_NAME (owner_query self) s = (Raise e, s') ->
         get_all_memories self s = (Raise e, s'))
  /\ (forall results s',
         ft_search INDEX_NAME (owner_query self) s = (Ok results, s') ->
         get_all_memories self s = (Ok (map doc_content results), s')).
Proof.
  rewrite get_all_memories_run. repeat split.
  - destruct (ft_search _ _ s) as [[results|[]] s']; cbn [fst]; discriminate.
  - intros s' ->. reflexivity.
  - intros e s' He ->. destruct e; congruence.
  - intros results s' ->. reflexivity.
Qed.

End AnyServer.

Lemma listing_degrades_on_ResponseError_witness :
  @ft_search _ (MemRedis.server MemRedis.no_fulltext MemRedis.folded_match
       MemRedis.oldest_first) INDEX_NAME
    (owner_query (new_store (str_of "a.b")))
    [Scenarios.fact "z9" "a.b" "Likes tea" "1"]
  = (Raise ResponseError, [Scenarios.fact "z9" "a.b" "Likes tea" "1"])
  /\ @get_all_memories _ (MemRedis.server MemRedis.no_fulltext MemRedis.folded_match
       MemRedis.oldest_first)
       (new_store (str_of "a.b")) [Scenarios.fact "z9" "a.b" "Likes tea" "1"]
     = (Ok [], [Scenarios.fact "z9" "a.b" "Likes tea" "1"]).
Proof.
  split; [reflexivity|].
  exact (proj1 (proj2 (@listing_degrades_on_ResponseError _
                         (MemRedis.server MemRedis.no_fulltext MemRedis.folded_match
       MemRedis.oldest_first)
                         (new_store (str_of "a.b"))
                         [Scenarios.fact "z9" "a.b" "Likes tea" "1"]))
           _ eq_refl).
Defined.

End ListingFacts.

Module CatalogTable.
Import Hybrid HybridFacts HybridMore.
Local Open Scope Q_scope.

(** An entry of [PRODUCTS]. *)
Record product_data : Type := {
  d_name : str;
  d_category : str;
  d_price : Q;
  d_description : str
}.

(** The rows that the INSERT loop of [create_knowledge_db] leaves in the
    table it has just created: the entries of [PRODUCTS] in order, the
    SERIAL column counting from [next]. *)
Fixpoint insert_products (next : Z) (PRODUCTS : list product_data)
    : list Product :=
  match PRODUCTS with
  | [] => []
  | product :: rest =>
      {| p_id := next; p_name := d_name product;
         p_category := d_category product; p_price := d_price product;
         p_description := d_description product |}
      :: insert_products (next + 1) rest
  end.

(** [create_knowledge_db]: DROP TABLE, CREATE TABLE, then the inserts. *)
Definition create_knowledge_db (PRODUCTS : list product_data) : list Product :=
  insert_products 1 PRODUCTS.

Lemma insert_products_ids (PRODUCTS : list product_data) (next : Z) :
  map p_id (insert_products next PRODUCTS)
  = map (fun i => (next + Z.of_nat i)%Z) (seq 0 (length PRODUCTS)).
Proof.
  revert next. induction PRODUCTS as [|product rest IH]; intros next;
    [reflexivity|].
  cbn [insert_products map length seq p_id]. f_equal; [lia|].
  rewrite IH, <- seq_shift, map_map. apply map_ext. intros i. lia.
Qed.

Lemma insert_products_primary_key (PRODUCTS : list product_data) (next : Z) :
  NoDup (map p_id (insert_products next PRODUCTS)).
Proof.
  rewrite insert_products_ids. apply Finite.Injective_map_NoDup.
  - intros i j H. lia.
  - apply seq_NoDup.
Qed.

Lemma insert_products_names (PRODUCTS : list product_data) (next : Z) :
  map p_name (insert_products next PRODUCTS) = map d_name PRODUCTS
  /\ length (insert_products next PRODUCTS) = length PRODUCTS.
Proof.
  revert next. induction PRODUCTS as [|product rest IH]; intros next;
    [split; reflexivity|].
  cbn [insert_products map length p_name].
  destruct (IH (next + 1)%Z) as [-> ->]. split; reflexivity.
Qed.

(** X23. The table [create_knowledge_db] builds has one row per entry
    of [PRODUCTS], with the ids 1, 2, ... in the order of the list, all
    different; so on a catalog of at most 20 entries the retriever
    returns exactly [min(max_results, number of entries)] documents for
    every query. *)
Theorem create_knowledge_db_numbers_rows (PRODUCTS : list product_data) :
  map p_id (create_knowledge_db PRODUCTS)
  = map (fun i => (1 + Z.of_nat i)%Z) (seq 0 (length PRODUCTS))
  /\ NoDup (map p_id (create_knowledge_db PRODUCTS))
  /\ map p_name (create_knowledge_db PRODUCTS) = map d_name PRODUCTS
  /\ forall distance ts_match ts_rank_cd format_2f max_results sem kw documents,
       (length PRODUCTS <= 20)%nat ->
       _get_relevant_documents (create_knowledge_db PRODUCTS) distance
         ts_match ts_rank_cd format_2f max_results sem kw documents ->
       length documents
       = Nat.min (Z.to_nat max_results) (length PRODUCTS).
Proof.
  unfold create_knowledge_db.
  split; [apply insert_products_ids|].
  split; [apply insert_products_primary_key|].
  split; [apply insert_products_names|].
  intros distance ts_match ts_rank_cd format_2f max_results sem kw documents
    Hsmall H.
  pose proof (insert_products_primary_key PRODUCTS 1) as Hkey.
  rewrite (documents_count _ distance ts_match ts_rank_cd format_2f Hkey
             max_results sem kw documents H).
  destruct H as (rows & (Hsem & Hkw & _) & _).
  destruct (candidates_count _ distance ts_match ts_rank_cd Hkey sem kw
              Hsem Hkw) as [_ Hexact].
  destruct (insert_products_names PRODUCTS 1) as [_ Hlen].
  rewrite Hexact by (rewrite Hlen; exact Hsmall).
  rewrite Hlen. reflexivity.
Qed.

End CatalogTable.

Module CatalogTableScenario.
Import Hybrid HybridFacts CatalogScenario CatalogTable.
Local Open Scope Q_scope.

Definition PRODUCTS : list product_data :=
  [ {| d_name := str_of "Botas TrailBlaze"; d_category := str_of "Calzado";
       d_price := 149 # 1;
       d_description := str_of "Botas impermeables de senderismo." |};
    {| d_name := str_of "Bastones TrekReady";
       d_category := str_of "Senderismo"; d_price := 59 # 1;
       d_description := str_of "Bastones ligeros de aluminio." |} ].

Lemma create_knowledge_db_numbers_rows_witness :
  create_knowledge_db PRODUCTS = catalog
  /\ (length PRODUCTS <= 20)%nat
  /\ length [format_row format_2f poles]
     = Nat.min (Z.to_nat 1) (length PRODUCTS).
Proof.
  assert (Hsmall : (length PRODUCTS <= 20)%nat) by (cbn; lia).
  split; [reflexivity|]. split; [exact Hsmall|].
  exact (proj2 (proj2 (proj2 (create_knowledge_db_numbers_rows PRODUCTS)))
           distance ts_match ts_rank_cd format_2f 1%Z sem kw _ Hsmall
           catalog_retrieval).
Defined.

End CatalogTableScenario.
